(** * Deterministic Plinko: the precomputed-path engine of [main.js]

    A shallow embedding of the trajectory synthesizer
    ([generateAnimationPath], [calculateInitialBallPosition]), the board
    layout ([resizeCanvas] with the exceptions of its redraw, [initPegs],
    [initBuckets]), the playback driver
    ([gameLoop], [updateBallAnimation], [updateBallTrail]), the drop
    bookkeeping ([handleDropBall], [createBall], [handleBallLanding],
    [resetBall], [handleReset], [handleBucketSelection]), the button states
    of [updateControls], the success rate of [updateGameStatistics] and the
    particle bookkeeping ([createParticles], [updateParticles]) of
    [main.js].

    Conventions of the embedding.
    - A JavaScript number is an exact rational ([Q]), and equality of
      numbers is [==]; rounding of IEEE doubles is not modelled there, so
      the theorems avoid conclusions that hold only without rounding (two
      different computations that meet exactly, a strict bound reached at
      the largest draw).  Where a claim is about numbers that meet exactly
      (the edges of neighbouring buckets), the code is embedded a second
      time over binary64 floats ([initBucketsF]).
    - [Math.sqrt], [Math.cos], [Math.sin] and [Math.atan2] belong to the
      platform: they are the fields of a [MathLib] taken as a parameter.
    - [Math.random] is a stream of draws [nat -> Q]; a computation that
      draws threads the index of the next draw ([Rand]).
    - A JavaScript exception leaves the globals as they were when it was
      thrown: a handler returns [Done s] or [Thrown s].
    - Drawing, DOM updates, timers and logging read the state below and
      never write the fields kept here.  They are left out, except for the
      exception that the redraw of [resizeCanvas] raises when a radius is
      negative ([drawGame]); the redraws of [gameLoop] and [initGame] come
      after their state updates and raise nothing when no radius is
      negative. *)

From Stdlib Require Import QArith Qround Qabs Qminmax Lqa ZArith Lia List Bool Sorted Floats.
Import ListNotations.
Open Scope Q_scope.

(** ** Numbers *)

Definition Qltb (a b : Q) : bool := negb (Qle_bool b a).
Definition Qleb (a b : Q) : bool := Qle_bool a b.
Definition Qgeb (a b : Q) : bool := Qle_bool b a.
Definition Qgtb (a b : Q) : bool := negb (Qle_bool a b).

(** The number kept in a variable: the reduced fraction, equal ([==]) to the
    value assigned. *)
Definition num (q : Q) : Q := Qred q.

(** [Math.floor], [Math.round], [Math.sign]. *)
Definition Mfloor (q : Q) : Q := inject_Z (Qfloor q).
Definition Mround (q : Q) : Q := inject_Z (Qfloor (q + 0.5)).
Definition Msign (q : Q) : Q :=
  if Qltb 0 q then 1 else if Qltb q 0 then -1 else 0.

(** The platform's transcendental functions. *)
Record MathLib : Type := {
  Msqrt : Q -> Q;
  Mcos : Q -> Q;
  Msin : Q -> Q;
  Matan2 : Q -> Q -> Q
}.

(** What the development needs of [Math.sqrt]: it is not below any
    non-negative number whose square fits under its argument. *)
Definition sqrt_lower (M : MathLib) : Prop :=
  forall d x : Q, 0 <= d -> d * d <= x -> d <= Msqrt M x.

(** ** Randomness and exceptions *)

Definition Rand (A : Type) : Type := nat -> A * nat.

Definition ret {A : Type} (a : A) : Rand A := fun n => (a, n).

Definition bind {A B : Type} (c : Rand A) (f : A -> Rand B) : Rand B :=
  fun n => let (a, n') := c n in f a n'.

Notation "x <- c ;; k" := (bind c (fun x => k))
  (at level 61, c at next level, right associativity).

Inductive outcome (A : Type) : Type :=
| Done (a : A)
| Thrown (a : A).
Arguments Done {A} a.
Arguments Thrown {A} a.

Definition stateOf {A : Type} (o : outcome A) : A :=
  match o with Done a => a | Thrown a => a end.

(** ** Data *)

Record Peg : Type := {
  peg_x : Q; peg_y : Q; peg_radius : Q; peg_row : nat; peg_col : nat
}.

Record Bucket : Type := {
  bucket_x : Q; bucket_y : Q; bucket_width : Q; bucket_height : Q;
  bucket_number : Z
}.

Record Keyframe : Type := { kf_x : Q; kf_y : Q; kf_time : Q }.

Record Canvas : Type := { canvas_width : Q; canvas_height : Q }.

(** The fields of [GAME_CONFIG] that [resizeCanvas] rewrites, and its
    constants. *)
Record Config : Type := { pegSpacing : Q; pegRadius : Q; ballRadius : Q }.

Definition pegRows : nat := 9.
Definition bucketCount : nat := 5.
Definition bucketDepth : Q := 0.18.
Definition gravity : Q := 0.3.
Definition ballTrailLength : nat := 5.

Definition initialConfig : Config :=
  {| pegSpacing := 50; pegRadius := 8; ballRadius := 10 |}.

Record Board : Type := {
  canvas : Canvas;
  config : Config;
  pegLocations : list Peg;
  bucketLocations : list Bucket
}.

(** [a[k - 1]] for a one-based index that may be any integer:
    [undefined] (here [None]) outside the array. *)
Definition lookup1 {A : Type} (l : list A) (k : Z) : option A :=
  if (1 <=? k)%Z then nth_error l (Z.to_nat (k - 1)) else None.

(** ** Board layout *)

Definition maxRowPegs : Q := 11.

Definition pegsInRow (row : nat) : nat :=
  let progressRatio := inject_Z (Z.of_nat row) / inject_Z (Z.of_nat (pegRows - 1)) in
  Z.to_nat (Qfloor (Qmax 1 (Qmin (Mround (1 + progressRatio * (maxRowPegs - 1))) maxRowPegs))).

Definition initPegs (cv : Canvas) (cfg : Config) : Config * list Peg :=
  let startX := canvas_width cv / 2 in
  let startY := canvas_height cv * 0.08 in
  let horizontalSpacing := canvas_width cv / (maxRowPegs + 1) in
  let verticalSpacing := horizontalSpacing * 0.866 in
  let cfg' := {| pegSpacing := horizontalSpacing;
                 pegRadius := pegRadius cfg; ballRadius := ballRadius cfg |} in
  let pegs :=
    flat_map (fun row =>
      let pegsInThisRow := pegsInRow row in
      let rowWidth := (inject_Z (Z.of_nat pegsInThisRow) - 1) * horizontalSpacing in
      let rowStartX := startX - rowWidth / 2 in
      map (fun i =>
             {| peg_x := num (rowStartX + inject_Z (Z.of_nat i) * horizontalSpacing);
                peg_y := num (startY + inject_Z (Z.of_nat row) * verticalSpacing);
                peg_radius := pegRadius cfg';
                peg_row := row; peg_col := i |})
          (seq 0 pegsInThisRow))
      (seq 0 pegRows) in
  (cfg', pegs).

Definition initBuckets (cv : Canvas) : list Bucket :=
  let bucketY := canvas_height cv * 0.84 in
  let bucketHeight := canvas_height cv * bucketDepth in
  let bucketWidth := canvas_width cv / inject_Z (Z.of_nat bucketCount) in
  map (fun i =>
         let bucketCenterX := (inject_Z (Z.of_nat i) + 0.5) * bucketWidth in
         {| bucket_x := num bucketCenterX; bucket_y := num bucketY;
            bucket_width := num bucketWidth; bucket_height := num bucketHeight;
            bucket_number := Z.of_nat i + 1 |})
      (seq 0 bucketCount).

(** The board that [resizeCanvas] lays out (main.js 96-111), before it
    redraws.  [containerWidth] is the container's [offsetWidth]; [attr v] is
    what the canvas element reports after [canvas.width = v] (the element's
    own coercion of the assigned number, outside the repository).  The radii
    come from the local [width], the peg spacing and the buckets from the
    canvas. *)
Definition resizedBoard (attr : Q -> Q) (containerWidth : Q) (cfg : Config) : Board :=
  let maxWidth := 800 in
  let width := Qmin (containerWidth - 20) maxWidth in
  let height := width * 1.3 in
  let cv := {| canvas_width := attr width; canvas_height := attr height |} in
  let cfg1 := {| pegSpacing := Mfloor (width / 16);
                 pegRadius := Mfloor (width / 100);
                 ballRadius := Mfloor (width / 60) |} in
  let (cfg2, pegs) := initPegs cv cfg1 in
  {| canvas := cv; config := cfg2; pegLocations := pegs;
     bucketLocations := initBuckets cv |}.

(** The horizontal span of a bucket. *)
Definition bucketLeft (b : Bucket) : Q := bucket_x b - bucket_width b / 2.
Definition bucketRight (b : Bucket) : Q := bucket_x b + bucket_width b / 2.

(** ** The trajectory synthesizer *)

(** The locals of [generateAnimationPath] that live across the steps of one
    attempt, with the global [animationDuration] it assigns. *)
Record Sim : Type := {
  path : list Keyframe;
  currentX : Q; currentY : Q; currentVx : Q; currentVy : Q;
  hitCount : Z; hitWall : bool;
  lastHitTime : option Q;          (* [None] is [-Infinity] *)
  isValidPath : bool;
  animDuration : Q                 (* the global [animationDuration] *)
}.

Definition withMotion (s : Sim) (x y vx vy : Q) (lh : option Q) : Sim :=
  {| path := path s; currentX := x; currentY := y; currentVx := vx; currentVy := vy;
     hitCount := hitCount s; hitWall := hitWall s; lastHitTime := lh;
     isValidPath := isValidPath s; animDuration := animDuration s |}.

Definition steps : nat := 150.
Definition maxRetries : nat := 100.
Definition minHitsForEdge : Z := 4.

Definition minDist (cfg : Config) (peg : Peg) : Q :=
  peg_radius peg + (ballRadius cfg * 2) + 2.

Definition edgeFactorOf (targetBucketIndex : Z) : Q :=
  if ((targetBucketIndex =? 1) || (targetBucketIndex =? Z.of_nat bucketCount))%Z then 1.0
  else if ((targetBucketIndex =? 2) || (targetBucketIndex =? Z.of_nat bucketCount - 1))%Z then 0.7
  else 0.4.

Definition isEdgeBucket (targetBucketIndex : Z) : bool :=
  ((targetBucketIndex =? 1) || (targetBucketIndex =? Z.of_nat bucketCount))%Z.

Fixpoint forEachR {A S : Type} (f : A -> S -> Rand S) (l : list A) (s : S) : Rand S :=
  match l with
  | [] => ret s
  | a :: l' => s' <- f a s ;; forEachR f l' s'
  end.

Section Synthesis.

Variable M : MathLib.
Variable rnd : nat -> Q.

(** [Math.random()]: the next draw of the stream. *)
Definition random : Rand Q := fun n => (rnd n, S n).

Definition dist (pDx pDy : Q) : Q := Msqrt M (pDx * pDx + pDy * pDy).

(** [calculateInitialBallPosition]. *)
Definition calculateInitialBallPosition (b : Board) : Rand Q :=
  let safetyMargin := ballRadius (config b) * 3 in
  let minX := safetyMargin in
  let maxX := canvas_width (canvas b) - safetyMargin in
  r0 <- random ;;
  let xPos := minX + r0 * (maxX - minX) in
  r1 <- random ;;
  if Qltb r1 0.3 then
    r2 <- random ;;
    if Qltb r2 0.5 then
      r3 <- random ;;
      ret (num (minX + r3 * (canvas_width (canvas b) * 0.25)))
    else
      r3 <- random ;;
      ret (num (canvas_width (canvas b) * 0.75
                + r3 * (maxX - canvas_width (canvas b) * 0.75)))
  else ret (num xPos).

(** Step 3 of the simulation, for one peg: the deflection. *)
Definition collidePeg (cfg : Config) (time : Q) (peg : Peg) (s : Sim) : Rand Sim :=
  let pDx := currentX s - peg_x peg in
  let pDy := currentY s - peg_y peg in
  let d := dist pDx pDy in
  if Qltb d (minDist cfg peg) then
    let overlap := minDist cfg peg - d in
    let angle := Matan2 M pDy pDx in
    let x := currentX s + Mcos M angle * overlap * 1.1 in
    let y := currentY s + Msin M angle * overlap * 1.1 in
    r0 <- random ;;
    let deflectAngle0 := angle + (r0 - 0.5) * 1.0 in
    r1 <- random ;;
    deflectAngle <- (if Qltb r1 0.2
                     then r2 <- random ;; ret (deflectAngle0 + (r2 - 0.5) * 1.5)
                     else ret deflectAngle0) ;;
    r3 <- random ;;
    let deflectStrength := 0.5 + r3 * 1.2 in
    r4 <- random ;;
    let horizontalFactor := 0.8 + r4 * 0.8 in
    r5 <- random ;;
    let verticalFactor := 0.6 + r5 * 0.8 in
    let vx := currentVx s + Mcos M deflectAngle * deflectStrength * horizontalFactor in
    let vy := currentVy s + Msin M deflectAngle * deflectStrength * verticalFactor in
    ret (withMotion s x y vx (Qmax 0.8 vy) (Some time))
  else ret s.

(** Step 7, for one peg: the push accumulated while the position stays put. *)
Definition pushPeg (cfg : Config) (x y : Q) (acc : Q * Q) (peg : Peg) : Q * Q :=
  let pDx := x - peg_x peg in
  let pDy := y - peg_y peg in
  let d := dist pDx pDy in
  if Qltb d (minDist cfg peg) then
    let overlap := minDist cfg peg - d in
    let angle := Matan2 M pDy pDx in
    (fst acc + Mcos M angle * overlap * 1.05, snd acc + Msin M angle * overlap * 1.05)
  else acc.

(** Step 8, for one peg: the pegs overlapping the ball at this step. *)
Definition countPeg (cfg : Config) (x y : Q) (n : Z) (peg : Peg) : Z :=
  let pDx := x - peg_x peg in
  let pDy := y - peg_y peg in
  if Qltb (dist pDx pDy) (minDist cfg peg) then (n + 1)%Z else n.

Definition lastKeyframe (p : list Keyframe) : Keyframe :=
  last p {| kf_x := 0; kf_y := 0; kf_time := 0 |}.

Definition totalPush (cfg : Config) (pegs : list Peg) (x y : Q) : Q * Q :=
  fold_left (pushPeg cfg x y) pegs (0, 0).

Definition countHits (cfg : Config) (pegs : list Peg) (x y : Q) : Z :=
  fold_left (countPeg cfg x y) pegs 0%Z.

(** Steps 1 and 2 of iteration [i]: gravity, and the pull toward the
    target, whose strength is the constant 0. *)
Definition applyForces (tb : Bucket) (totalDurationMs : Q) (i : nat) (s : Sim) : Sim :=
  let targetX := bucket_x tb in
  let timeStep := totalDurationMs / inject_Z (Z.of_nat steps) in
  let time := inject_Z (Z.of_nat i) * timeStep in
  let vy1 := currentVy s + gravity * (timeStep / 16) in
  let dxToTarget := targetX - currentX s in
  let pullStrength0 := 0.0 in
  let pullStrength1 :=
    match lastHitTime s with
    | Some h => if Qltb (time - h) 180 then pullStrength0 * 0.1 else pullStrength0
    | None => pullStrength0
    end in
  let pullStrength :=
    match lastHitTime s with
    | Some h => if Qgtb time h then pullStrength1 * 0.20 else pullStrength1
    | None => pullStrength1
    end in
  let vx1 := currentVx s + dxToTarget * pullStrength * (timeStep / 16.0) in
  withMotion s (currentX s) (currentY s) vx1 vy1 (lastHitTime s).

(** Steps 4 to 9 of iteration [i], after the peg deflections; the boolean
    is [break]. *)
Definition stepAfterCollide (b : Board) (tb : Bucket) (startY totalDurationMs : Q)
    (i : nat) (s3 : Sim) : Sim * bool :=
  let cfg := config b in
  let targetX := bucket_x tb in
  let targetY := bucket_y tb in
  let timeStep := totalDurationMs / inject_Z (Z.of_nat steps) in
  let time := inject_Z (Z.of_nat i) * timeStep in
  (* 4. damping, 5. position *)
  let vx4 := currentVx s3 * 0.985 in
  let vy4 := Qmin (currentVy s3 * 0.99) 15 in
  let x5 := currentX s3 + vx4 * (timeStep / 16.0) in
  let y5 := currentY s3 + vy4 * (timeStep / 16.0) in
  (* 6. walls *)
  let bR := ballRadius cfg in
  let '(x6, vx6) :=
    if Qltb (x5 - bR) 0 then (bR, vx4 * -0.6)
    else if Qgtb (x5 + bR) (canvas_width (canvas b))
         then (canvas_width (canvas b) - bR, vx4 * -0.6)
         else (x5, vx4) in
  let y6 := if Qltb y5 startY then startY else y5 in
  if Qgeb y6 targetY then
    (* the ball reached the bucket top: interpolate the landing point *)
    let prevPoint := lastKeyframe (path s3) in
    let dyTotal := y6 - kf_y prevPoint in
    let dyNeeded := targetY - kf_y prevPoint in
    let t := if Qeq_bool dyTotal 0 then 1 else Qmax 0 (Qmin 1 (dyNeeded / dyTotal)) in
    let finalX := kf_x prevPoint + (x6 - kf_x prevPoint) * t in
    let finalTime := kf_time prevPoint + (time - kf_time prevPoint) * t in
    let safetyMargin := bucket_width tb * 0.1 in
    let safeLeft := bucketLeft tb + safetyMargin in
    let safeRight := bucketRight tb - safetyMargin in
    let valid :=
      if Qltb finalX safeLeft || Qgtb finalX safeRight then false
      else
        let finalVelocityX := x6 - kf_x prevPoint in
        let maxSafeVelocity := 2.0 in
        if Qgtb (Qabs finalVelocityX) maxSafeVelocity then false
        else isValidPath s3 in
    ({| path := path s3 ++ [ {| kf_x := num finalX; kf_y := targetY;
                                kf_time := num finalTime |} ];
        currentX := num x6; currentY := num y6;
        currentVx := num vx6; currentVy := num vy4;
        hitCount := hitCount s3; hitWall := hitWall s3;
        lastHitTime := lastHitTime s3;
        isValidPath := valid;
        animDuration := num finalTime |}, true)
  else
    (* 7. push out of the pegs *)
    let push := totalPush cfg (pegLocations b) x6 y6 in
    let x7 := num (x6 + fst push) in
    let y7 := num (y6 + snd push) in
    (* 8. hit count and wall *)
    let hits := countHits cfg (pegLocations b) x7 y7 in
    let wall := if Qleb x7 (ballRadius cfg) || Qgeb x7 (canvas_width (canvas b) - ballRadius cfg)
                then true else hitWall s3 in
    (* 9. keyframe *)
    let '(path9, dur9) :=
      if (i <? steps)%nat
      then (path s3 ++ [ {| kf_x := x7; kf_y := y7; kf_time := num time |} ],
            animDuration s3)
      else
        ((if Qltb (kf_y (lastKeyframe (path s3))) targetY
          then path s3 ++ [ {| kf_x := targetX; kf_y := targetY;
                               kf_time := totalDurationMs |} ]
          else path s3),
         totalDurationMs) in
    ({| path := path9;
        currentX := x7; currentY := y7;
        currentVx := num vx6; currentVy := num vy4;
        hitCount := hits; hitWall := wall;
        lastHitTime := lastHitTime s3;
        isValidPath := isValidPath s3;
        animDuration := dur9 |}, false).

(** One iteration [i] of the [for] loop. *)
Definition simStep (b : Board) (tb : Bucket) (startY totalDurationMs : Q)
    (i : nat) (s : Sim) : Rand (Sim * bool) :=
  let timeStep := totalDurationMs / inject_Z (Z.of_nat steps) in
  let time := inject_Z (Z.of_nat i) * timeStep in
  (* 3. peg deflections *)
  s3 <- forEachR (collidePeg (config b) time) (pegLocations b)
          (applyForces tb totalDurationMs i s) ;;
  ret (stepAfterCollide b tb startY totalDurationMs i s3).

(** The [for (let i = 1; i <= steps; i++)] loop: [n] iterations are left,
    the next one is [i]. *)
Fixpoint simLoop (b : Board) (tb : Bucket) (startY totalDurationMs : Q)
    (n i : nat) (s : Sim) : Rand Sim :=
  match n with
  | O => ret s
  | S n' =>
      r <- simStep b tb startY totalDurationMs i s ;;
      if snd r then ret (fst r)
      else simLoop b tb startY totalDurationMs n' (S i) (fst r)
  end.

(** The reset at the top of the [do] body: start point, initial velocity. *)
Definition initAttempt (b : Board) (tb : Bucket) (startX startY : Q)
    (targetBucketIndex : Z) (retries : nat) (valid0 : bool) (dur0 : Q) : Rand Sim :=
  let distanceToTarget := bucket_x tb - startX in
  let edgeFactor := edgeFactorOf targetBucketIndex in
  let baseVelocity :=
    Msign distanceToTarget * Qmin (Qabs distanceToTarget / 100) 1.5 * edgeFactor in
  let attemptVariation := inject_Z (Z.of_nat (retries mod 3)) * 0.5 in
  let randomFactor := ((1 - Qabs (edgeFactor - 0.5)) * 1.5) + attemptVariation in
  r0 <- random ;;
  vx0 <- (if Qltb r0 0.3
          then r1 <- random ;; r2 <- random ;;
               ret (baseVelocity * (1 + r1) + (r2 - 0.5) * 2.5)
          else r1 <- random ;; ret (baseVelocity + (r1 - 0.5) * randomFactor)) ;;
  vx <- (if (targetBucketIndex =? 1)%Z && Qgtb vx0 (-0.2)
         then r <- random ;; ret (vx0 - (0.5 + r * 0.5))
         else if (targetBucketIndex =? Z.of_nat bucketCount)%Z && Qltb vx0 0.2
              then r <- random ;; ret (vx0 + (0.5 + r * 0.5))
              else ret vx0) ;;
  r3 <- random ;;
  let verticalVariation := if Qltb r3 0.3 then 0.8 else 0.4 in
  let baseVertical := 0.8 + edgeFactor * 0.4 in
  r4 <- random ;;
  let vy0 := baseVertical + r4 * verticalVariation in
  r5 <- random ;;
  vy <- (if Qltb r5 0.15
         then r <- random ;; ret (baseVertical + 0.5 + r * 0.8)
         else ret vy0) ;;
  ret {| path := [ {| kf_x := startX; kf_y := startY; kf_time := 0 |} ];
         currentX := startX; currentY := startY;
         currentVx := num vx; currentVy := num vy;
         hitCount := 0; hitWall := false; lastHitTime := None;
         isValidPath := valid0; animDuration := dur0 |}.

(** The validation after the simulation; it starts from
    [isValidPath = true]. *)
Definition validate (b : Board) (tb : Bucket) (targetBucketIndex : Z) (s : Sim) : bool :=
  let v0 := true in
  let v1 := if isEdgeBucket targetBucketIndex && hitWall s
               && (hitCount s <? minHitsForEdge)%Z
            then false else v0 in
  if v1 && (3 <=? length (path s))%nat then
    let lastPoint := lastKeyframe (path s) in
    let secondLastPoint := lastKeyframe (removelast (path s)) in
    let finalVx := kf_x lastPoint - kf_x secondLastPoint in
    let neededDx := bucket_x tb - kf_x secondLastPoint in
    let bucketWidth := canvas_width (canvas b) / inject_Z (Z.of_nat bucketCount) in
    let offTargetThreshold := bucketWidth * 0.3 in
    if Qgtb (Qabs neededDx) offTargetThreshold
       && negb (Qeq_bool (Msign finalVx) 0)
       && negb (Qeq_bool (Msign finalVx) (Msign neededDx))
    then false else v1
  else v1.

Definition withValid (s : Sim) (v : bool) : Sim :=
  {| path := path s; currentX := currentX s; currentY := currentY s;
     currentVx := currentVx s; currentVy := currentVy s;
     hitCount := hitCount s; hitWall := hitWall s; lastHitTime := lastHitTime s;
     isValidPath := v; animDuration := animDuration s |}.

(** One pass through the [do] body, up to the validation. *)
Definition attempt (b : Board) (tb : Bucket) (startX startY : Q)
    (targetBucketIndex : Z) (totalDurationMs : Q)
    (retries : nat) (valid0 : bool) (dur0 : Q) : Rand Sim :=
  s0 <- initAttempt b tb startX startY targetBucketIndex retries valid0 dur0 ;;
  s1 <- simLoop b tb startY totalDurationMs steps 1 s0 ;;
  ret (withValid s1 (validate b tb targetBucketIndex s1)).

(** [do { ... } while (!isValidPath && retries < maxRetries)]; [fuel] is
    the number of passes that may follow this one, [maxRetries - 1] at the
    start, so that it runs out exactly when the condition fails. *)
Fixpoint retryLoop (b : Board) (tb : Bucket) (startX startY : Q)
    (targetBucketIndex : Z) (totalDurationMs : Q)
    (fuel retries : nat) (valid0 : bool) (dur0 : Q) : Rand (Sim * nat) :=
  s <- attempt b tb startX startY targetBucketIndex totalDurationMs retries valid0 dur0 ;;
  if isValidPath s then ret (s, retries)
  else
    (* retries++ and a fresh random velocity, overwritten by the next pass *)
    _ <- random ;;
    match fuel with
    | S fuel' =>
        if (S retries <? maxRetries)%nat
        then retryLoop b tb startX startY targetBucketIndex totalDurationMs
               fuel' (S retries) (isValidPath s) (animDuration s)
        else ret (s, S retries)
    | O => ret (s, S retries)
    end.

(** What a call of [generateAnimationPath] leaves: the returned path, or
    the [TypeError] of the assignment [maxRetries = 50] to a [const]; either
    way the global [animationDuration] as last assigned. *)
Inductive GenResult : Type :=
| Returned (p : list Keyframe) (duration : Q)
| TypeError (duration : Q).

Definition generateAnimationPath (b : Board) (startX startY : Q)
    (targetBucketIndex : Z) (dur0 : Q) : Rand GenResult :=
  match lookup1 (bucketLocations b) targetBucketIndex with
  | None =>
      ret (Returned [ {| kf_x := startX; kf_y := startY; kf_time := 0 |};
                      {| kf_x := startX; kf_y := canvas_height (canvas b) + 50;
                         kf_time := 1000 |} ] dur0)
  | Some targetBucket =>
      r <- random ;;
      let totalDurationMs := 2500 + r * 1000 in
      res <- retryLoop b targetBucket startX startY targetBucketIndex totalDurationMs
               (maxRetries - 1) 0 false dur0 ;;
      let s := fst res in
      if isValidPath s then ret (Returned (path s) (animDuration s))
      else
        (* console.warn; path = []; retries = 0; maxRetries = 50  -- throws *)
        ret (TypeError (animDuration s))
  end.

End Synthesis.

(** ** The game state *)

Inductive Phase : Type := ready | dropping | completed.

Inductive DropResult : Type := success | failure.

Record Stats : Type := {
  totalDrops : Z;
  successfulDrops : Z;
  lastResult : option DropResult;
  lastBucketLanded : option Z
}.

Record Ball : Type := {
  ball_x : Q; ball_y : Q; ball_radius : Q;
  ball_targetBucket : option Z
}.

(** The globals of [main.js] that the drop logic reads and writes.
    [selectedBucket] and [targetBucket] are [None] for [null]. *)
Record Game : Type := {
  selectedBucket : option Z;
  isGameActive : bool;
  gameState : Phase;
  lastTimestamp : Q;
  board : Board;
  ball : option Ball;
  ballTrail : list (Q * Q);
  targetBucket : option Z;
  gameStats : Stats;
  animationPath : option (list Keyframe);
  animationStartTime : Q;
  animationDuration : Q;
  landingHandled : bool
}.

Definition initialStats : Stats :=
  {| totalDrops := 0; successfulDrops := 0; lastResult := None;
     lastBucketLanded := None |}.

(** The state once [initGame] has laid the board out. *)
Definition initialGame (b : Board) : Game :=
  {| selectedBucket := None; isGameActive := false; gameState := ready;
     lastTimestamp := 0; board := b; ball := None; ballTrail := [];
     targetBucket := None; gameStats := initialStats; animationPath := None;
     animationStartTime := 0; animationDuration := 0; landingHandled := false |}.

(** [bucketLocations[t - 1]] when [t] may be [null]. *)
Definition bucketAt (l : list Bucket) (t : option Z) : option Bucket :=
  match t with
  | Some k => lookup1 l k
  | None => None
  end.

Definition sameBucket (a b : option Z) : bool :=
  match a, b with
  | Some x, Some y => (x =? y)%Z
  | None, None => true
  | _, _ => false
  end.

(** [handleBallLanding]. *)
Definition handleBallLanding (bucketNumber : option Z) (isTargetBucket : bool)
    (g : Game) : Game :=
  if landingHandled g then g
  else
    let st := gameStats g in
    let st' :=
      if isTargetBucket
      then {| totalDrops := totalDrops st;
              successfulDrops := successfulDrops st + 1;
              lastResult := Some success; lastBucketLanded := bucketNumber |}
      else {| totalDrops := totalDrops st;
              successfulDrops := successfulDrops st;
              lastResult := Some failure; lastBucketLanded := bucketNumber |} in
    {| selectedBucket := selectedBucket g; isGameActive := isGameActive g;
       gameState := completed; lastTimestamp := lastTimestamp g;
       board := board g; ball := ball g; ballTrail := ballTrail g;
       targetBucket := targetBucket g; gameStats := st';
       animationPath := animationPath g;
       animationStartTime := animationStartTime g;
       animationDuration := animationDuration g; landingHandled := true |}.

(** The first pass of the landing classifier: the first bucket whose span
    holds [x]; failing that, the first bucket looked at. *)
Fixpoint classify (x : Q) (l : list Bucket) (i : Z)
    (actualBucket : option Z) (minDistance : option Q) : option Z :=
  match l with
  | [] => actualBucket
  | bucket :: l' =>
      if Qgeb x (bucketLeft bucket) && Qleb x (bucketRight bucket)
      then Some (i + 1)%Z
      else
        let distance := Qabs (x - bucket_x bucket) in
        let closer := match minDistance with
                      | None => true
                      | Some m => Qltb distance m
                      end in
        if closer
        then classify x l' (i + 1)%Z
               (match actualBucket with None => Some (i + 1)%Z | Some a => Some a end)
               (Some distance)
        else classify x l' (i + 1)%Z actualBucket minDistance
  end.

Definition withBall (g : Game) (bl : option Ball) (trail : list (Q * Q)) : Game :=
  {| selectedBucket := selectedBucket g; isGameActive := isGameActive g;
     gameState := gameState g; lastTimestamp := lastTimestamp g;
     board := board g; ball := bl; ballTrail := trail;
     targetBucket := targetBucket g; gameStats := gameStats g;
     animationPath := animationPath g;
     animationStartTime := animationStartTime g;
     animationDuration := animationDuration g;
     landingHandled := landingHandled g |}.

Definition moveBall (bl : Ball) (x y : Q) : Ball :=
  {| ball_x := x; ball_y := y; ball_radius := ball_radius bl;
     ball_targetBucket := ball_targetBucket bl |}.

Definition finishDrop (g : Game) : Game :=
  {| selectedBucket := selectedBucket g; isGameActive := false;
     gameState := completed; lastTimestamp := lastTimestamp g;
     board := board g; ball := ball g; ballTrail := ballTrail g;
     targetBucket := targetBucket g; gameStats := gameStats g;
     animationPath := animationPath g;
     animationStartTime := animationStartTime g;
     animationDuration := animationDuration g;
     landingHandled := landingHandled g |}.

(** [updateBallTrail], with the ball in place. *)
Definition updateBallTrail (bl : Ball) (trail : list (Q * Q)) : list (Q * Q) :=
  let trail' := (ball_x bl, ball_y bl) :: trail in
  if (ballTrailLength <? length trail')%nat then removelast trail' else trail'.

(** The segment search of the playback driver over [animationPath], from
    index [i]: the pair it ends with, starting from the default pair. *)
Fixpoint findSegment (elapsedTime : Q) (l : list Keyframe)
    (seg : option Keyframe * option Keyframe) : option Keyframe * option Keyframe :=
  match l with
  | a :: ((b :: rest) as l') =>
      if Qgeb elapsedTime (kf_time a) && Qltb elapsedTime (kf_time b)
      then (Some a, Some b)
      else
        match rest with
        | [] => if Qgeb elapsedTime (kf_time b) then (Some b, Some b) else seg
        | _ => findSegment elapsedTime l' seg
        end
  | _ => seg
  end.

(** [updateBallAnimation]. *)
Definition updateBallAnimation (currentTime : Q) (g : Game) : outcome Game :=
  match ball g, animationPath g with
  | Some bl, Some p =>
      if negb (isGameActive g) then Done g
      else
        let elapsedTime := currentTime - animationStartTime g in
        if Qgeb elapsedTime (animationDuration g) then
          match p with
          | [] => Thrown g                     (* finalPoint is undefined *)
          | _ :: _ =>
              let finalPoint := lastKeyframe p in
              let g1 := withBall g (Some (moveBall bl (kf_x finalPoint) (kf_y finalPoint)))
                          (ballTrail g) in
              if landingHandled g1 then Done (finishDrop g1)
              else
                let actual0 :=
                  classify (kf_x finalPoint) (bucketLocations (board g1)) 0 None None in
                if negb (sameBucket actual0 (targetBucket g1)) then
                  match bucketAt (bucketLocations (board g1)) (targetBucket g1) with
                  | None => Thrown g1          (* targetBucketObj is undefined *)
                  | Some targetBucketObj =>
                      let distanceToTarget :=
                        Qabs (kf_x finalPoint - bucket_x targetBucketObj) in
                      let bucketWidth := bucket_width targetBucketObj in
                      let actualBucket :=
                        if Qltb distanceToTarget (bucketWidth * 0.4)
                        then targetBucket g1 else actual0 in
                      let landedInTarget := sameBucket actualBucket (targetBucket g1) in
                      Done (finishDrop (handleBallLanding actualBucket landedInTarget g1))
                  end
                else
                  Done (finishDrop (handleBallLanding actual0 true g1))
          end
        else
          let default := (nth_error p 0, nth_error p 1) in
          match findSegment elapsedTime p default with
          | (Some segmentStart, Some segmentEnd) =>
              let segmentDuration := kf_time segmentEnd - kf_time segmentStart in
              let timeIntoSegment := elapsedTime - kf_time segmentStart in
              let t0 := if Qgtb segmentDuration 0 then timeIntoSegment / segmentDuration
                        else if Qgeb elapsedTime (kf_time segmentStart) then 1 else 0 in
              let t := Qmax 0 (Qmin 1 t0) in
              let newX := kf_x segmentStart + (kf_x segmentEnd - kf_x segmentStart) * t in
              let newY := kf_y segmentStart + (kf_y segmentEnd - kf_y segmentStart) * t in
              let bl' := moveBall bl newX newY in
              Done (withBall g (Some bl') (updateBallTrail bl' (ballTrail g)))
          | _ => Thrown g                      (* a segment end is undefined *)
          end
  | _, _ => Done g
  end.

(** [gameLoop]. *)
Definition gameLoop (timestamp : Q) (g : Game) : outcome Game :=
  let g1 :=
    {| selectedBucket := selectedBucket g; isGameActive := isGameActive g;
       gameState := gameState g; lastTimestamp := timestamp;
       board := board g; ball := ball g; ballTrail := ballTrail g;
       targetBucket := targetBucket g; gameStats := gameStats g;
       animationPath := animationPath g;
       animationStartTime := animationStartTime g;
       animationDuration := animationDuration g;
       landingHandled := landingHandled g |} in
  if isGameActive g1 then updateBallAnimation timestamp g1 else Done g1.

(** The callback of the clean-up timer armed at landing. *)
Definition cleanupTimer (g : Game) : Game :=
  match ball g, gameState g with
  | Some _, completed => withBall g None []
  | _, _ => g
  end.

(** [resetBall] and [handleReset]. *)
Definition resetBall (g : Game) : Game :=
  {| selectedBucket := selectedBucket g; isGameActive := false;
     gameState := ready; lastTimestamp := lastTimestamp g;
     board := board g; ball := None; ballTrail := [];
     targetBucket := None; gameStats := gameStats g;
     animationPath := None; animationStartTime := 0; animationDuration := 0;
     landingHandled := false |}.

Definition handleReset (g : Game) : Game :=
  if isGameActive g || (match ball g with Some _ => true | None => false end)
  then resetBall g else g.

(** [handleBucketSelection], with the number parsed from the button. *)
Definition handleBucketSelection (bucket : Z) (g : Game) : Game :=
  if isGameActive g then g
  else
    {| selectedBucket := Some bucket; isGameActive := isGameActive g;
       gameState := gameState g; lastTimestamp := lastTimestamp g;
       board := board g; ball := ball g; ballTrail := ballTrail g;
       targetBucket := targetBucket g; gameStats := gameStats g;
       animationPath := animationPath g;
       animationStartTime := animationStartTime g;
       animationDuration := animationDuration g;
       landingHandled := landingHandled g |}.

(** The globals once [resizeCanvas] has laid the board out again. *)
Definition resized (attr : Q -> Q) (containerWidth : Q) (g : Game) : Game :=
  {| selectedBucket := selectedBucket g; isGameActive := isGameActive g;
     gameState := gameState g; lastTimestamp := lastTimestamp g;
     board := resizedBoard attr containerWidth (config (board g));
     ball := ball g; ballTrail := ballTrail g;
     targetBucket := targetBucket g; gameStats := gameStats g;
     animationPath := animationPath g;
     animationStartTime := animationStartTime g;
     animationDuration := animationDuration g;
     landingHandled := landingHandled g |}.

(** The redraw while no drop is in flight.  Of the canvas calls that
    [drawGame] then makes, only [ctx.arc] can throw: an [IndexSizeError]
    for a negative radius.  [drawPegs] draws every peg with its radius (no
    peg glows while the game is idle); [drawBall] draws the ball, if there
    is one, and its trail, highlight and sparks with its radius times a
    factor that is not negative; the circles of the buckets and of the
    particles have positive radii.  Drawing writes none of the fields of
    [Game]. *)
Definition drawPegs (g : Game) : outcome Game :=
  if existsb (fun peg => Qltb (peg_radius peg) 0) (pegLocations (board g))
  then Thrown g else Done g.

Definition drawBall (g : Game) : outcome Game :=
  match ball g with
  | Some bl => if Qltb (ball_radius bl) 0 then Thrown g else Done g
  | None => Done g
  end.

Definition drawGame (g : Game) : outcome Game :=
  match drawPegs g with
  | Done g1 => drawBall g1
  | Thrown g1 => Thrown g1
  end.

(** [resizeCanvas], the [resize] listener, which [initGame] also calls. *)
Definition resizeCanvas (attr : Q -> Q) (containerWidth : Q) (g : Game) : outcome Game :=
  let g1 := resized attr containerWidth g in
  if negb (isGameActive g1) then drawGame g1 else Done g1.

(** The bucket whose span holds [finalX], as [handleDropBall] looks it up. *)
Fixpoint landedBucketOf (finalX : Q) (l : list Bucket) (i : Z) : option Z :=
  match l with
  | [] => None
  | bucket :: l' =>
      if Qgeb finalX (bucketLeft bucket) && Qleb finalX (bucketRight bucket)
      then Some (i + 1)%Z
      else landedBucketOf finalX l' (i + 1)%Z
  end.

Inductive SearchResult : Type :=
| Found (verifiedStartX : Q) (verifiedPath : list Keyframe) (duration : Q)
| NotFound (duration : Q)
| SearchThrew (duration : Q).

Section Drop.

Variable M : MathLib.
Variable rnd : nat -> Q.

(** The [while (!validPathFound && attempts < maxAttempts)] loop of
    [handleDropBall], [n] passes left. *)
Fixpoint searchPath (b : Board) (selected : Z) (n : nat) (dur : Q) : Rand SearchResult :=
  match n with
  | O => ret (NotFound dur)
  | S n' =>
      testStartX <- calculateInitialBallPosition rnd b ;;
      let testStartY := canvas_height (canvas b) * 0.05 in
      r <- generateAnimationPath M rnd b testStartX testStartY selected dur ;;
      match r with
      | TypeError d => ret (SearchThrew d)
      | Returned testPath d =>
          if (1 <? length testPath)%nat
             && sameBucket (landedBucketOf (kf_x (lastKeyframe testPath))
                              (bucketLocations b) 0)
                           (Some selected)
          then ret (Found testStartX testPath d)
          else searchPath b selected n' d
      end
  end.

(** The arc built when no verified path was found: 51 points of a
    quadratic curve, one draw per point for the end of the curve. *)
Fixpoint directPath (b : Board) (targetBucket : Bucket) (verifiedStartX : Q)
    (n i : nat) : Rand (list Keyframe) :=
  match n with
  | O => ret []
  | S n' =>
      let pathDuration := 2500 in
      let t := inject_Z (Z.of_nat i) / 50 in
      let timePoint := t * pathDuration in
      r <- random rnd ;;
      let startPoint_x := verifiedStartX in
      let startPoint_y := canvas_height (canvas b) * 0.05 in
      let endPoint_x := bucket_x targetBucket + (r - 0.5) * 10 in
      let endPoint_y := bucket_y targetBucket in
      let controlPoint_x := (startPoint_x + endPoint_x) / 2 in
      let controlPoint_y := Qmin startPoint_y endPoint_y - canvas_height (canvas b) * 0.2 in
      let xt := (1 - t) * (1 - t) * startPoint_x + 2 * (1 - t) * t * controlPoint_x
                + t * t * endPoint_x in
      let yt := (1 - t) * (1 - t) * startPoint_y + 2 * (1 - t) * t * controlPoint_y
                + t * t * endPoint_y in
      rest <- directPath b targetBucket verifiedStartX n' (S i) ;;
      ret ({| kf_x := num xt; kf_y := num yt; kf_time := num timePoint |} :: rest)
  end.

Definition maxAttempts : nat := 100.

Definition withDuration (g : Game) (active : bool) (d : Q) : Game :=
  {| selectedBucket := selectedBucket g; isGameActive := active;
     gameState := gameState g; lastTimestamp := 0;
     board := board g; ball := ball g; ballTrail := ballTrail g;
     targetBucket := targetBucket g; gameStats := gameStats g;
     animationPath := animationPath g;
     animationStartTime := animationStartTime g;
     animationDuration := d;
     landingHandled := landingHandled g |}.

Definition startDrop (g : Game) (selected : Z) (now verifiedStartX : Q)
    (verifiedPath : list Keyframe) : Game :=
  let st := gameStats g in
  {| selectedBucket := selectedBucket g; isGameActive := true;
     gameState := dropping; lastTimestamp := 0;
     board := board g;
     ball := Some {| ball_x := verifiedStartX;
                     ball_y := canvas_height (canvas (board g)) * 0.05;
                     ball_radius := ballRadius (config (board g));
                     ball_targetBucket := Some selected |};
     ballTrail := ballTrail g;
     targetBucket := Some selected;
     gameStats := {| totalDrops := totalDrops st + 1;
                     successfulDrops := successfulDrops st;
                     lastResult := lastResult st; lastBucketLanded := None |};
     animationPath := Some verifiedPath;
     animationStartTime := now;
     animationDuration := kf_time (lastKeyframe verifiedPath);
     landingHandled := false |}.

(** [handleDropBall]; [now] is [performance.now()]. *)
Definition handleDropBall (now : Q) (g : Game) : outcome Game :=
  match selectedBucket g with
  | None => Done g
  | Some selected =>
      if isGameActive g then Done g
      else
        let b := board g in
        let '(r, n) := searchPath b selected maxAttempts (animationDuration g) 0%nat in
        match r with
        | SearchThrew d => Thrown (withDuration g true d)
        | Found verifiedStartX verifiedPath d =>
            Done (startDrop (withDuration g true d) selected now verifiedStartX verifiedPath)
        | NotFound d =>
            match lookup1 (bucketLocations b) selected with
            | None => Thrown (withDuration g true d)    (* targetBucket is undefined *)
            | Some targetBucket =>
                let '(r0, n0) := random rnd n in
                let verifiedStartX := bucket_x targetBucket + (r0 - 0.5) * 20 in
                let verifiedPath :=
                  fst (directPath b targetBucket verifiedStartX 51 0 n0) in
                Done (startDrop (withDuration g true d) selected now
                        verifiedStartX verifiedPath)
            end
        end
  end.

(** [createBall]. *)
Definition createBall (now : Q) (g : Game) : outcome Game :=
  let st := gameStats g in
  let b := board g in
  let st' := {| totalDrops := totalDrops st + 1;
                successfulDrops := successfulDrops st;
                lastResult := lastResult st; lastBucketLanded := None |} in
  let '(initialX, n) := calculateInitialBallPosition rnd b 0%nat in
  let target1 :=
    match bucketAt (bucketLocations b) (selectedBucket g) with
    | Some _ => selectedBucket g
    | None => Some (Qceiling (inject_Z (Z.of_nat bucketCount) / 2))
    end in
  let g1 (bl : option Ball) (p : option (list Keyframe)) (start d : Q) : Game :=
    {| selectedBucket := selectedBucket g; isGameActive := isGameActive g;
       gameState := dropping; lastTimestamp := lastTimestamp g;
       board := b; ball := bl; ballTrail := [];
       targetBucket := target1; gameStats := st';
       animationPath := p; animationStartTime := start;
       animationDuration := d; landingHandled := false |} in
  match bucketAt (bucketLocations b) target1, target1 with
  | Some target, Some t =>
      let '(_, n1) := random rnd n in
      let bl := {| ball_x := initialX;
                   ball_y := canvas_height (canvas b) * 0.05;
                   ball_radius := ballRadius (config b);
                   ball_targetBucket := target1 |} in
      let startY := canvas_height (canvas b) * 0.05 in
      match fst (generateAnimationPath M rnd b initialX startY t (animationDuration g) n1) with
      | Returned p d => Done (g1 (Some bl) (Some p) now d)
      | TypeError d =>
          Thrown (g1 (Some bl) (animationPath g) (animationStartTime g) d)
      end
  | _, _ =>
      (* target is undefined: reading target.x throws *)
      Thrown (g1 (ball g) (animationPath g) (animationStartTime g) (animationDuration g))
  end.

End Drop.

(** ** The events of a session *)

(** One event handled by the page: a click on a bucket button, on Drop or
    on Reset, an animation frame, the clean-up timer, a resize; and a call
    of [createBall], which no listener makes.  A handler that throws leaves
    the state it had reached. *)
Inductive Step : Game -> Game -> Prop :=
| StepSelect : forall g bucket, Step g (handleBucketSelection bucket g)
| StepDrop : forall g M rnd now, Step g (stateOf (handleDropBall M rnd now g))
| StepCreate : forall g M rnd now, Step g (stateOf (createBall M rnd now g))
| StepFrame : forall g timestamp, Step g (stateOf (gameLoop timestamp g))
| StepCleanup : forall g, Step g (cleanupTimer g)
| StepReset : forall g, Step g (handleReset g)
| StepResize : forall g attr containerWidth,
    Step g (stateOf (resizeCanvas attr containerWidth g)).

Inductive Reachable (g0 : Game) : Game -> Prop :=
| ReachInit : Reachable g0 g0
| ReachStep : forall g g', Reachable g0 g -> Step g g' -> Reachable g0 g'.

(** ** Strictly increasing keyframe times *)

Definition earlier (a b : Keyframe) : Prop := kf_time a < kf_time b.

Definition increasingTimes (p : list Keyframe) : Prop := StronglySorted earlier p.

Definition increasingTimesb (p : list Keyframe) : bool :=
  (fix go (l : list Keyframe) : bool :=
     match l with
     | a :: ((b :: _) as l') => Qltb (kf_time a) (kf_time b) && go l'
     | _ => true
     end) p.

(** What holds of the path when iteration [i] of the simulation starts:
    it begins with the start point, its times increase strictly, the last
    one is [(i - 1) * timeStep], and it has [i] keyframes. *)
Definition pathInv (startX startY total : Q) (i : nat) (s : Sim) : Prop :=
  (exists rest, path s = {| kf_x := startX; kf_y := startY; kf_time := 0 |} :: rest)
  /\ increasingTimes (path s)
  /\ kf_time (lastKeyframe (path s))
     == inject_Z (Z.of_nat (i - 1)) * (total / inject_Z (Z.of_nat steps))
  /\ length (path s) = i.

(** What holds of the path and the duration when the simulation ends: up
    to the keyframe before the last the times increase strictly. *)
Definition pathPost (startX startY : Q) (tb : Bucket) (s : Sim) : Prop :=
  (exists rest, path s = {| kf_x := startX; kf_y := startY; kf_time := 0 |} :: rest)
  /\ increasingTimes (removelast (path s))
  /\ (length (path s) <> steps -> animDuration s = kf_time (lastKeyframe (path s))).

(** ** Wall contact and peg overlap along a path *)





(** ** Peg-free regions

    A run whose ball stays inside rectangles that keep every peg at least
    [minDist] away on one axis never touches a peg, so it is the run of
    the same board without pegs.  The functions below compute that run and
    give [None] as soon as the ball leaves the rectangles. *)

Record Rect : Type := { x_lo : Q; x_hi : Q; y_lo : Q; y_hi : Q }.

Definition inRect (r : Rect) (x y : Q) : bool :=
  Qleb (x_lo r) x && Qleb x (x_hi r) && Qleb (y_lo r) y && Qleb y (y_hi r).

Definition inZone (z : list Rect) (x y : Q) : bool :=
  existsb (fun r => inRect r x y) z.

Definition pegOutside (cfg : Config) (r : Rect) (p : Peg) : bool :=
  Qleb 0 (minDist cfg p)
  && (Qleb (x_hi r + minDist cfg p) (peg_x p)
      || Qleb (peg_x p + minDist cfg p) (x_lo r)
      || Qleb (y_hi r + minDist cfg p) (peg_y p)
      || Qleb (peg_y p + minDist cfg p) (y_lo r)).

Definition zoneClear (cfg : Config) (pegs : list Peg) (z : list Rect) : bool :=
  forallb (fun r => forallb (pegOutside cfg r) pegs) z.

Definition withoutPegs (b : Board) : Board :=
  {| canvas := canvas b; config := config b; pegLocations := [];
     bucketLocations := bucketLocations b |}.

Section Checked.

Variable M : MathLib.
Variable rnd : nat -> Q.
Variable z : list Rect.

Fixpoint simLoopZ (b : Board) (tb : Bucket) (startY totalDurationMs : Q)
    (n i : nat) (s : Sim) (k : nat) : option (Sim * nat) :=
  if inZone z (currentX s) (currentY s) then
    match n with
    | O => Some (s, k)
    | S n' =>
        let r := simStep M rnd (withoutPegs b) tb startY totalDurationMs i s k in
        if snd (fst r) then Some (fst (fst r), snd r)
        else simLoopZ b tb startY totalDurationMs n' (S i) (fst (fst r)) (snd r)
    end
  else None.

Definition attemptZ (b : Board) (tb : Bucket) (startX startY : Q)
    (targetBucketIndex : Z) (totalDurationMs : Q)
    (retries : nat) (valid0 : bool) (dur0 : Q) (k : nat) : option (Sim * nat) :=
  let r0 := initAttempt rnd b tb startX startY targetBucketIndex retries valid0 dur0 k in
  match simLoopZ b tb startY totalDurationMs steps 1 (fst r0) (snd r0) with
  | Some (s1, k1) => Some (withValid s1 (validate b tb targetBucketIndex s1), k1)
  | None => None
  end.

End Checked.

(** The ball at [(x, y)] does not overlap peg [p]. *)
Definition far (M : MathLib) (cfg : Config) (x y : Q) (p : Peg) : Prop :=
  Qltb (dist M (x - peg_x p) (y - peg_y p)) (minDist cfg p) = false.

(** The pegs overlapping the ball, summed over the keyframes of a path:
    the per-step [hitCount] of the synthesizer, accumulated. *)
Definition cumulativeHits (M : MathLib) (b : Board) (p : list Keyframe) : Z :=
  fold_left (fun n kf => (n + countHits M (config b) (pegLocations b) (kf_x kf) (kf_y kf))%Z)
            p 0%Z.

(** A computation whose result does not change, and whose draw index is
    carried along, when it starts [P] draws later: the case for every
    computation of the synthesizer when the draws repeat with period [P]. *)
Definition Periodic (P : nat) {A : Type} (c : Rand A) : Prop :=
  forall k, c (k + P)%nat = (fst (c k), (snd (c k) + P)%nat).

(** ** Concrete boards, draws and runs *)

(** An over-approximation of the square root by an integer; it satisfies
    [sqrt_lower]. *)
Definition sqrtUp (q : Q) : Q := inject_Z (Z.sqrt_up (Qceiling q)).

Definition mathUp : MathLib :=
  {| Msqrt := sqrtUp; Mcos := fun _ => 0; Msin := fun _ => 0;
     Matan2 := fun _ _ => 0 |}.

Definition identityAttr (v : Q) : Q := v.

(** The 800 x 1040 canvas of a container 820 wide, and the 100 x 130 canvas
    of a container 120 wide. *)
Definition board800 : Board := resizedBoard identityAttr 820 initialConfig.
Definition board100 : Board := resizedBoard identityAttr 120 initialConfig.

(** The 0 x 0 canvas of a container 20 wide: every peg and every bucket is
    at the origin. *)
Definition board0 : Board := resizedBoard identityAttr 20 initialConfig.

Definition noBucket : Bucket :=
  {| bucket_x := 0; bucket_y := 0; bucket_width := 0; bucket_height := 0;
     bucket_number := 0 |}.

Definition bucketOf (b : Board) (t : nat) : Bucket :=
  nth (t - 1) (bucketLocations b) noBucket.

(** Where no peg of [board800] reaches: the left margin above the last two
    rows, the strip along the left wall, and everything below the pegs. *)
Definition zone800 : list Rect :=
  [ {| x_lo := 0; x_hi := 64; y_lo := 0; y_hi := 509 |};
    {| x_lo := 0; x_hi := 30.6; y_lo := 0; y_hi := 2000 |};
    {| x_lo := 0; x_hi := 800; y_lo := 581.1; y_hi := 2000 |} ].

(** The strip along the left wall of [board100]. *)
Definition zone100 : list Rect :=
  [ {| x_lo := 0; x_hi := 3.3; y_lo := 0; y_hi := 500 |} ].

(** Draws that repeat with period 8: a long fall time, a trick shot with
    the least factors, a high and fast drop. *)
Definition draws8 : nat -> Q :=
  fun n => nth (n mod 8) [0.98; 0; 0; 0; 0; 0; 0; 0.9] 0.

(** Draws for a ball of target 1 that falls straight down. *)
Definition drawsStraight : nat -> Q :=
  fun n => nth n [0.98; 0.1; 0; 0.672; 0; 0; 0.9; 0.5] 0.5.

(** ** The bucket layout in double precision

    The claim about bucket edges that meet exactly is about the numbers the
    program computes: the statements of [initBuckets] are embedded a second
    time over IEEE 754 binary64 numbers, the numbers of JavaScript. *)

Record BucketF : Type := {
  bucketF_x : float; bucketF_y : float; bucketF_width : float; bucketF_height : float;
  bucketF_number : Z
}.

(** The decimal constants below are read as the nearest binary64 number,
    as JavaScript reads them. *)
Set Warnings "-inexact-float".

Definition initBucketsF (canvasWidth canvasHeight : float) : list BucketF :=
  let bucketY := (canvasHeight * 0.84)%float in
  let bucketHeight := (canvasHeight * 0.18)%float in
  let bucketWidth := (canvasWidth / 5)%float in
  map (fun i : float * Z =>
         let bucketCenterX := ((fst i + 0.5) * bucketWidth)%float in
         {| bucketF_x := bucketCenterX; bucketF_y := bucketY;
            bucketF_width := bucketWidth; bucketF_height := bucketHeight;
            bucketF_number := snd i + 1 |})
      [(0%float, 0%Z); (1%float, 1%Z); (2%float, 2%Z); (3%float, 3%Z); (4%float, 4%Z)].

Set Warnings "inexact-float".

Definition bucketLeftF (b : BucketF) : float := (bucketF_x b - bucketF_width b / 2)%float.
Definition bucketRightF (b : BucketF) : float := (bucketF_x b + bucketF_width b / 2)%float.

(** ** The claims that fail, as the specification states them *)

(** C4, at one call: the keyframe times increase strictly and
    [animationDuration] is the time of the last keyframe. *)
Definition monotoneDuration (M : MathLib) (rnd : nat -> Q) (b : Board)
    (startX startY : Q) (t : Z) : Prop :=
  forall (p : list Keyframe) (d : Q) (k : nat),
    generateAnimationPath M rnd b startX startY t 0 0%nat = (Returned p d, k) ->
                increasingTimes p /\ d = kf_time (lastKeyframe p).

(** C6, for one canvas: the five spans start at 0, each ends exactly where
    the next starts, and the last ends exactly at the canvas width. *)
Definition partitionsCanvas (canvasWidth canvasHeight : float) : Prop :=
  let l := initBucketsF canvasWidth canvasHeight in
  length l = 5%nat
  /\ (forall b, nth_error l 0 = Some b -> PrimFloat.eqb (bucketLeftF b) 0 = true)
  /\ (forall i b b', nth_error l i = Some b -> nth_error l (S i) = Some b' ->
        PrimFloat.eqb (bucketRightF b) (bucketLeftF b') = true)
  /\ (forall b, nth_error l 4 = Some b ->
        PrimFloat.eqb (bucketRightF b) canvasWidth = true).

(** C7: whatever the container width, [resizeCanvas] returns without an
    error and leaves a positive peg spacing, peg radius and ball radius. *)
Definition clampsToPositive (attr : Q -> Q) (containerWidth : Q) (g : Game) : Prop :=
  exists g', resizeCanvas attr containerWidth g = Done g'
             /\ 0 < pegSpacing (config (board g'))
             /\ 0 < pegRadius (config (board g'))
             /\ 0 < ballRadius (config (board g')).



(** C5, for one state: neither handler changes anything. *)
Definition rejectsDrop (M : MathLib) (rnd : nat -> Q) (now : Q) (g : Game) : Prop :=
  stateOf (handleDropBall M rnd now g) = g /\ stateOf (createBall M rnd now g) = g.

(** A ball in flight on [board800] along a given path. *)
Definition inFlight (p : list Keyframe) (duration : Q) (target : Z) : Game :=
  {| selectedBucket := Some target; isGameActive := true; gameState := dropping;
     lastTimestamp := 0; board := board800;
     ball := Some {| ball_x := 400; ball_y := 52; ball_radius := 13;
                     ball_targetBucket := Some target |};
     ballTrail := []; targetBucket := Some target;
     gameStats := {| totalDrops := 1; successfulDrops := 0; lastResult := None;
                     lastBucketLanded := None |};
     animationPath := Some p; animationStartTime := 0;
     animationDuration := duration; landingHandled := false |}.


(** The state after [initGame] on [board800], with bucket 6 selected. *)
Definition selected6 : Game := handleBucketSelection 6 (initialGame board800).

(** What the events keep true of the statistics: the bounds, and room for
    one more success while a ball's landing is still to be handled. *)
Definition statsInv (g : Game) : Prop :=
  (0 <= successfulDrops (gameStats g) <= totalDrops (gameStats g))%Z
  /\ (landingHandled g = false ->
      ball g = None \/ (successfulDrops (gameStats g) < totalDrops (gameStats g))%Z).

(** ** Further definitions: shapes of paths, frames, panels, particles *)

(** [Math.random()] returns a number in [0, 1). *)
Definition unitDraws (rnd : nat -> Q) : Prop := forall n, 0 <= rnd n /\ rnd n < 1.

Definition notLater (a b : Keyframe) : Prop := kf_time a <= kf_time b.

Definition nondecreasingTimes (p : list Keyframe) : Prop := StronglySorted notLater p.

(** What holds of the state when the simulation of one attempt ends: the
    path begins with the start point, has between 2 and 151 keyframes whose
    times never decrease and lie within the fall time, and ends at or below
    the bucket top. *)
Definition pathShape (startX startY total : Q) (tb : Bucket) (s : Sim) : Prop :=
  (exists rest, path s = {| kf_x := startX; kf_y := startY; kf_time := 0 |} :: rest)
  /\ (2 <= length (path s) <= S steps)%nat
  /\ nondecreasingTimes (path s)
  /\ Forall (fun kf => 0 <= kf_time kf <= total) (path s)
  /\ bucket_y tb <= kf_y (lastKeyframe (path s))
  /\ (length (path s) <> steps -> kf_y (lastKeyframe (path s)) = bucket_y tb)
  /\ 0 <= animDuration s <= total.

(** Point [i] of the arc of [handleDropBall], for the draw [r] made at that
    point: the body of the loop of [directPath]. *)
Definition directPoint (b : Board) (targetBucket : Bucket) (verifiedStartX : Q)
    (i : nat) (r : Q) : Keyframe :=
  let pathDuration := 2500 in
  let t := inject_Z (Z.of_nat i) / 50 in
  let timePoint := t * pathDuration in
  let startPoint_x := verifiedStartX in
  let startPoint_y := canvas_height (canvas b) * 0.05 in
  let endPoint_x := bucket_x targetBucket + (r - 0.5) * 10 in
  let endPoint_y := bucket_y targetBucket in
  let controlPoint_x := (startPoint_x + endPoint_x) / 2 in
  let controlPoint_y := Qmin startPoint_y endPoint_y - canvas_height (canvas b) * 0.2 in
  let xt := (1 - t) * (1 - t) * startPoint_x + 2 * (1 - t) * t * controlPoint_x
            + t * t * endPoint_x in
  let yt := (1 - t) * (1 - t) * startPoint_y + 2 * (1 - t) * t * controlPoint_y
            + t * t * endPoint_y in
  {| kf_x := num xt; kf_y := num yt; kf_time := num timePoint |}.

(** The first statements of [gameLoop]: the timestamp is recorded. *)
Definition stamped (timestamp : Q) (g : Game) : Game :=
  {| selectedBucket := selectedBucket g; isGameActive := isGameActive g;
     gameState := gameState g; lastTimestamp := timestamp;
     board := board g; ball := ball g; ballTrail := ballTrail g;
     targetBucket := targetBucket g; gameStats := gameStats g;
     animationPath := animationPath g;
     animationStartTime := animationStartTime g;
     animationDuration := animationDuration g;
     landingHandled := landingHandled g |}.

(** Successive callbacks of [requestAnimationFrame(gameLoop)], one per
    timestamp: a frame that throws does not request the next one. *)
Fixpoint frames (ts : list Q) (g : Game) : outcome Game :=
  match ts with
  | [] => Done g
  | timestamp :: ts' =>
      match gameLoop timestamp g with
      | Done g' => frames ts' g'
      | Thrown g' => Thrown g'
      end
  end.

(** What the frames before the end keep of the drop in flight in [g0]. *)
Definition inFlightOf (g0 g : Game) : Prop :=
  isGameActive g = true /\ landingHandled g = false /\ (exists bl, ball g = Some bl)
  /\ animationPath g = animationPath g0 /\ targetBucket g = targetBucket g0
  /\ board g = board g0 /\ gameStats g = gameStats g0
  /\ animationStartTime g = animationStartTime g0
  /\ animationDuration g = animationDuration g0.

(** The statistics once a drop toward [t] has been recorded as a success. *)
Definition countedSuccess (st : Stats) (t : Z) : Stats :=
  {| totalDrops := totalDrops st; successfulDrops := successfulDrops st + 1;
     lastResult := Some success; lastBucketLanded := Some t |}.

Definition countersFrom (g g' : Game) : Prop :=
  (totalDrops (gameStats g) <= totalDrops (gameStats g'))%Z
  /\ (successfulDrops (gameStats g) <= successfulDrops (gameStats g'))%Z.

(** The number that [updateGameStatistics] and [updateDebugInfo] hand to
    [toFixed(1)] for the success-rate panel. *)
Definition successRate (st : Stats) : Q :=
  if (0 <? totalDrops st)%Z
  then inject_Z (successfulDrops st) / inject_Z (totalDrops st) * 100
  else 0.

(** What [updateControls] writes to the [disabled] property of the Drop and
    of the Reset button. *)
Definition dropDisabled (g : Game) : bool :=
  isGameActive g || match selectedBucket g with None => true | Some _ => false end.

Definition resetDisabled (g : Game) : bool :=
  negb (isGameActive g) && match ball g with None => true | Some _ => false end.

(** A particle of the collision and landing effects, without its colour,
    which only the drawing reads. *)
Record Particle : Type := {
  p_x : Q; p_y : Q; p_vx : Q; p_vy : Q; p_radius : Q;
  p_alpha : Q; p_life : Z; p_gravity : Q
}.

Definition particleLifetime : Z := 30.

Section Particles.

Variable M : MathLib.
Variable rnd : nat -> Q.
Variable PI : Q.                     (* [Math.PI], a double *)

(** [createParticles] ([enableParticles] is the constant [true]): the loop
    pushes [count] particles, four draws each. *)
Fixpoint createParticles (x y : Q) (count : nat) (speedFactor : Q)
    (particles : list Particle) : Rand (list Particle) :=
  match count with
  | O => ret particles
  | S count' =>
      r0 <- random rnd ;;
      let angle := r0 * PI * 2 in
      r1 <- random rnd ;;
      let speed := (r1 * 2 + 1) * speedFactor in
      r2 <- random rnd ;;
      r3 <- random rnd ;;
      createParticles x y count' speedFactor
        (particles ++ [ {| p_x := x; p_y := y;
                           p_vx := Mcos M angle * speed; p_vy := Msin M angle * speed;
                           p_radius := r2 * 3 + 1;
                           p_alpha := 1; p_life := particleLifetime;
                           p_gravity := 0.05 * r3 |} ])
  end.

End Particles.

(** The callback of the [filter] of [updateParticles]: what it does to one
    particle; the particle stays when its [life] is still positive
    afterwards. *)
Definition agedParticle (p : Particle) : Particle :=
  {| p_x := p_x p + p_vx p; p_y := p_y p + p_vy p;
     p_vx := p_vx p; p_vy := p_vy p + p_gravity p;
     p_radius := p_radius p;
     p_alpha := inject_Z (p_life p) / inject_Z particleLifetime;
     p_life := p_life p - 1; p_gravity := p_gravity p |}.

Definition updateParticles (particles : list Particle) : list Particle :=
  filter (fun p => (0 <? p_life p)%Z) (map agedParticle particles).

(** Draws for a click on Drop with bucket 1 selected on [board100]: the
    start position comes out as 3, and the path is that of
    [drawsStraight]. *)
Definition drawsDrop : nat -> Q :=
  fun n => match n with
           | O => 0
           | S O => 0.5
           | S (S m) => drawsStraight m
           end.

(** The state after [initGame] on [board100], with bucket 1 selected. *)
Definition selected1 : Game := handleBucketSelection 1 (initialGame board100).

(** Two keyframes of a fall into bucket 3 of [board800]. *)
Definition twoPoints : list Keyframe :=
  [ {| kf_x := 400; kf_y := 52; kf_time := 0 |};
    {| kf_x := 460; kf_y := 873.6; kf_time := 2000 |} ].

(** * Properties *)

(** ** Comparisons and stored numbers *)

Lemma resizeCanvas_state (attr : Q -> Q) (containerWidth : Q) (g : Game) :
  stateOf (resizeCanvas attr containerWidth g) = resized attr containerWidth g.
Proof.
  unfold resizeCanvas, drawGame, drawPegs, drawBall.
  destruct (negb _); [|reflexivity].
  destruct (existsb _ _); [reflexivity|].
  destruct (ball _) as [bl|]; [|reflexivity].
  destruct (Qltb _ _); reflexivity.
Qed.

Lemma Qleb_le (a b : Q) : Qleb a b = true <-> a <= b.
Proof. unfold Qleb. apply Qle_bool_iff. Qed.

Lemma Qleb_gt (a b : Q) : Qleb a b = false <-> b < a.
Proof.
  unfold Qleb. split; intro H.
  - apply Qnot_le_lt. intro Hle. apply Qle_bool_iff in Hle. congruence.
  - destruct (Qle_bool a b) eqn:E; [|reflexivity].
    apply Qle_bool_iff in E. apply Qlt_not_le in H. contradiction.
Qed.

Lemma Qltb_lt (a b : Q) : Qltb a b = true <-> a < b.
Proof.
  unfold Qltb. rewrite negb_true_iff. apply (Qleb_gt b a).
Qed.

Lemma Qltb_ge (a b : Q) : Qltb a b = false <-> b <= a.
Proof.
  unfold Qltb. rewrite negb_false_iff. apply (Qleb_le b a).
Qed.

Lemma Qgeb_ge (a b : Q) : Qgeb a b = true <-> b <= a.
Proof. apply (Qleb_le b a). Qed.

Lemma Qgeb_lt (a b : Q) : Qgeb a b = false <-> a < b.
Proof. apply (Qleb_gt b a). Qed.

Lemma Qgtb_gt (a b : Q) : Qgtb a b = true <-> b < a.
Proof. apply (Qltb_lt b a). Qed.

Lemma Qgtb_le (a b : Q) : Qgtb a b = false <-> a <= b.
Proof. apply (Qltb_ge b a). Qed.

Lemma num_eq (q : Q) : num q == q.
Proof. apply Qred_correct. Qed.

(** ** Board layout *)

Lemma initBuckets_unfold (cv : Canvas) :
  initBuckets cv =
  map (fun i =>
         {| bucket_x := num ((inject_Z (Z.of_nat i) + 0.5) * (canvas_width cv / 5));
            bucket_y := num (canvas_height cv * 0.84);
            bucket_width := num (canvas_width cv / 5);
            bucket_height := num (canvas_height cv * bucketDepth);
            bucket_number := Z.of_nat i + 1 |})
      [0; 1; 2; 3; 4]%nat.
Proof. reflexivity. Qed.

Lemma bucket_span (cv : Canvas) (i : nat) (b : Bucket) :
  nth_error (initBuckets cv) i = Some b ->
  bucket_width b == canvas_width cv / 5
  /\ bucketLeft b == inject_Z (Z.of_nat i) * (canvas_width cv / 5)
  /\ bucketRight b == (inject_Z (Z.of_nat i) + 1) * (canvas_width cv / 5)
  /\ bucket_number b = (Z.of_nat i + 1)%Z.
Proof.
  rewrite initBuckets_unfold. intro H.
  assert (Hb : b = {| bucket_x := num ((inject_Z (Z.of_nat i) + 0.5) * (canvas_width cv / 5));
                      bucket_y := num (canvas_height cv * 0.84);
                      bucket_width := num (canvas_width cv / 5);
                      bucket_height := num (canvas_height cv * bucketDepth);
                      bucket_number := Z.of_nat i + 1 |}).
  { do 5 (destruct i as [|i]; [cbn [map nth_error] in H; injection H as <-; reflexivity|]).
    cbn [map nth_error] in H. destruct i; discriminate. }
  subst b. unfold bucketLeft, bucketRight. cbn [bucket_x bucket_width bucket_number].
  rewrite !num_eq. repeat split; try reflexivity; field.
Qed.

(** C6, counterexample.  On the 394 x 512 canvas (a container 414 wide),
    in double precision, the first span ends at 78.8 and the second starts
    at 78.79999999999998: they overlap. *)
Lemma C6_partition_counterexample : ~ partitionsCanvas 394 512.
Proof.
  intros (_ & _ & H & _).
  specialize (H 0%nat _ _ eq_refl eq_refl). vm_compute in H. discriminate.
Qed.

(** On that canvas the last span also ends below the canvas width, at
    393.99999999999994. *)
Lemma spans_394 :
  exists b1 b2 b5,
    nth_error (initBucketsF 394 512) 0 = Some b1
    /\ nth_error (initBucketsF 394 512) 1 = Some b2
    /\ nth_error (initBucketsF 394 512) 4 = Some b5
    /\ PrimFloat.ltb (bucketLeftF b2) (bucketRightF b1) = true
    /\ PrimFloat.ltb (bucketRightF b5) 394 = true.
Proof.
  eexists. eexists. eexists. split; [reflexivity|]. split; [reflexivity|].
  split; [reflexivity|]. split; reflexivity.
Qed.

(** On the 322 x 418 canvas (a container 342 wide) the third span ends at
    193.2 and the fourth starts at 193.20000000000005: the double between
    them is in no span. *)
Lemma spans_322 :
  exists b3 b4,
    nth_error (initBucketsF 322 418) 2 = Some b3
    /\ nth_error (initBucketsF 322 418) 3 = Some b4
    /\ PrimFloat.ltb (bucketRightF b3) (PrimFloat.next_up (bucketRightF b3)) = true
    /\ PrimFloat.ltb (PrimFloat.next_up (bucketRightF b3)) (bucketLeftF b4) = true.
Proof.
  eexists. eexists. split; [reflexivity|]. split; [reflexivity|]. split; reflexivity.
Qed.

(** C6, amended.  For every positive canvas width and height,
    [initBuckets] lays out exactly 5 buckets, numbered 1 to 5 from the
    left, each [canvas.width / 5] wide and centred at
    [(i + 0.5) * canvas.width / 5].  Every span is non-empty and holds its
    own centre strictly inside, every centre is strictly inside the canvas,
    the centre of a bucket is outside the span of every other bucket, and
    spans that are not neighbours are disjoint.  (Where two neighbours
    meet, the edges [x + width / 2] and [x - width / 2] are two different
    computations: they agree in exact arithmetic and only up to rounding in
    double precision, as the counterexample shows.) *)
Theorem C6_initBuckets_layout (cv : Canvas) :
  0 < canvas_width cv -> 0 < canvas_height cv ->
  length (initBuckets cv) = 5%nat
  /\ (forall i b, nth_error (initBuckets cv) i = Some b ->
        bucket_number b = (Z.of_nat i + 1)%Z
        /\ bucket_width b == canvas_width cv / 5
        /\ bucket_x b == (inject_Z (Z.of_nat i) + 0.5) * (canvas_width cv / 5)
        /\ bucketLeft b < bucket_x b < bucketRight b
        /\ 0 < bucket_x b < canvas_width cv)
  /\ (forall i j b b',
        nth_error (initBuckets cv) i = Some b -> nth_error (initBuckets cv) j = Some b' ->
        (i < j)%nat ->
        bucket_x b < bucketLeft b' /\ bucketRight b < bucket_x b'
        /\ ((S i < j)%nat -> bucketRight b < bucketLeft b')).
Proof.
  intros Hw Hh. split; [reflexivity|].
  assert (Hc : 0 < canvas_width cv / 5) by (apply Qlt_shift_div_l; [reflexivity | lra]).
  assert (EW : canvas_width cv == 5 * (canvas_width cv / 5)) by field.
  assert (Hx : forall i b, nth_error (initBuckets cv) i = Some b ->
                 bucket_x b == (inject_Z (Z.of_nat i) + 0.5) * (canvas_width cv / 5)
                 /\ (i < 5)%nat).
  { intros i b H. split.
    - destruct (bucket_span cv i b H) as (Hwd & Hl & _).
      unfold bucketLeft in Hl. rewrite Hwd in Hl.
      set (c := canvas_width cv / 5) in *. set (a := inject_Z (Z.of_nat i)) in *.
      assert (E : bucket_x b == a * c + c / 2) by lra. rewrite E. field.
    - change 5%nat with (length (initBuckets cv)).
      apply nth_error_Some. rewrite H. discriminate. }
  split.
  - intros i b H. destruct (bucket_span cv i b H) as (Hwd & Hl & Hr & Hn).
    destruct (Hx i b H) as [Ex Hi].
    split; [exact Hn|]. split; [exact Hwd|]. split; [exact Ex|].
    rewrite Hl, Hr, Ex.
    assert (HI : 0 <= inject_Z (Z.of_nat i) <= 4).
    { change 0 with (inject_Z 0). change 4 with (inject_Z 4). rewrite <- !Zle_Qle. lia. }
    set (c := canvas_width cv / 5) in *. set (a := inject_Z (Z.of_nat i)) in *.
    set (W := canvas_width cv) in *.
    assert (P1 : 0 <= a * c) by (apply Qmult_le_0_compat; lra).
    assert (P2 : 0 <= (4 - a) * c) by (apply Qmult_le_0_compat; lra).
    assert (E1 : (a + 0.5) * c == a * c + 0.5 * c) by ring.
    assert (E2 : (a + 1) * c == a * c + c) by ring.
    assert (E3 : (4 - a) * c == 4 * c - a * c) by ring.
    rewrite E1, E2. rewrite E3 in P2. set (q := a * c) in *.
    clearbody q c a W. clear - Hc P1 P2 EW. split; split; lra.
  - intros i j b b' H H' Hij.
    destruct (bucket_span cv i b H) as (_ & _ & Hr & _).
    destruct (bucket_span cv j b' H') as (_ & Hl' & _).
    destruct (Hx i b H) as [Ex _]. destruct (Hx j b' H') as [Ex' _].
    rewrite Hr, Hl', Ex, Ex'.
    assert (HI : inject_Z (Z.of_nat i) + 1 <= inject_Z (Z.of_nat j)).
    { change 1 with (inject_Z 1). rewrite <- inject_Z_plus, <- Zle_Qle. lia. }
    set (c := canvas_width cv / 5) in *.
    set (a := inject_Z (Z.of_nat i)) in *. set (a' := inject_Z (Z.of_nat j)) in *.
    assert (P1 : 0 <= (a' - a - 1) * c) by (apply Qmult_le_0_compat; lra).
    assert (E1 : (a' - a - 1) * c == a' * c - a * c - c) by ring.
    assert (E2 : (a + 0.5) * c == a * c + 0.5 * c) by ring.
    assert (E3 : (a' + 0.5) * c == a' * c + 0.5 * c) by ring.
    assert (E4 : (a + 1) * c == a * c + c) by ring.
    rewrite E1 in P1. rewrite E2, E3, E4.
    split; [|split].
    + set (q := a * c) in *. set (q' := a' * c) in *. clearbody q q' c.
      clear - Hc P1. lra.
    + set (q := a * c) in *. set (q' := a' * c) in *. clearbody q q' c.
      clear - Hc P1. lra.
    + intro Hij2.
      assert (HI2 : a + 2 <= a').
      { unfold a, a'. change 2 with (inject_Z 2). rewrite <- inject_Z_plus, <- Zle_Qle. lia. }
      assert (P2 : 0 <= (a' - a - 2) * c) by (apply Qmult_le_0_compat; lra).
      assert (E5 : (a' - a - 2) * c == a' * c - a * c - 2 * c) by ring.
      rewrite E5 in P2.
      set (q := a * c) in *. set (q' := a' * c) in *. clearbody q q' c.
      clear - Hc P2. lra.
Qed.

Lemma C6_initBuckets_layout_witness :
  let cv := {| canvas_width := 394; canvas_height := 512 |} in
  length (initBuckets cv) = 5%nat
  /\ (forall i b, nth_error (initBuckets cv) i = Some b ->
        bucket_number b = (Z.of_nat i + 1)%Z
        /\ bucket_width b == canvas_width cv / 5
        /\ bucket_x b == (inject_Z (Z.of_nat i) + 0.5) * (canvas_width cv / 5)
        /\ bucketLeft b < bucket_x b < bucketRight b
        /\ 0 < bucket_x b < canvas_width cv)
  /\ (forall i j b b',
        nth_error (initBuckets cv) i = Some b -> nth_error (initBuckets cv) j = Some b' ->
        (i < j)%nat ->
        bucket_x b < bucketLeft b' /\ bucketRight b < bucket_x b'
        /\ ((S i < j)%nat -> bucketRight b < bucketLeft b')).
Proof.
  apply (C6_initBuckets_layout {| canvas_width := 394; canvas_height := 512 |});
    reflexivity.
Defined.

(** C7, counterexample.  When the container of the idle page on the
    800 x 1040 board shrinks to width 0 (a layout not yet sized), the width
    is -20 and both radii are -1, and the redraw throws on the first peg. *)
Lemma C7_no_clamp_counterexample : ~ clampsToPositive identityAttr 0 (initialGame board800).
Proof.
  unfold clampsToPositive. intros (g' & H & _). vm_compute in H. discriminate.
Qed.

Lemma Mfloor_pos (q : Q) (n : Z) : (0 < n)%Z -> (0 < Mfloor (q / inject_Z n) <-> inject_Z n <= q).
Proof.
  intro Hn. unfold Mfloor.
  assert (Hq : 0 < inject_Z n).
  { change 0 with (inject_Z 0). rewrite <- Zlt_Qlt. exact Hn. }
  split; intro H.
  - assert (H1 : (1 <= Qfloor (q / inject_Z n))%Z).
    { change 0 with (inject_Z 0) in H. rewrite <- Zlt_Qlt in H. lia. }
    rewrite Zle_Qle in H1. pose proof (Qfloor_le (q / inject_Z n)) as H2.
    assert (H3 : 1 <= q / inject_Z n) by (change (inject_Z 1) with 1 in H1; lra).
    apply (Qmult_le_r _ _ (inject_Z n)) in H3; [|exact Hq].
    assert (E : q / inject_Z n * inject_Z n == q) by (field; lra).
    rewrite E in H3. lra.
  - assert (H3 : 1 <= q / inject_Z n).
    { apply (Qmult_le_r _ _ (inject_Z n)); [exact Hq|].
      assert (E : q / inject_Z n * inject_Z n == q) by (field; lra).
      rewrite E. lra. }
    assert (H1 : (Qfloor 1 <= Qfloor (q / inject_Z n))%Z) by (apply Qfloor_resp_le; exact H3).
    change (Qfloor 1) with 1%Z in H1.
    change 0 with (inject_Z 0). rewrite <- Zlt_Qlt. lia.
Qed.

Lemma Mfloor_neg (q : Q) (n : Z) : (0 < n)%Z -> (Mfloor (q / inject_Z n) < 0 <-> q < 0).
Proof.
  intro Hn. unfold Mfloor.
  assert (Hq : 0 < inject_Z n).
  { change 0 with (inject_Z 0). rewrite <- Zlt_Qlt. exact Hn. }
  assert (E : q / inject_Z n * inject_Z n == q) by (field; lra).
  split; intro H.
  - assert (H1 : (Qfloor (q / inject_Z n) + 1 <= 0)%Z).
    { change 0 with (inject_Z 0) in H. rewrite <- Zlt_Qlt in H. lia. }
    rewrite Zle_Qle in H1. pose proof (Qlt_floor (q / inject_Z n)) as H2.
    assert (H3 : q / inject_Z n < 0) by (change (inject_Z 0) with 0 in H1; lra).
    apply (Qmult_lt_r _ _ (inject_Z n)) in H3; [|exact Hq].
    rewrite E in H3. lra.
  - pose proof (Qfloor_le (q / inject_Z n)) as H2.
    assert (H3 : q / inject_Z n < 0).
    { apply (Qmult_lt_r _ _ (inject_Z n)); [exact Hq|]. rewrite E. lra. }
    lra.
Qed.

(** Every peg laid out by [initPegs] has the configured radius, and there
    is at least the peg of the top row. *)
Lemma initPegs_radius (cv : Canvas) (cfg : Config) :
  existsb (fun peg => Qltb (peg_radius peg) 0) (snd (initPegs cv cfg))
  = Qltb (pegRadius cfg) 0.
Proof.
  destruct (Qltb (pegRadius cfg) 0) eqn:Hr.
  - apply existsb_exists. unfold initPegs. cbn [snd].
    eexists. split.
    + apply in_flat_map. exists 0%nat. split; [left; reflexivity|].
      apply in_map_iff. exists 0%nat. split; [reflexivity|].
      replace (pegsInRow 0) with 1%nat by (vm_compute; reflexivity). left. reflexivity.
    + cbn [peg_radius pegRadius]. exact Hr.
  - destruct (existsb _ _) eqn:He; [|reflexivity].
    apply existsb_exists in He. destruct He as (peg & Hin & Hp).
    unfold initPegs in Hin. cbn [snd] in Hin.
    apply in_flat_map in Hin. destruct Hin as (row & _ & Hin).
    apply in_map_iff in Hin. destruct Hin as (i & <- & _).
    cbn [peg_radius pegRadius] in Hp. congruence.
Qed.

(** C7, amended.  [resizeCanvas] clamps nothing: for every container
    width, with [width = min(containerWidth - 20, 800)], it sets
    [pegRadius = floor(width / 100)], [ballRadius = floor(width / 60)] and
    [pegSpacing = canvas.width / 12]; the peg radius is positive exactly
    when [width >= 100], the ball radius exactly when [width >= 60], and
    the spacing exactly when the canvas width is.  It does throw: after
    these assignments, the redraw it makes while no drop is in flight
    throws exactly when the width is negative (the pegs then have the
    radius [floor(width / 100) < 0]) or the ball that is still shown has a
    negative radius. *)
Theorem C7_resizeCanvas_unclamped (attr : Q -> Q) (containerWidth : Q) (g : Game) :
  let width := Qmin (containerWidth - 20) 800 in
  let g' := stateOf (resizeCanvas attr containerWidth g) in
  let b := board g' in
  pegRadius (config b) = Mfloor (width / 100)
  /\ ballRadius (config b) = Mfloor (width / 60)
  /\ pegSpacing (config b) = canvas_width (canvas b) / (maxRowPegs + 1)
  /\ (0 < pegRadius (config b) <-> 100 <= width)
  /\ (0 < ballRadius (config b) <-> 60 <= width)
  /\ (0 < pegSpacing (config b) <-> 0 < canvas_width (canvas b))
  /\ (resizeCanvas attr containerWidth g = Thrown g' <->
      isGameActive g = false
      /\ (width < 0 \/ exists bl, ball g = Some bl /\ ball_radius bl < 0)).
Proof.
  intros width g' b. subst b g'. rewrite resizeCanvas_state.
  assert (Hpegs : existsb (fun peg => Qltb (peg_radius peg) 0)
                    (pegLocations (board (resized attr containerWidth g)))
                  = Qltb (Mfloor (width / 100)) 0).
  { unfold resized, resizedBoard. cbn [board]. fold width.
    match goal with
    | |- context [initPegs ?cv ?cfg] =>
        pose proof (initPegs_radius cv cfg) as H; destruct (initPegs cv cfg) as [cfg2 pegs]
    end.
    cbn [pegLocations snd pegRadius] in *. exact H. }
  assert (Hthrown : resizeCanvas attr containerWidth g = Thrown (resized attr containerWidth g)
                    <-> isGameActive g = false
                        /\ (width < 0 \/ exists bl, ball g = Some bl /\ ball_radius bl < 0)).
  { unfold resizeCanvas, drawGame, drawPegs, drawBall. cbv zeta. rewrite Hpegs.
    change (isGameActive (resized attr containerWidth g)) with (isGameActive g).
    change (ball (resized attr containerWidth g)) with (ball g).
    destruct (isGameActive g); cbn [negb].
    - split; [discriminate|]. intros [Ha _]. discriminate.
    - destruct (Qltb (Mfloor (width / 100)) 0) eqn:Hr.
      + split; [|reflexivity]. intros _. split; [reflexivity|]. left.
        apply Qltb_lt in Hr. apply (Mfloor_neg width 100) in Hr; [exact Hr|lia].
      + assert (Hw : ~ width < 0).
        { intro Hw. apply (Mfloor_neg width 100) in Hw; [|lia].
          apply Qltb_lt in Hw. change (Qltb (Mfloor (width / 100)) 0 = true) in Hw.
          congruence. }
        change (ball (resized attr containerWidth g)) with (ball g).
        destruct (ball g) as [bl|].
        * destruct (Qltb (ball_radius bl) 0) eqn:Hb.
          -- split; [|reflexivity]. intros _. split; [reflexivity|]. right.
             exists bl. split; [reflexivity|]. apply Qltb_lt. exact Hb.
          -- split; [discriminate|]. intros (_ & [Hc | (bl' & E & Hc)]); [contradiction|].
             injection E as <-. apply Qltb_lt in Hc. congruence.
        * split; [discriminate|]. intros (_ & [Hc | (bl' & E & _)]); [contradiction|].
          discriminate. }
  split; [|split; [|split; [|split; [|split; [|split; [|exact Hthrown]]]]]];
    unfold resized, resizedBoard, initPegs;
    cbn [board config canvas pegRadius ballRadius pegSpacing canvas_width];
    fold width; try reflexivity.
  - apply (Mfloor_pos width 100). lia.
  - apply (Mfloor_pos width 60). lia.
  - unfold maxRowPegs. split; intro H.
    + apply (Qmult_lt_r _ _ 12) in H; [|reflexivity].
      assert (E : attr width / (11 + 1) * 12 == attr width) by field.
      rewrite E in H. lra.
    + apply (Qmult_lt_r _ _ 12); [reflexivity|].
      assert (E : attr width / (11 + 1) * 12 == attr width) by field.
      rewrite E. lra.
Qed.

(** ** Runs that touch no peg *)

Lemma sq_sep (md a b : Q) :
  0 <= md -> md <= a \/ md <= - a -> md * md <= a * a + b * b.
Proof.
  intros Hm [H|H].
  - assert (0 <= (a - md) * (a + md)) by (apply Qmult_le_0_compat; lra).
    assert (0 <= b * b) by (destruct (Qlt_le_dec b 0); nra). lra.
  - assert (0 <= (- a - md) * (- a + md)) by (apply Qmult_le_0_compat; lra).
    assert (0 <= b * b) by (destruct (Qlt_le_dec b 0); nra). lra.
Qed.

Section ZoneSound.

Variable M : MathLib.
Variable rnd : nat -> Q.
Hypothesis Hsqrt : sqrt_lower M.

Lemma pegOutside_far (cfg : Config) (r : Rect) (p : Peg) (x y : Q) :
  pegOutside cfg r p = true -> inRect r x y = true -> far M cfg x y p.
Proof.
  unfold pegOutside, inRect, far. intros Hp Hr.
  apply andb_true_iff in Hp. destruct Hp as [Hm Hp].
  apply Qleb_le in Hm.
  repeat (apply andb_true_iff in Hr; destruct Hr as [Hr ?]).
  repeat match goal with H : Qleb _ _ = true |- _ => apply Qleb_le in H end.
  apply Qltb_ge. unfold dist. apply Hsqrt; [exact Hm|].
  set (md := minDist cfg p) in *.
  repeat (apply orb_true_iff in Hp; destruct Hp as [Hp|Hp]);
    apply Qleb_le in Hp.
  - apply sq_sep; [exact Hm | right; lra].
  - apply sq_sep; [exact Hm | left; lra].
  - rewrite Qplus_comm. apply sq_sep; [exact Hm | right; lra].
  - rewrite Qplus_comm. apply sq_sep; [exact Hm | left; lra].
Qed.

Lemma zone_far (cfg : Config) (pegs : list Peg) (z : list Rect) (x y : Q) :
  zoneClear cfg pegs z = true -> inZone z x y = true ->
  forall p, In p pegs -> far M cfg x y p.
Proof.
  unfold zoneClear, inZone. intros Hc Hz p Hin.
  apply existsb_exists in Hz. destruct Hz as (r & Hr & Hxy).
  rewrite forallb_forall in Hc. specialize (Hc r Hr).
  rewrite forallb_forall in Hc. apply (pegOutside_far cfg r p x y (Hc p Hin) Hxy).
Qed.

Lemma inRect_Qeq (r : Rect) (x x' y y' : Q) :
  x == x' -> y == y' -> inRect r x y = inRect r x' y'.
Proof.
  intros Hx Hy. unfold inRect, Qleb. rewrite Hx, Hy. reflexivity.
Qed.

Lemma inZone_Qeq (z : list Rect) (x x' y y' : Q) :
  x == x' -> y == y' -> inZone z x y = inZone z x' y'.
Proof.
  intros Hx Hy. unfold inZone. induction z as [|r z IH]; [reflexivity|].
  simpl. rewrite IH, (inRect_Qeq r x x' y y' Hx Hy). reflexivity.
Qed.

Lemma collide_far (cfg : Config) (time : Q) (pegs : list Peg) (s : Sim) (k : nat) :
  (forall p, In p pegs -> far M cfg (currentX s) (currentY s) p) ->
  forEachR (collidePeg M rnd cfg time) pegs s k = (s, k).
Proof.
  induction pegs as [|p pegs IH]; intro H; [reflexivity|].
  simpl. unfold bind at 1.
  assert (Hp : collidePeg M rnd cfg time p s k = (s, k)).
  { unfold collidePeg. pose proof (H p (or_introl eq_refl)) as Hf. unfold far in Hf.
    rewrite Hf. reflexivity. }
  rewrite Hp. apply IH. intros q Hq. apply H. right. exact Hq.
Qed.

Lemma totalPush_far (cfg : Config) (pegs : list Peg) (x y : Q) :
  (forall p, In p pegs -> far M cfg x y p) ->
  totalPush M cfg pegs x y = (0, 0).
Proof.
  unfold totalPush. generalize (0, 0). induction pegs as [|p pegs IH]; intros acc H.
  - reflexivity.
  - simpl. unfold pushPeg at 2. pose proof (H p (or_introl eq_refl)) as Hf.
    unfold far in Hf. rewrite Hf. apply IH. intros q Hq. apply H. right. exact Hq.
Qed.

Lemma countHits_far (cfg : Config) (pegs : list Peg) (x y : Q) :
  (forall p, In p pegs -> far M cfg x y p) ->
  countHits M cfg pegs x y = 0%Z.
Proof.
  unfold countHits. generalize 0%Z. induction pegs as [|p pegs IH]; intros acc H.
  - reflexivity.
  - simpl. unfold countPeg at 2. pose proof (H p (or_introl eq_refl)) as Hf.
    unfold far in Hf. rewrite Hf. apply IH. intros q Hq. apply H. right. exact Hq.
Qed.

End ZoneSound.

Section ZoneRun.

Variable M : MathLib.
Variable rnd : nat -> Q.
Variable z : list Rect.
Variable b : Board.
Hypothesis Hsqrt : sqrt_lower M.
Hypothesis Hclear : zoneClear (config b) (pegLocations b) z = true.

Lemma stepAfterCollide_free (tb : Bucket) (startY totalDurationMs : Q) (i : nat) (s3 : Sim) :
  let r := stepAfterCollide M (withoutPegs b) tb startY totalDurationMs i s3 in
  snd r = true \/ inZone z (currentX (fst r)) (currentY (fst r)) = true ->
  stepAfterCollide M b tb startY totalDurationMs i s3 = r.
Proof.
  unfold stepAfterCollide. cbn [withoutPegs config canvas pegLocations].
  destruct (if Qltb (currentX s3 + currentVx s3 * 0.985 * (totalDurationMs / inject_Z (Z.of_nat steps) / 16.0)
                     - ballRadius (config b)) 0
            then (ballRadius (config b), currentVx s3 * 0.985 * -0.6)
            else if Qgtb (currentX s3 + currentVx s3 * 0.985 * (totalDurationMs / inject_Z (Z.of_nat steps) / 16.0)
                          + ballRadius (config b)) (canvas_width (canvas b))
                 then (canvas_width (canvas b) - ballRadius (config b), currentVx s3 * 0.985 * -0.6)
                 else (currentX s3 + currentVx s3 * 0.985 * (totalDurationMs / inject_Z (Z.of_nat steps) / 16.0),
                       currentVx s3 * 0.985)) as [x6 vx6].
  match goal with |- context [Qgeb ?v (bucket_y tb)] => set (y6 := v) end.
  destruct (Qgeb y6 (bucket_y tb)); [reflexivity|].
  unfold totalPush at 3 4, countHits at 2. cbn [fold_left fst snd].
  intros [H|H].
  - destruct (i <? steps)%nat; discriminate H.
  - assert (Hz : inZone z (num (x6 + 0)) (num (y6 + 0)) = true).
    { destruct (i <? steps)%nat; exact H. }
    assert (Hf6 : forall p, In p (pegLocations b) -> far M (config b) x6 y6 p).
    { apply (zone_far M Hsqrt (config b) (pegLocations b) z); [exact Hclear|].
      rewrite <- Hz. apply inZone_Qeq; rewrite num_eq; ring. }
    rewrite (totalPush_far M (config b) (pegLocations b) x6 y6 Hf6). cbn [fst snd].
    assert (Hf7 : forall p, In p (pegLocations b) ->
                            far M (config b) (num (x6 + 0)) (num (y6 + 0)) p).
    { apply (zone_far M Hsqrt (config b) (pegLocations b) z); [exact Hclear|exact Hz]. }
    rewrite (countHits_far M (config b) (pegLocations b) _ _ Hf7). reflexivity.
Qed.

Lemma simStep_value (bd : Board) (tb : Bucket) (startY totalDurationMs : Q)
    (i : nat) (s : Sim) (k : nat) :
  (forall p, In p (pegLocations bd) -> far M (config bd) (currentX s) (currentY s) p) ->
  simStep M rnd bd tb startY totalDurationMs i s k =
  (stepAfterCollide M bd tb startY totalDurationMs i (applyForces tb totalDurationMs i s), k).
Proof.
  intro H. unfold simStep, bind.
  rewrite (collide_far M rnd (config bd) _ (pegLocations bd)
             (applyForces tb totalDurationMs i s) k); [reflexivity|].
  exact H.
Qed.

Lemma simStep_free (tb : Bucket) (startY totalDurationMs : Q) (i : nat) (s : Sim) (k : nat) :
  inZone z (currentX s) (currentY s) = true ->
  let r := simStep M rnd (withoutPegs b) tb startY totalDurationMs i s k in
  snd (fst r) = true \/ inZone z (currentX (fst (fst r))) (currentY (fst (fst r))) = true ->
  simStep M rnd b tb startY totalDurationMs i s k = r.
Proof.
  intros Hz r. subst r.
  rewrite (simStep_value (withoutPegs b)); [|intros p []].
  rewrite (simStep_value b);
    [|intros p Hp; apply (zone_far M Hsqrt (config b) (pegLocations b) z _ _ Hclear Hz p Hp)].
  cbn [fst snd]. intro H.
  rewrite (stepAfterCollide_free tb startY totalDurationMs i _ H). reflexivity.
Qed.

Lemma simLoopZ_sound (tb : Bucket) (startY totalDurationMs : Q) (n : nat) :
  forall (i : nat) (s : Sim) (k : nat) (r : Sim * nat),
    simLoopZ M rnd z b tb startY totalDurationMs n i s k = Some r ->
    simLoop M rnd b tb startY totalDurationMs n i s k = r.
Proof.
  induction n as [|n IH]; intros i s k r H.
  - simpl in H. destruct (inZone z (currentX s) (currentY s)); [|discriminate].
    injection H as <-. reflexivity.
  - cbn [simLoopZ] in H.
    destruct (inZone z (currentX s) (currentY s)) eqn:Hz; [|discriminate].
    cbn [simLoop]. unfold bind.
    set (rf := simStep M rnd (withoutPegs b) tb startY totalDurationMs i s k) in *.
    assert (Hstep : simStep M rnd b tb startY totalDurationMs i s k = rf).
    { apply simStep_free; [exact Hz|]. fold rf.
      destruct (snd (fst rf)) eqn:Hb; [left; reflexivity|right].
      destruct n; cbn [simLoopZ] in H;
        destruct (inZone z (currentX (fst (fst rf))) (currentY (fst (fst rf))));
        [reflexivity|discriminate|reflexivity|discriminate]. }
    rewrite Hstep. destruct rf as [[s' brk] k']. cbn [fst snd] in *.
    destruct brk.
    + injection H as <-. reflexivity.
    + apply IH. exact H.
Qed.

Lemma attemptZ_sound (tb : Bucket) (startX startY : Q) (t : Z) (totalDurationMs : Q)
    (retries : nat) (valid0 : bool) (dur0 : Q) (k : nat) (r : Sim * nat) :
  attemptZ M rnd z b tb startX startY t totalDurationMs retries valid0 dur0 k = Some r ->
  attempt M rnd b tb startX startY t totalDurationMs retries valid0 dur0 k = r.
Proof.
  unfold attemptZ, attempt. intro H. unfold bind at 1.
  destruct (initAttempt rnd b tb startX startY t retries valid0 dur0 k) as [s0 k0].
  cbn [fst snd] in H. unfold bind.
  destruct (simLoopZ M rnd z b tb startY totalDurationMs steps 1 s0 k0) as [[s1 k1]|] eqn:E;
    [|discriminate].
  rewrite (simLoopZ_sound tb startY totalDurationMs steps 1%nat s0 k0 (s1, k1) E).
  injection H as <-. reflexivity.
Qed.

End ZoneRun.

(** ** Draws that repeat *)

Section Periodicity.

Variable M : MathLib.
Variable rnd : nat -> Q.
Variable P : nat.
Hypothesis Hper : forall n, rnd (n + P)%nat = rnd n.

Lemma periodic_ret (A : Type) (a : A) : Periodic P (ret a).
Proof. intro k. reflexivity. Qed.

Lemma periodic_random : Periodic P (random rnd).
Proof. intro k. unfold random. rewrite Hper. reflexivity. Qed.

Lemma periodic_bind (A B : Type) (c : Rand A) (f : A -> Rand B) :
  Periodic P c -> (forall a, Periodic P (f a)) -> Periodic P (bind c f).
Proof.
  intros Hc Hf k. unfold bind. rewrite Hc. destruct (c k) as [a n]. cbn [fst snd].
  apply Hf.
Qed.

Ltac periodic :=
  repeat first
    [ apply periodic_ret
    | apply periodic_random
    | apply periodic_bind; [|intro]
    | match goal with
      | |- Periodic _ (if ?c then _ else _) => destruct c
      end ].

Lemma periodic_collidePeg (cfg : Config) (time : Q) (peg : Peg) (s : Sim) :
  Periodic P (collidePeg M rnd cfg time peg s).
Proof. unfold collidePeg. periodic. Qed.

Lemma periodic_forEachR (A S : Type) (f : A -> S -> Rand S) :
  (forall a s, Periodic P (f a s)) -> forall l s, Periodic P (forEachR f l s).
Proof.
  intros Hf l. induction l as [|a l IH]; intro s; cbn [forEachR].
  - apply periodic_ret.
  - apply periodic_bind; [apply Hf | exact IH].
Qed.

Lemma periodic_simStep (b : Board) (tb : Bucket) (startY total : Q) (i : nat) (s : Sim) :
  Periodic P (simStep M rnd b tb startY total i s).
Proof.
  unfold simStep. apply periodic_bind; [|intro; apply periodic_ret].
  apply periodic_forEachR. intros. apply periodic_collidePeg.
Qed.

Lemma periodic_simLoop (b : Board) (tb : Bucket) (startY total : Q) (n : nat) :
  forall i s, Periodic P (simLoop M rnd b tb startY total n i s).
Proof.
  induction n as [|n IH]; intros i s; cbn [simLoop].
  - apply periodic_ret.
  - apply periodic_bind; [apply periodic_simStep|].
    intros [s' brk]. cbn [fst snd]. destruct brk; [apply periodic_ret | apply IH].
Qed.

Lemma periodic_initAttempt (b : Board) (tb : Bucket) (startX startY : Q) (t : Z)
    (retries : nat) (v : bool) (d : Q) :
  Periodic P (initAttempt rnd b tb startX startY t retries v d).
Proof. unfold initAttempt. periodic. Qed.

Lemma periodic_attempt (b : Board) (tb : Bucket) (startX startY : Q) (t : Z) (total : Q)
    (retries : nat) (v : bool) (d : Q) :
  Periodic P (attempt M rnd b tb startX startY t total retries v d).
Proof.
  unfold attempt. apply periodic_bind; [apply periodic_initAttempt|intro s0].
  apply periodic_bind; [apply periodic_simLoop|intro s1]. apply periodic_ret.
Qed.

Lemma periodic_shift (A : Type) (c : Rand A) :
  Periodic P c -> forall j k, c (k + j * P)%nat = (fst (c k), (snd (c k) + j * P)%nat).
Proof.
  intros Hc j. induction j as [|j IH]; intro k.
  - cbn [Nat.mul]. rewrite !Nat.add_0_r. destruct (c k); reflexivity.
  - replace (k + S j * P)%nat with ((k + j * P) + P)%nat by lia.
    rewrite Hc, IH. cbn [fst snd]. f_equal. lia.
Qed.

End Periodicity.

(** ** The retry loop *)

Section RetryLoop.

Variable M : MathLib.
Variable rnd : nat -> Q.

Lemma gen_unfold (b : Board) (tb : Bucket) (startX startY : Q) (t : Z) (dur0 : Q) (k : nat) :
  lookup1 (bucketLocations b) t = Some tb ->
  generateAnimationPath M rnd b startX startY t dur0 k =
  let res := retryLoop M rnd b tb startX startY t (2500 + rnd k * 1000)
               (maxRetries - 1) 0 false dur0 (S k) in
  (if isValidPath (fst (fst res))
   then Returned (path (fst (fst res))) (animDuration (fst (fst res)))
   else TypeError (animDuration (fst (fst res))),
   snd res).
Proof.
  intro H. unfold generateAnimationPath. rewrite H. unfold bind at 1. unfold random at 1.
  unfold bind at 1.
  destruct (retryLoop M rnd b tb startX startY t (2500 + rnd k * 1000)
              (maxRetries - 1) 0 false dur0 (S k)) as [[s r] k'].
  cbn [fst snd]. destruct (isValidPath s); reflexivity.
Qed.

Lemma retry_first_valid (b : Board) (tb : Bucket) (startX startY : Q) (t : Z) (total : Q)
    (fuel retries : nat) (v : bool) (d : Q) (k : nat) (s : Sim) (k' : nat) :
  attempt M rnd b tb startX startY t total retries v d k = (s, k') ->
  isValidPath s = true ->
  retryLoop M rnd b tb startX startY t total fuel retries v d k = ((s, retries), k').
Proof.
  intros Ha Hv. destruct fuel; cbn [retryLoop]; unfold bind at 1; rewrite Ha, Hv;
    reflexivity.
Qed.

(** Every pass of the retry loop ends in the state of some attempt. *)
Lemma retryLoop_attempt (b : Board) (tb : Bucket) (startX startY : Q) (t : Z) (total : Q)
    (fuel : nat) :
  forall retries v d k,
  exists retries' v' d' k0,
    fst (fst (retryLoop M rnd b tb startX startY t total fuel retries v d k))
    = fst (attempt M rnd b tb startX startY t total retries' v' d' k0).
Proof.
  induction fuel as [|fuel IH]; intros retries v d k; cbn [retryLoop]; unfold bind at 1;
    destruct (attempt M rnd b tb startX startY t total retries v d k) as [s k1] eqn:Ha;
    destruct (isValidPath s) eqn:Hv.
  - exists retries, v, d, k. rewrite Ha. reflexivity.
  - exists retries, v, d, k. rewrite Ha. reflexivity.
  - exists retries, v, d, k. rewrite Ha. reflexivity.
  - unfold bind at 1, random at 1.
    destruct (S retries <? maxRetries)%nat.
    + apply IH.
    + exists retries, v, d, k. rewrite Ha. reflexivity.
Qed.

(** When every attempt started at a multiple of the period fails, the loop
    runs out of retries on a failed attempt. *)
Lemma retry_exhaust (b : Board) (tb : Bucket) (startX startY : Q) (t : Z) (total : Q)
    (P k1 : nat) :
  (forall j retries v d, exists s,
      attempt M rnd b tb startX startY t total retries v d (k1 + j * S P)%nat
      = (s, (k1 + j * S P + P)%nat) /\ isValidPath s = false) ->
  forall fuel retries v d j, exists s r k',
    retryLoop M rnd b tb startX startY t total fuel retries v d (k1 + j * S P)%nat
    = ((s, r), k') /\ isValidPath s = false.
Proof.
  intro Hatt. induction fuel as [|fuel IH]; intros retries v d j;
    destruct (Hatt j retries v d) as (s & Ha & Hv);
    cbn [retryLoop]; unfold bind at 1; rewrite Ha, Hv; unfold bind at 1, random at 1.
  - exists s, (S retries), (S (k1 + j * S P + P)). split; [reflexivity|exact Hv].
  - destruct (S retries <? maxRetries)%nat.
    + replace (S (k1 + j * S P + P)) with (k1 + S j * S P)%nat by lia. apply IH.
    + exists s, (S retries), (S (k1 + j * S P + P)). split; [reflexivity|exact Hv].
Qed.

End RetryLoop.

(** ** Concrete runs on the 800 x 1040 board *)

Lemma sqrt_lower_mathUp : sqrt_lower mathUp.
Proof.
  intros d x Hd Hx. cbn [Msqrt mathUp]. unfold sqrtUp.
  set (c := Qceiling x).
  assert (Hxc : x <= inject_Z c) by apply Qle_ceiling.
  destruct (Z_lt_le_dec 0 c) as [Hc|Hc].
  - pose proof (Z.sqrt_up_spec c Hc) as [_ Hs].
    pose proof (Z.sqrt_up_nonneg c) as Hn.
    set (r := Z.sqrt_up c) in *.
    assert (Hr : inject_Z c <= inject_Z r * inject_Z r).
    { rewrite <- inject_Z_mult. rewrite <- Zle_Qle. exact Hs. }
    assert (Hr0 : 0 <= inject_Z r).
    { change 0 with (inject_Z 0). rewrite <- Zle_Qle. exact Hn. }
    destruct (Qlt_le_dec (inject_Z r) d) as [Hlt|Hle]; [|exact Hle].
    exfalso.
    assert (0 <= (d - inject_Z r) * inject_Z r) by (apply Qmult_le_0_compat; lra).
    assert (0 < (d - inject_Z r) * d) by (apply Qmult_lt_0_compat; lra).
    lra.
  - assert (Hc0 : inject_Z c <= 0).
    { change 0 with (inject_Z 0). rewrite <- Zle_Qle. exact Hc. }
    assert (Hdd : d * d <= 0) by lra.
    assert (Hd0 : d <= 0).
    { destruct (Qlt_le_dec 0 d) as [Hlt|Hle]; [|exact Hle].
      exfalso. assert (0 < d * d) by (apply Qmult_lt_0_compat; lra). lra. }
    rewrite Z.sqrt_up_eqn0 by exact Hc. exact Hd0.
Qed.

Lemma draws8_periodic (n : nat) : draws8 (n + 8) = draws8 n.
Proof.
  unfold draws8. replace (n + 8)%nat with (n + 1 * 8)%nat by lia.
  rewrite Nat.Div0.mod_add. reflexivity.
Qed.

Lemma draws8_range (n : nat) : 0 <= draws8 n /\ draws8 n < 1.
Proof.
  unfold draws8. pose proof (Nat.mod_upper_bound n 8 ltac:(lia)) as H.
  set (m := (n mod 8)%nat) in *. clearbody m.
  do 8 (destruct m as [|m]; [cbn [nth]; split; lra|]). lia.
Qed.

Lemma zone800_clear :
  zoneClear (config board800) (pegLocations board800) zone800 = true.
Proof. vm_compute. reflexivity. Qed.

Lemma board800_bucket (t : nat) :
  (1 <= t <= 5)%nat ->
  lookup1 (bucketLocations board800) (Z.of_nat t) = Some (bucketOf board800 t).
Proof.
  intros [H1 H5].
  do 6 (destruct t as [|t]; [try lia; vm_compute; reflexivity|]). lia.
Qed.

(** The attempt for target 3 from (39, 52) under [draws8]: the ball drifts
    to the left wall, comes back slowly and lands left of bucket 3, inside
    the peg-free region all the way; the validation accepts it. *)
Lemma run_target3 (M : MathLib) :
  match attemptZ M draws8 zone800 board800 (bucketOf board800 3) 39 52 3
          (2500 + draws8 0 * 1000) 0 false 0 1 with
  | Some (s, k) =>
      isValidPath s
      && Qltb (kf_x (lastKeyframe (path s))) (bucketLeft (bucketOf board800 3))
      && Qltb (bucketLeft (bucketOf board800 1)) (kf_x (lastKeyframe (path s)))
      && Qltb (kf_x (lastKeyframe (path s))) (bucketRight (bucketOf board800 1))
      && Qeq_bool (kf_y (lastKeyframe (path s))) (bucket_y (bucketOf board800 3))
  | None => false
  end = true.
Proof. vm_compute. reflexivity. Qed.

(** The attempt for target 1 from (39, 52) under [draws8], whatever the
    retry count and the values left by earlier attempts: the ball touches
    the left wall with no peg near its last recorded step, and the
    validation rejects it after 7 draws. *)
Lemma run_target1 (M : MathLib) (retries : nat) (v : bool) (d : Q) :
  match attemptZ M draws8 zone800 board800 (bucketOf board800 1) 39 52 1
          (2500 + draws8 0 * 1000) retries v d 1 with
  | Some (s, k) => negb (isValidPath s) && (k =? 8)%nat
  | None => false
  end = true.
Proof. vm_compute. reflexivity. Qed.

(** C1, at a failing input.  On the 800 x 1040 board, from the start
    (39, 52) with target 3 and the draws [draws8],
    [generateAnimationPath] returns a trajectory whose last keyframe is on
    the bucket top but strictly inside the span of bucket 1, left of the
    span of bucket 3: the verdict of the landing check is overwritten by
    [isValidPath = true] before the validation. *)
Theorem C1_returns_path_outside_target (M : MathLib) :
  sqrt_lower M ->
  exists (p : list Keyframe) (d : Q) (k : nat),
    generateAnimationPath M draws8 board800 39 52 3 0 0%nat = (Returned p d, k)
    /\ kf_y (lastKeyframe p) == bucket_y (bucketOf board800 3)
    /\ bucketLeft (bucketOf board800 1) < kf_x (lastKeyframe p)
    /\ kf_x (lastKeyframe p) < bucketRight (bucketOf board800 1)
    /\ kf_x (lastKeyframe p) < bucketLeft (bucketOf board800 3).
Proof.
  intro Hs. pose proof (run_target3 M) as H.
  match type of H with
  | match ?t with _ => _ end = _ => destruct t as [[s k]|] eqn:E; [|discriminate]
  end.
  repeat (apply andb_true_iff in H; destruct H as [H ?]).
  apply (attemptZ_sound M draws8 zone800 board800 Hs zone800_clear) in E.
  exists (path s), (animDuration s), k.
  rewrite (gen_unfold M draws8 board800 (bucketOf board800 3) 39 52 3 0 0
             (board800_bucket 3 ltac:(lia))).
  rewrite (retry_first_valid M draws8 _ _ _ _ _ _ _ _ _ _ _ s k E H).
  cbn [fst snd]. rewrite H.
  repeat match goal with
         | Hq : Qltb _ _ = true |- _ => apply Qltb_lt in Hq
         | Hq : Qeq_bool _ _ = true |- _ => apply Qeq_bool_iff in Hq
         end.
  repeat split; assumption.
Qed.

Lemma C1_returns_path_outside_target_witness :
  exists (p : list Keyframe) (d : Q) (k : nat),
    generateAnimationPath mathUp draws8 board800 39 52 3 0 0%nat = (Returned p d, k)
    /\ kf_y (lastKeyframe p) == bucket_y (bucketOf board800 3)
    /\ bucketLeft (bucketOf board800 1) < kf_x (lastKeyframe p)
    /\ kf_x (lastKeyframe p) < bucketRight (bucketOf board800 1)
    /\ kf_x (lastKeyframe p) < bucketLeft (bucketOf board800 3).
Proof.
  apply (C1_returns_path_outside_target mathUp). exact sqrt_lower_mathUp.
Defined.

(** C2, at a failing input.  On the 800 x 1040 board, from the start
    (39, 52) with target 1 and the draws [draws8], each of the 100 attempts
    is rejected, and [generateAnimationPath] then throws the [TypeError] of
    [maxRetries = 50]: no trajectory is returned. *)
Theorem C2_exhaustion_throws (M : MathLib) :
  sqrt_lower M ->
  exists (d : Q) (k : nat), generateAnimationPath M draws8 board800 39 52 1 0 0%nat = (TypeError d, k).
Proof.
  intro Hs.
  assert (Hatt : forall j retries v d, exists s,
             attempt M draws8 board800 (bucketOf board800 1) 39 52 1
               (2500 + draws8 0 * 1000) retries v d (1 + j * 8)%nat
             = (s, (1 + j * 8 + 7)%nat) /\ isValidPath s = false).
  { intros j retries v d. pose proof (run_target1 M retries v d) as H.
    match type of H with
    | match ?t with _ => _ end = _ => destruct t as [[s k]|] eqn:E; [|discriminate]
    end.
    apply andb_true_iff in H. destruct H as [Hv Hk].
    apply negb_true_iff in Hv. apply Nat.eqb_eq in Hk. subst k.
    apply (attemptZ_sound M draws8 zone800 board800 Hs zone800_clear) in E.
    exists s. split; [|exact Hv].
    rewrite (periodic_shift 8 _ _
               (periodic_attempt M draws8 8 draws8_periodic board800 _ 39 52 1 _ retries v d)
               j 1%nat).
    rewrite E. cbn [fst snd]. f_equal. lia. }
  destruct (retry_exhaust M draws8 board800 (bucketOf board800 1) 39 52 1
              (2500 + draws8 0 * 1000) 7 1 Hatt (maxRetries - 1) 0%nat false 0 0%nat)
    as (s & r & k' & Hr & Hv).
  change (1 + 0 * 8)%nat with 1%nat in Hr.
  exists (animDuration s), k'.
  rewrite (gen_unfold M draws8 board800 (bucketOf board800 1) 39 52 1 0 0
             (board800_bucket 1 ltac:(lia))).
  rewrite Hr. cbn [fst snd]. rewrite Hv. reflexivity.
Qed.

Lemma C2_exhaustion_throws_witness :
  exists (d : Q) (k : nat), generateAnimationPath mathUp draws8 board800 39 52 1 0 0%nat = (TypeError d, k).
Proof.
  apply (C2_exhaustion_throws mathUp). exact sqrt_lower_mathUp.
Defined.

(** ** Keyframe times of one attempt *)

Lemma earlier_trans (a b c : Keyframe) : earlier a b -> earlier b c -> earlier a c.
Proof. unfold earlier. intros. lra. Qed.

Lemma increasing_snoc (l : list Keyframe) (a : Keyframe) :
  increasingTimes l -> (l <> [] -> earlier (lastKeyframe l) a) ->
  increasingTimes (l ++ [a]).
Proof.
  unfold increasingTimes, lastKeyframe. induction l as [|x l IH]; intros Hs Hl.
  - simpl. constructor; constructor.
  - inversion Hs as [|x' l' Hs' Hall]; subst. simpl. constructor.
    + apply IH; [exact Hs'|]. intro Hne. destruct l as [|y l]; [contradiction|].
      apply Hl. discriminate.
    + apply Forall_app. split.
      * exact Hall.
      * constructor; [|constructor]. destruct l as [|y l].
        -- apply Hl. discriminate.
        -- assert (Hlast : earlier (last (x :: y :: l) {| kf_x := 0; kf_y := 0; kf_time := 0 |}) a)
             by (apply Hl; discriminate).
           assert (Hx : earlier x (last (y :: l) {| kf_x := 0; kf_y := 0; kf_time := 0 |})).
           { rewrite Forall_forall in Hall. apply Hall.
             destruct (@exists_last _ (y :: l)) as (l0 & z & E); [discriminate|].
             rewrite E, last_last. apply in_or_app. right. left. reflexivity. }
           eapply earlier_trans; [exact Hx|exact Hlast].
Qed.

Lemma In_removelast (A : Type) (l : list A) (x : A) : In x (removelast l) -> In x l.
Proof.
  induction l as [|a l IH]; [intros []|].
  destruct l as [|b l]; [intros []|].
  change (removelast (a :: b :: l)) with (a :: removelast (b :: l)).
  intros [H|H]; [left; exact H|right; apply IH; exact H].
Qed.

Lemma increasing_removelast (l : list Keyframe) :
  increasingTimes l -> increasingTimes (removelast l).
Proof.
  unfold increasingTimes. induction l as [|a l IH]; intro H; [exact H|].
  inversion H as [|a' l' Hs Hall]; subst. destruct l as [|b l]; [constructor|].
  change (removelast (a :: b :: l)) with (a :: removelast (b :: l)).
  constructor; [apply IH; exact Hs|].
  apply Forall_forall. intros x Hx. rewrite Forall_forall in Hall. apply Hall.
  apply In_removelast. exact Hx.
Qed.

Lemma increasingTimesb_complete (p : list Keyframe) :
  increasingTimes p -> increasingTimesb p = true.
Proof.
  unfold increasingTimes. induction p as [|a p IH]; intro H; [reflexivity|].
  inversion H as [|a' p' Hs Hall]; subst. destruct p as [|b p]; [reflexivity|].
  change (Qltb (kf_time a) (kf_time b) && increasingTimesb (b :: p) = true).
  rewrite (IH Hs), andb_true_r. apply Qltb_lt.
  inversion Hall; subst. assumption.
Qed.

Section Times.

Variable M : MathLib.
Variable rnd : nat -> Q.

Lemma collide_keeps (cfg : Config) (time : Q) (pegs : list Peg) :
  forall (s : Sim) (k : nat),
    path (fst (forEachR (collidePeg M rnd cfg time) pegs s k)) = path s
    /\ animDuration (fst (forEachR (collidePeg M rnd cfg time) pegs s k)) = animDuration s.
Proof.
  induction pegs as [|p pegs IH]; intros s k; [split; reflexivity|].
  cbn [forEachR]. unfold bind.
  destruct (collidePeg M rnd cfg time p s k) as [s1 k1] eqn:E.
  assert (H1 : path s1 = path s /\ animDuration s1 = animDuration s).
  { unfold collidePeg in E.
    destruct (Qltb _ _) in E.
    - unfold bind, random, ret in E.
      destruct (Qltb (rnd (S k)) 0.2) in E; injection E as <- _; split; reflexivity.
    - injection E as <- _. split; reflexivity. }
  destruct (IH s1 k1) as [H2 H3]. destruct H1 as [H4 H5].
  split; congruence.
Qed.

Lemma step_path_cases (b : Board) (tb : Bucket) (startY total : Q) (i : nat) (s3 : Sim) :
  let time := inject_Z (Z.of_nat i) * (total / inject_Z (Z.of_nat steps)) in
  let r := stepAfterCollide M b tb startY total i s3 in
  kf_time (lastKeyframe (path s3)) < time ->
  (snd r = true /\ exists kf,
      path (fst r) = path s3 ++ [kf] /\ animDuration (fst r) = kf_time kf
      /\ (kf_y (lastKeyframe (path s3)) < bucket_y tb ->
          kf_time (lastKeyframe (path s3)) < kf_time kf))
  \/ (snd r = false /\ (i < steps)%nat /\ exists kf,
         path (fst r) = path s3 ++ [kf] /\ kf_time kf == time)
  \/ (snd r = false /\ ~ (i < steps)%nat /\ animDuration (fst r) = total
      /\ ((exists kf, path (fst r) = path s3 ++ [kf] /\ kf_time kf = total)
          \/ path (fst r) = path s3)).
Proof.
  intros time r Htime. subst r. unfold stepAfterCollide.
  destruct (if Qltb (currentX s3 + currentVx s3 * 0.985 * (total / inject_Z (Z.of_nat steps) / 16.0)
                     - ballRadius (config b)) 0
            then (ballRadius (config b), currentVx s3 * 0.985 * -0.6)
            else if Qgtb (currentX s3 + currentVx s3 * 0.985 * (total / inject_Z (Z.of_nat steps) / 16.0)
                          + ballRadius (config b)) (canvas_width (canvas b))
                 then (canvas_width (canvas b) - ballRadius (config b), currentVx s3 * 0.985 * -0.6)
                 else (currentX s3 + currentVx s3 * 0.985 * (total / inject_Z (Z.of_nat steps) / 16.0),
                       currentVx s3 * 0.985)) as [x6 vx6].
  match goal with |- context [Qgeb ?v (bucket_y tb)] => set (y6 := v) end.
  fold time.
  destruct (Qgeb y6 (bucket_y tb)) eqn:Hland.
  - left. cbn [fst snd]. split; [reflexivity|].
    eexists. split; [reflexivity|]. cbn [kf_time]. split; [reflexivity|].
    intro Hprev. rewrite num_eq. apply Qgeb_ge in Hland.
    set (prev := lastKeyframe (path s3)) in *.
    assert (Ht : 0 < (if Qeq_bool (y6 - kf_y prev) 0 then 1
                      else Qmax 0 (Qmin 1 ((bucket_y tb - kf_y prev) / (y6 - kf_y prev))))).
    { destruct (Qeq_bool (y6 - kf_y prev) 0); [reflexivity|].
      apply Q.max_lt_iff. right. apply Q.min_glb_lt; [reflexivity|].
      apply Qlt_shift_div_l; lra. }
    set (t := if Qeq_bool (y6 - kf_y prev) 0 then 1
              else Qmax 0 (Qmin 1 ((bucket_y tb - kf_y prev) / (y6 - kf_y prev)))) in *.
    assert (0 < (time - kf_time prev) * t) by (apply Qmult_lt_0_compat; lra).
    lra.
  - right. cbn [fst snd]. destruct (i <? steps)%nat eqn:Hi.
    + left. split; [reflexivity|]. split; [apply Nat.ltb_lt; exact Hi|].
      eexists. split; [reflexivity|]. cbn [kf_time]. apply num_eq.
    + right. split; [reflexivity|]. split; [apply Nat.ltb_ge in Hi; lia|].
      split; [reflexivity|].
      destruct (Qltb (kf_y (lastKeyframe (path s3))) (bucket_y tb)).
      * left. eexists. split; reflexivity.
      * right. reflexivity.
Qed.

End Times.

Section Monotone.

Variable M : MathLib.
Variable rnd : nat -> Q.
Variable b : Board.
Variable tb : Bucket.
Variables startX startY total : Q.
Hypothesis Htotal : 0 < total.

Lemma timeStep_pos : 0 < total / inject_Z (Z.of_nat steps).
Proof. apply Qlt_shift_div_l; [reflexivity|lra]. Qed.

Lemma lastKeyframe_snoc (l : list Keyframe) (a : Keyframe) : lastKeyframe (l ++ [a]) = a.
Proof. unfold lastKeyframe. apply last_last. Qed.

Lemma simStep_path_cases (i : nat) (s : Sim) (k : nat) :
  let time := inject_Z (Z.of_nat i) * (total / inject_Z (Z.of_nat steps)) in
  let r := fst (simStep M rnd b tb startY total i s k) in
  kf_time (lastKeyframe (path s)) < time ->
  (snd r = true /\ exists kf,
      path (fst r) = path s ++ [kf] /\ animDuration (fst r) = kf_time kf
      /\ (kf_y (lastKeyframe (path s)) < bucket_y tb ->
          kf_time (lastKeyframe (path s)) < kf_time kf))
  \/ (snd r = false /\ (i < steps)%nat /\ exists kf,
         path (fst r) = path s ++ [kf] /\ kf_time kf == time)
  \/ (snd r = false /\ ~ (i < steps)%nat /\ animDuration (fst r) = total
      /\ ((exists kf, path (fst r) = path s ++ [kf] /\ kf_time kf = total)
          \/ path (fst r) = path s)).
Proof.
  intros time r Htime. subst r. unfold simStep, bind. subst time.
  set (time := inject_Z (Z.of_nat i) * (total / inject_Z (Z.of_nat steps))) in *.
  pose proof (collide_keeps M rnd (config b) time (pegLocations b)
                (applyForces tb total i s) k) as [Hp _].
  destruct (forEachR (collidePeg M rnd (config b) time) (pegLocations b)
              (applyForces tb total i s) k) as [s3 k3].
  cbn [fst] in Hp.
  change (path (applyForces tb total i s)) with (path s) in Hp.
  cbn [ret fst]. rewrite <- Hp in *.
  apply (step_path_cases M b tb startY total i s3). exact Htime.
Qed.

Lemma simLoop_post (n : nat) :
  forall (i : nat) (s : Sim) (k : nat),
    (i + n = S steps)%nat -> (1 <= n)%nat -> (1 <= i)%nat ->
    pathInv startX startY total i s ->
    pathPost startX startY tb (fst (simLoop M rnd b tb startY total n i s k)).
Proof.
  pose proof timeStep_pos as Hts.
  induction n as [|n IH]; intros i s k Hin Hn Hi (Hhd & Hinc & Hlast & Hlen); [lia|].
  cbn [simLoop]. unfold bind.
  assert (Htime : kf_time (lastKeyframe (path s))
                  < inject_Z (Z.of_nat i) * (total / inject_Z (Z.of_nat steps))).
  { rewrite Hlast. apply Qmult_lt_compat_r; [exact Hts|].
    rewrite <- Zlt_Qlt. lia. }
  pose proof (simStep_path_cases i s k Htime) as Hc.
  destruct (simStep M rnd b tb startY total i s k) as [[s' brk] k'].
  cbn [fst snd] in *.
  assert (Hne : path s <> []) by (destruct Hhd as [rest ->]; discriminate).
  destruct Hc as [(Hb & kf & Hp & Hd & Hstrict) | [(Hb & Hlt & kf & Hp & Ht)
                 | (Hb & Hge & Hd & Hp)]]; subst brk.
  - (* landed *)
    cbn [ret fst]. unfold pathPost. rewrite Hp. split; [|split].
    + destruct Hhd as [rest ->]. eexists. reflexivity.
    + rewrite removelast_last. exact Hinc.
    + intros _. rewrite lastKeyframe_snoc. exact Hd.
  - (* a recorded step *)
    destruct n as [|n]; [lia|].
    apply IH; [lia|lia|lia|]. unfold pathInv. rewrite Hp. split; [|split; [|split]].
    + destruct Hhd as [rest ->]. eexists. reflexivity.
    + apply increasing_snoc; [exact Hinc|]. intros _. unfold earlier. rewrite Ht.
      exact Htime.
    + rewrite lastKeyframe_snoc, Ht. replace (S i - 1)%nat with i by lia. reflexivity.
    + rewrite length_app. cbn [length]. lia.
  - (* the last step, not landed *)
    assert (Hi150 : i = steps) by lia. assert (Hn0 : n = 0%nat) by lia. subst n.
    cbn [simLoop ret fst]. unfold pathPost.
    destruct Hp as [(kf & Hp & Ht) | Hp]; rewrite Hp.
    + split; [|split].
      * destruct Hhd as [rest ->]. eexists. reflexivity.
      * rewrite removelast_last. exact Hinc.
      * intros _. rewrite lastKeyframe_snoc. congruence.
    + split; [|split].
      * exact Hhd.
      * apply increasing_removelast. exact Hinc.
      * intro Hlen'. congruence.
Qed.

Lemma initAttempt_path (t : Z) (retries : nat) (v : bool) (d : Q) (k : nat) :
  path (fst (initAttempt rnd b tb startX startY t retries v d k))
  = [ {| kf_x := startX; kf_y := startY; kf_time := 0 |} ].
Proof.
  unfold initAttempt, bind, random, ret.
  repeat match goal with
         | |- context [if ?c then _ else _] => destruct c
         end; reflexivity.
Qed.

Lemma attempt_post (t : Z) (retries : nat) (v : bool) (d : Q) (k : nat) :
  pathPost startX startY tb
    (fst (attempt M rnd b tb startX startY t total retries v d k)).
Proof.
  unfold attempt. unfold bind at 1.
  pose proof (initAttempt_path t retries v d k) as Hp0.
  destruct (initAttempt rnd b tb startX startY t retries v d k) as [s0 k0].
  cbn [fst] in Hp0. unfold bind.
  pose proof (simLoop_post steps 1 s0 k0) as Hpost.
  destruct (simLoop M rnd b tb startY total steps 1 s0 k0) as [s1 k1].
  cbn [ret fst] in *.
  assert (H : pathPost startX startY tb s1).
  { apply Hpost; [reflexivity|unfold steps; lia|lia|].
    unfold pathInv. rewrite Hp0. split; [|split; [|split]].
    - eexists. reflexivity.
    - unfold increasingTimes. constructor; constructor.
    - cbn. ring.
    - reflexivity. }
  exact H.
Qed.

End Monotone.

(** ** Concrete runs on the 100 x 130 board *)

Lemma zone100_clear :
  zoneClear (config board100) (pegLocations board100) zone100 = true.
Proof. vm_compute. reflexivity. Qed.

Lemma board100_bucket1 :
  lookup1 (bucketLocations board100) 1 = Some (bucketOf board100 1).
Proof. vm_compute. reflexivity. Qed.

Lemma drawsStraight_nonneg (n : nat) : 0 <= drawsStraight n.
Proof.
  unfold drawsStraight.
  do 8 (destruct n as [|n]; [cbn [nth]; lra|]). destruct n; cbn [nth]; lra.
Qed.

(** The attempt for target 1 from (3, 6.5) under [drawsStraight]: the ball
    has no horizontal velocity and falls along [x = 3], left of every peg
    and away from the wall; the validation accepts it. *)
Lemma run_straight (M : MathLib) :
  match attemptZ M drawsStraight zone100 board100 (bucketOf board100 1) 3 6.5 1
          (2500 + drawsStraight 0 * 1000) 0 false 0 1 with
  | Some (s, k) =>
      isValidPath s
      && forallb (fun kf => inZone zone100 (kf_x kf) (kf_y kf)) (path s)
      && forallb (fun kf => Qltb (kf_y kf) (bucket_y (bucketOf board100 1)))
           (removelast (path s))
      && negb (length (path s) =? steps)%nat
      && negb (hitWall s)
  | None => false
  end = true.
Proof. vm_compute. reflexivity. Qed.

Lemma cumulativeHits_zone (M : MathLib) (b : Board) (z : list Rect) (p : list Keyframe) :
  sqrt_lower M -> zoneClear (config b) (pegLocations b) z = true ->
  forallb (fun kf => inZone z (kf_x kf) (kf_y kf)) p = true ->
  cumulativeHits M b p = 0%Z.
Proof.
  intros Hs Hc. unfold cumulativeHits. generalize 0%Z as acc.
  induction p as [|kf p IH]; intros acc H; [reflexivity|].
  cbn [forallb] in H. apply andb_true_iff in H. destruct H as [Hk Hp].
  cbn [fold_left].
  rewrite (countHits_far M (config b) (pegLocations b) (kf_x kf) (kf_y kf)
             (zone_far M Hs (config b) (pegLocations b) z _ _ Hc Hk)).
  rewrite Z.add_0_r. apply IH. exact Hp.
Qed.

(** The run of [run_straight] as [generateAnimationPath] returns it. *)
Lemma straight_returned (M : MathLib) :
  sqrt_lower M ->
  exists (p : list Keyframe) (d : Q) (k : nat),
    generateAnimationPath M drawsStraight board100 3 6.5 1 0 0%nat = (Returned p d, k)
    /\ cumulativeHits M board100 p = 0%Z
    /\ Forall (fun kf => kf_y kf < bucket_y (bucketOf board100 1)) (removelast p)
    /\ length p <> steps.
Proof.
  intro Hs. pose proof (run_straight M) as H.
  match type of H with
  | match ?t with _ => _ end = _ => destruct t as [[s k]|] eqn:E; [|discriminate]
  end.
  repeat (apply andb_true_iff in H; destruct H as [H ?]).
  apply (attemptZ_sound M drawsStraight zone100 board100 Hs zone100_clear) in E.
  exists (path s), (animDuration s), k.
  rewrite (gen_unfold M drawsStraight board100 (bucketOf board100 1) 3 6.5 1 0 0
             board100_bucket1).
  rewrite (retry_first_valid M drawsStraight _ _ _ _ _ _ _ _ _ _ _ s k E H).
  cbn [fst snd]. rewrite H. split; [reflexivity|]. split; [|split].
  - apply (cumulativeHits_zone M board100 zone100 _ Hs zone100_clear); assumption.
  - apply Forall_forall. intros kf Hin.
    match goal with
    | Hf : forallb (fun kf => Qltb _ _) _ = true |- _ =>
        rewrite forallb_forall in Hf; apply Qltb_lt; apply Hf; exact Hin
    end.
  - match goal with
    | Hl : negb (_ =? _)%nat = true |- _ =>
        apply negb_true_iff in Hl; apply Nat.eqb_neq in Hl; exact Hl
    end.
Qed.

(** ** C4: keyframe times *)

(** On the 0 x 0 canvas the start position is 0 whatever the draws. *)
Lemma zero_canvas_start (rnd : nat -> Q) (k : nat) :
  fst (calculateInitialBallPosition rnd board0 k) = 0.
Proof.
  assert (Hz : forall q, q == 0 -> num q = 0).
  { intros q Hq. unfold num. rewrite (Qred_complete q 0 Hq). reflexivity. }
  unfold calculateInitialBallPosition, bind, random, ret.
  change (canvas_width (canvas board0)) with (identityAttr (Qmin (20 - 20) 800)).
  change (ballRadius (config board0)) with (Mfloor (Qmin (20 - 20) 800 / 60)).
  change (identityAttr (Qmin (20 - 20) 800)) with (0 # 1).
  change (Mfloor (Qmin (20 - 20) 800 / 60)) with (0 # 1).
  destruct (Qltb (rnd (S k)) 0.3); [destruct (Qltb (rnd (S (S k))) 0.5)|];
    cbn [fst]; apply Hz; ring.
Qed.

(** A drop on the 0 x 0 canvas, from the start that [handleDropBall] and
    [createBall] pass ([x = 0], [y = canvas.height * 0.05 = 0]): the start
    already is on the bucket top, the first step lands, and the landing
    keyframe is interpolated back to time 0. *)
Lemma run_zero_canvas :
  match fst (generateAnimationPath mathUp draws8 board0 0
               (canvas_height (canvas board0) * 0.05) 3 0 0%nat) with
  | Returned p d => negb (increasingTimesb p) && (length p =? 2)%nat
  | TypeError _ => false
  end = true.
Proof. vm_compute. reflexivity. Qed.

(** C4, counterexample.  On the 0 x 0 canvas (a container 20 wide), the
    call that a click on Drop makes, from [(0, canvas.height * 0.05)],
    returns two keyframes that both have time 0. *)
Lemma C4_times_counterexample :
  ~ monotoneDuration mathUp draws8 board0 0 (canvas_height (canvas board0) * 0.05) 3.
Proof.
  intro H. pose proof run_zero_canvas as Hr.
  destruct (generateAnimationPath mathUp draws8 board0 0
              (canvas_height (canvas board0) * 0.05) 3 0 0%nat) as [[p d|d] k] eqn:E;
    cbn [fst] in Hr; [|discriminate].
  apply andb_true_iff in Hr. destruct Hr as [Hr _]. apply negb_true_iff in Hr.
  destruct (H p d k E) as [Hinc _].
  rewrite (increasingTimesb_complete p Hinc) in Hr. discriminate.
Qed.

(** ** C8: the edge-bucket gate *)



(** ** C3: the playback driver *)







(** ** C9: the landing classifier *)

Lemma sameBucket_eq (a : option Z) (t : Z) : sameBucket a (Some t) = true -> a = Some t.
Proof.
  destruct a as [x|]; cbn; [|discriminate]. intro H. apply Z.eqb_eq in H. congruence.
Qed.



(** ** C5: a target without a bucket *)

Lemma landedBucketOf_range (x : Q) (l : list Bucket) :
  forall i j, landedBucketOf x l i = Some j -> (i < j <= i + Z.of_nat (length l))%Z.
Proof.
  induction l as [|bk l IH]; intros i j H; [discriminate|].
  cbn [landedBucketOf] in H. cbn [length]. rewrite Nat2Z.inj_succ.
  destruct (Qgeb x (bucketLeft bk) && Qleb x (bucketRight bk)).
  - injection H as <-. lia.
  - apply IH in H. lia.
Qed.

Lemma lookup1_None (A : Type) (l : list A) (k : Z) :
  lookup1 l k = None -> ~ (1 <= k <= Z.of_nat (length l))%Z.
Proof.
  unfold lookup1. destruct (1 <=? k)%Z eqn:E; intros H Hr.
  - apply nth_error_None in H. lia.
  - apply Z.leb_gt in E. lia.
Qed.

Section NoBucket.

Variable M : MathLib.
Variable rnd : nat -> Q.

Lemma searchPath_no_bucket (b : Board) (t : Z) :
  lookup1 (bucketLocations b) t = None ->
  forall n dur k, exists k', searchPath M rnd b t n dur k = (NotFound dur, k').
Proof.
  intros Hn. induction n as [|n IH]; intros dur k.
  - eexists. reflexivity.
  - cbn [searchPath]. unfold bind at 1.
    destruct (calculateInitialBallPosition rnd b k) as [x k1].
    unfold bind, generateAnimationPath. rewrite Hn. cbn [ret length Nat.ltb Nat.leb andb].
    destruct (landedBucketOf _ (bucketLocations b) 0) as [j|] eqn:El.
    + apply landedBucketOf_range in El. apply lookup1_None in Hn.
      assert (Hjt : (j =? t)%Z = false) by (apply Z.eqb_neq; lia).
      cbn [sameBucket]. rewrite Hjt. apply IH.
    + cbn [sameBucket]. apply IH.
Qed.

(** With a selected index that has no bucket, [handleDropBall] marks the
    game active, finds no path in 100 passes and throws on the missing
    bucket. *)
Lemma handleDropBall_no_bucket (now : Q) (g : Game) (t : Z) :
  selectedBucket g = Some t -> isGameActive g = false ->
  lookup1 (bucketLocations (board g)) t = None ->
  handleDropBall M rnd now g = Thrown (withDuration g true (animationDuration g)).
Proof.
  intros Hs Ha Hn. unfold handleDropBall. rewrite Hs, Ha.
  destruct (searchPath_no_bucket (board g) t Hn maxAttempts (animationDuration g) 0%nat)
    as [k' Hk].
  rewrite Hk, Hn. reflexivity.
Qed.

Lemma createBall_no_bucket (now : Q) (g : Game) :
  bucketAt (bucketLocations (board g)) (selectedBucket g) = None ->
  totalDrops (gameStats (stateOf (createBall M rnd now g)))
  = (totalDrops (gameStats g) + 1)%Z
  /\ targetBucket (stateOf (createBall M rnd now g)) = Some 3%Z
  /\ gameState (stateOf (createBall M rnd now g)) = dropping.
Proof.
  intro Hn. unfold createBall. rewrite Hn.
  destruct (calculateInitialBallPosition rnd (board g) 0%nat) as [x k].
  change (Qceiling (inject_Z (Z.of_nat bucketCount) / 2)) with 3%Z.
  destruct (bucketAt (bucketLocations (board g)) (Some 3%Z)) as [tb|].
  - destruct (random rnd k) as [r k1].
    destruct (fst (generateAnimationPath M rnd (board g) x _ 3 (animationDuration g) k1));
      cbn; repeat split; reflexivity.
  - cbn. repeat split; reflexivity.
Qed.

End NoBucket.

(** C5, counterexample.  After [initGame] on the 800 x 1040 board, with
    index 6 selected: [handleDropBall] leaves the game marked active, and
    [createBall] counts a drop and targets bucket 3. *)
Lemma C5_invalid_target_counterexample : ~ rejectsDrop mathUp draws8 0 selected6.
Proof.
  intros [H _].
  rewrite (handleDropBall_no_bucket mathUp draws8 0 selected6 6 eq_refl eq_refl) in H;
    [|vm_compute; reflexivity].
  apply (f_equal isGameActive) in H. discriminate H.
Qed.

(** C5, amended.  [handleDropBall] returns with the state unchanged when a
    drop is already active or no bucket is selected, and makes no check of
    the selected index against 1..5.  [createBall], when the selected index
    has no bucket, still starts the drop: it counts it in [totalDrops],
    sets the state to dropping and substitutes the middle bucket 3 as the
    target. *)
Theorem C5_drop_guards (M : MathLib) (rnd : nat -> Q) (now : Q) (g : Game) :
  (isGameActive g = true \/ selectedBucket g = None ->
   handleDropBall M rnd now g = Done g)
  /\ (bucketAt (bucketLocations (board g)) (selectedBucket g) = None ->
      totalDrops (gameStats (stateOf (createBall M rnd now g)))
      = (totalDrops (gameStats g) + 1)%Z
      /\ targetBucket (stateOf (createBall M rnd now g)) = Some 3%Z
      /\ gameState (stateOf (createBall M rnd now g)) = dropping).
Proof.
  split.
  - intros [H|H]; unfold handleDropBall.
    + destruct (selectedBucket g); [rewrite H|]; reflexivity.
    + rewrite H. reflexivity.
  - apply createBall_no_bucket.
Qed.

Lemma C5_drop_guards_witness :
  handleDropBall mathUp draws8 0 (initialGame board800) = Done (initialGame board800)
  /\ totalDrops (gameStats (stateOf (createBall mathUp draws8 0 selected6))) = (0 + 1)%Z
  /\ targetBucket (stateOf (createBall mathUp draws8 0 selected6)) = Some 3%Z
  /\ gameState (stateOf (createBall mathUp draws8 0 selected6)) = dropping.
Proof.
  split.
  - apply (C5_drop_guards mathUp draws8 0 (initialGame board800)). right. reflexivity.
  - apply (C5_drop_guards mathUp draws8 0 selected6). vm_compute. reflexivity.
Defined.

(** ** C10: the statistics *)

Lemma statsInv_initial (b : Board) : statsInv (initialGame b).
Proof. unfold statsInv. cbn. split; [lia|]. intros _. left. reflexivity. Qed.

Lemma statsInv_same (g g' : Game) :
  gameStats g' = gameStats g -> landingHandled g' = landingHandled g ->
  (ball g = None -> ball g' = None) ->
  statsInv g -> statsInv g'.
Proof.
  unfold statsInv. intros Hs Hl Hb [H1 H2]. rewrite Hs, Hl. split; [exact H1|].
  intro H. destruct (H2 H) as [H3|H3]; [left; apply Hb; exact H3|right; exact H3].
Qed.

Lemma statsInv_cleared (g g' : Game) :
  gameStats g' = gameStats g -> ball g' = None -> statsInv g -> statsInv g'.
Proof.
  unfold statsInv. intros Hs Hb [H1 _]. rewrite Hs. split; [exact H1|].
  intros _. left. exact Hb.
Qed.

Lemma statsInv_startDrop (g : Game) (t : Z) (now x : Q) (p : list Keyframe) :
  statsInv g -> statsInv (startDrop g t now x p).
Proof.
  unfold statsInv. cbn. intros [H1 _]. split; [lia|]. intros _. right. lia.
Qed.

Lemma statsInv_landing (g : Game) (bl : Ball) (n : option Z) (isT : bool) :
  ball g = Some bl -> statsInv g -> statsInv (handleBallLanding n isT g).
Proof.
  unfold statsInv, handleBallLanding. intros Hb [H1 H2].
  destruct (landingHandled g) eqn:Hl.
  - split; [exact H1|]. rewrite Hl. discriminate.
  - destruct (H2 eq_refl) as [H3|H3]; [congruence|].
    destruct isT; cbn; (split; [lia|discriminate]).
Qed.

Lemma statsInv_updateBallAnimation (currentTime : Q) (g : Game) :
  statsInv g -> statsInv (stateOf (updateBallAnimation currentTime g)).
Proof.
  intro H. unfold updateBallAnimation.
  destruct (ball g) as [bl|] eqn:Hb; [|exact H].
  destruct (animationPath g) as [p|]; [|exact H].
  destruct (negb (isGameActive g)); [exact H|].
  destruct (Qgeb _ _).
  - destruct p as [|a p']; [exact H|].
    set (g1 := withBall g _ _).
    assert (H1 : statsInv g1).
    { apply (statsInv_same g g1); try reflexivity; [|exact H].
      intro Hn. congruence. }
    assert (Hb1 : ball g1 = Some (moveBall bl (kf_x (lastKeyframe (a :: p')))
                                    (kf_y (lastKeyframe (a :: p'))))) by reflexivity.
    destruct (landingHandled g1).
    + apply (statsInv_same g1); try reflexivity; [|exact H1]. intro Hn. congruence.
    + destruct (negb _).
      * destruct (bucketAt _ _); [|exact H1].
        cbn [stateOf]. eapply (statsInv_same (handleBallLanding _ _ g1));
          try reflexivity; [intro Hn; exact Hn|].
        eapply statsInv_landing; [exact Hb1|exact H1].
      * cbn [stateOf]. eapply (statsInv_same (handleBallLanding _ _ g1));
          try reflexivity; [intro Hn; exact Hn|].
        eapply statsInv_landing; [exact Hb1|exact H1].
  - destruct (findSegment _ _ _) as [[s1|] [s2|]]; try exact H.
    cbn [stateOf]. apply (statsInv_same g); try reflexivity; [|exact H].
    intro Hn. congruence.
Qed.

Lemma statsInv_createBall (M : MathLib) (rnd : nat -> Q) (now : Q) (g : Game) :
  statsInv g -> statsInv (stateOf (createBall M rnd now g)).
Proof.
  intros [H1 _]. unfold createBall.
  destruct (calculateInitialBallPosition rnd (board g) 0%nat) as [x k].
  destruct (bucketAt (bucketLocations (board g)) (selectedBucket g)) as [tb0|].
  - destruct (bucketAt (bucketLocations (board g)) (selectedBucket g)) as [tb1|].
    + destruct (selectedBucket g) as [t|].
      * destruct (random rnd k) as [r k1].
        destruct (fst (generateAnimationPath M rnd (board g) x _ t (animationDuration g) k1));
          unfold statsInv; cbn; (split; [lia|intros _; right; lia]).
      * unfold statsInv; cbn; (split; [lia|intros _; right; lia]).
    + unfold statsInv; cbn; (split; [lia|intros _; right; lia]).
  - destruct (bucketAt (bucketLocations (board g)) _) as [tb1|].
    + destruct (random rnd k) as [r k1].
      destruct (fst (generateAnimationPath M rnd (board g) x _ _ (animationDuration g) k1));
        unfold statsInv; cbn; (split; [lia|intros _; right; lia]).
    + unfold statsInv; cbn; (split; [lia|intros _; right; lia]).
Qed.

Lemma statsInv_step (g g' : Game) : statsInv g -> Step g g' -> statsInv g'.
Proof.
  intros H Hstep. destruct Hstep.
  - unfold handleBucketSelection. destruct (isGameActive g); [exact H|].
    apply (statsInv_same g); try reflexivity; [intro Hn; exact Hn|exact H].
  - unfold handleDropBall. destruct (selectedBucket g) as [t|]; [|exact H].
    destruct (isGameActive g); [exact H|].
    assert (Hw : forall d, statsInv (withDuration g true d)).
    { intro d. apply (statsInv_same g); try reflexivity; [intro Hn; exact Hn|exact H]. }
    destruct (searchPath M rnd (board g) t maxAttempts (animationDuration g) 0%nat)
      as [[x p d|d|d] n].
    + cbn [stateOf]. apply statsInv_startDrop. apply Hw.
    + destruct (lookup1 _ t) as [tbk|]; [|apply Hw].
      destruct (random rnd n) as [r0 n0]. cbn [stateOf].
      apply statsInv_startDrop. apply Hw.
    + apply Hw.
  - apply statsInv_createBall. exact H.
  - unfold gameLoop.
    set (g1 := {| selectedBucket := selectedBucket g; isGameActive := isGameActive g;
                  gameState := gameState g; lastTimestamp := timestamp;
                  board := board g; ball := ball g; ballTrail := ballTrail g;
                  targetBucket := targetBucket g; gameStats := gameStats g;
                  animationPath := animationPath g;
                  animationStartTime := animationStartTime g;
                  animationDuration := animationDuration g;
                  landingHandled := landingHandled g |}).
    assert (H1 : statsInv g1).
    { apply (statsInv_same g); try reflexivity; [intro Hn; exact Hn|exact H]. }
    destruct (isGameActive g1); [|exact H1].
    apply statsInv_updateBallAnimation. exact H1.
  - unfold cleanupTimer. destruct (ball g) eqn:Hb; [|exact H].
    destruct (gameState g); try exact H.
    apply (statsInv_cleared g); try reflexivity. exact H.
  - unfold handleReset. destruct (_ || _); [|exact H].
    apply (statsInv_cleared g); try reflexivity. exact H.
  - rewrite resizeCanvas_state.
    apply (statsInv_same g); try reflexivity; [intro Hn; exact Hn|exact H].
Qed.

Lemma statsInv_reachable (g0 g : Game) : statsInv g0 -> Reachable g0 g -> statsInv g.
Proof.
  intros H0 Hr. induction Hr as [|g g' Hr IH Hs]; [exact H0|].
  exact (statsInv_step g g' IH Hs).
Qed.

(** C10.  In every state reached from the initial one by bucket
    selections, drops (through [handleDropBall] or [createBall]),
    animation frames, the clean-up timer, resets and resizes (a handler
    that throws included),
    [0 <= successfulDrops <= totalDrops].  A drop that starts adds exactly
    one to [totalDrops] and nothing to [successfulDrops];
    [handleBallLanding] adds at most one to [successfulDrops], sets
    [landingHandled], and changes nothing when [landingHandled] is already
    set. *)
Theorem C10_stats_bounds (b : Board) (g : Game) :
  Reachable (initialGame b) g ->
  (0 <= successfulDrops (gameStats g) <= totalDrops (gameStats g))%Z
  /\ (forall M rnd now t g',
        selectedBucket g = Some t -> isGameActive g = false ->
        handleDropBall M rnd now g = Done g' ->
        totalDrops (gameStats g') = (totalDrops (gameStats g) + 1)%Z
        /\ successfulDrops (gameStats g') = successfulDrops (gameStats g))
  /\ (forall n isT,
        landingHandled (handleBallLanding n isT g) = true
        /\ totalDrops (gameStats (handleBallLanding n isT g)) = totalDrops (gameStats g)
        /\ (successfulDrops (gameStats g)
            <= successfulDrops (gameStats (handleBallLanding n isT g))
            <= successfulDrops (gameStats g) + 1)%Z
        /\ (landingHandled g = true -> handleBallLanding n isT g = g)).
Proof.
  intro Hr. split; [|split].
  - apply (statsInv_reachable (initialGame b) g (statsInv_initial b) Hr).
  - intros M rnd now t g' Hs Ha. unfold handleDropBall. rewrite Hs, Ha.
    destruct (searchPath M rnd (board g) t maxAttempts (animationDuration g) 0%nat)
      as [[x p d|d|d] n].
    + intro E. apply (f_equal stateOf) in E. cbn [stateOf] in E. subst g'.
      split; reflexivity.
    + destruct (lookup1 _ t) as [tbk|]; [|discriminate].
      destruct (random rnd n) as [r0 n0].
      intro E. apply (f_equal stateOf) in E. cbn [stateOf] in E. subst g'.
      split; reflexivity.
    + discriminate.
  - intros n isT. unfold handleBallLanding. destruct (landingHandled g) eqn:Hl.
    + repeat split; try reflexivity; try lia. exact Hl.
    + destruct isT; cbn; repeat split; try reflexivity; try lia; discriminate.
Qed.

(** * Further properties of the code *)

(** ** Concrete runs on the 100 x 130 board, continued *)

Lemma unitDraws_draws8 : unitDraws draws8.
Proof. exact draws8_range. Qed.

Lemma unitDraws_drawsStraight : unitDraws drawsStraight.
Proof.
  intro n. unfold drawsStraight.
  do 8 (destruct n as [|n]; [cbn [nth]; split; lra|]). destruct n; cbn [nth]; split; lra.
Qed.

Lemma unitDraws_drawsDrop : unitDraws drawsDrop.
Proof.
  intro n. destruct n as [|[|m]]; cbn [drawsDrop]; [split; lra|split; lra|].
  apply unitDraws_drawsStraight.
Qed.

(** More of the run of [run_straight]: it has at least three keyframes and
    its second-to-last keyframe is 7 px from the centre of bucket 1. *)
Lemma run_straight_far (M : MathLib) :
  match attemptZ M drawsStraight zone100 board100 (bucketOf board100 1) 3 6.5 1
          (2500 + drawsStraight 0 * 1000) 0 false 0 1 with
  | Some (s, k) =>
      isValidPath s
      && (3 <=? length (path s))%nat
      && Qltb (canvas_width (canvas board100) / inject_Z (Z.of_nat bucketCount) * 0.3)
              (Qabs (bucket_x (bucketOf board100 1)
                     - kf_x (lastKeyframe (removelast (path s)))))
  | None => false
  end = true.
Proof. vm_compute. reflexivity. Qed.

Lemma straight_returned_far (M : MathLib) :
  sqrt_lower M ->
  exists (p : list Keyframe) (d : Q) (k : nat),
    generateAnimationPath M drawsStraight board100 3 6.5 1 0 0%nat = (Returned p d, k)
    /\ (3 <= length p)%nat
    /\ canvas_width (canvas board100) / inject_Z (Z.of_nat bucketCount) * 0.3
       < Qabs (bucket_x (bucketOf board100 1) - kf_x (lastKeyframe (removelast p))).
Proof.
  intro Hs. pose proof (run_straight_far M) as H.
  match type of H with
  | match ?t with _ => _ end = _ => destruct t as [[s k]|] eqn:E; [|discriminate]
  end.
  repeat (apply andb_true_iff in H; destruct H as [H ?]).
  apply (attemptZ_sound M drawsStraight zone100 board100 Hs zone100_clear) in E.
  exists (path s), (animDuration s), k.
  rewrite (gen_unfold M drawsStraight board100 (bucketOf board100 1) 3 6.5 1 0 0
             board100_bucket1).
  rewrite (retry_first_valid M drawsStraight _ _ _ _ _ _ _ _ _ _ _ s k E H).
  cbn [fst snd]. rewrite H. split; [reflexivity|]. split.
  - apply Nat.leb_le. assumption.
  - apply Qltb_lt. assumption.
Qed.

(** The attempt that a click on Drop makes under [drawsDrop]. *)
Lemma run_drop (M : MathLib) :
  match attemptZ M drawsDrop zone100 board100 (bucketOf board100 1)
          3 (canvas_height (canvas board100) * 0.05) 1
          (2500 + drawsDrop 2 * 1000) 0 false 0 3 with
  | Some (s, k) =>
      isValidPath s
      && (1 <? length (path s))%nat
      && sameBucket (landedBucketOf (kf_x (lastKeyframe (path s)))
                       (bucketLocations board100) 0) (Some 1%Z)
  | None => false
  end = true.
Proof. vm_compute. reflexivity. Qed.

Lemma start_drop : calculateInitialBallPosition drawsDrop board100 0%nat = (3, 2%nat).
Proof. vm_compute. reflexivity. Qed.

Lemma drop_straight (M : MathLib) (now : Q) :
  sqrt_lower M -> exists g', handleDropBall M drawsDrop now selected1 = Done g'.
Proof.
  intro Hs. pose proof (run_drop M) as H.
  match type of H with
  | match ?t with _ => _ end = _ => destruct t as [[s k]|] eqn:E; [|discriminate]
  end.
  repeat (apply andb_true_iff in H; destruct H as [H ?]).
  apply (attemptZ_sound M drawsDrop zone100 board100 Hs zone100_clear) in E.
  unfold handleDropBall.
  change (selectedBucket selected1) with (Some 1%Z).
  change (isGameActive selected1) with false.
  change (board selected1) with board100.
  change maxAttempts with (S 99). cbn [searchPath]. unfold bind at 1.
  rewrite start_drop. unfold bind at 1.
  rewrite (gen_unfold M drawsDrop board100 (bucketOf board100 1) 3 _ 1 _ 2
             board100_bucket1).
  rewrite (retry_first_valid M drawsDrop _ _ _ _ _ _ _ _ _ _ _ s k E H).
  cbn [fst snd]. rewrite H.
  match goal with
  | H1 : (1 <? _)%nat = true, H2 : sameBucket _ _ = true |- _ => rewrite H1, H2
  end.
  cbn [andb ret]. eexists. reflexivity.
Qed.

(** ** The shape of a synthesized path *)

Lemma notLater_trans (a b c : Keyframe) : notLater a b -> notLater b c -> notLater a c.
Proof. unfold notLater. intros. lra. Qed.

Lemma nondecreasing_snoc (l : list Keyframe) (a : Keyframe) :
  nondecreasingTimes l -> (l <> [] -> notLater (lastKeyframe l) a) ->
  nondecreasingTimes (l ++ [a]).
Proof.
  unfold nondecreasingTimes, lastKeyframe. induction l as [|x l IH]; intros Hs Hl.
  - simpl. constructor; constructor.
  - inversion Hs as [|x' l' Hs' Hall]; subst. simpl. constructor.
    + apply IH; [exact Hs'|]. intro Hne. destruct l as [|y l]; [contradiction|].
      apply Hl. discriminate.
    + apply Forall_app. split.
      * exact Hall.
      * constructor; [|constructor]. destruct l as [|y l].
        -- apply Hl. discriminate.
        -- assert (Hlast : notLater (last (x :: y :: l) {| kf_x := 0; kf_y := 0; kf_time := 0 |}) a)
             by (apply Hl; discriminate).
           assert (Hx : notLater x (last (y :: l) {| kf_x := 0; kf_y := 0; kf_time := 0 |})).
           { rewrite Forall_forall in Hall. apply Hall.
             destruct (@exists_last _ (y :: l)) as (l0 & z & E); [discriminate|].
             rewrite E, last_last. apply in_or_app. right. left. reflexivity. }
           eapply notLater_trans; [exact Hx|exact Hlast].
Qed.

Lemma increasing_nondecreasing (l : list Keyframe) :
  increasingTimes l -> nondecreasingTimes l.
Proof.
  unfold increasingTimes, nondecreasingTimes. induction 1 as [|a l Hs IH Hall]; constructor.
  - exact IH.
  - eapply Forall_impl; [|exact Hall]. intros b Hb. unfold earlier, notLater in *. lra.
Qed.

Section Shape.

Variable M : MathLib.
Variable rnd : nat -> Q.
Variable b : Board.
Variable tb : Bucket.
Variables startX startY total : Q.
Hypothesis Htotal : 0 < total.

(** What iteration [i] does to the path, the landing height and the
    duration. *)
Lemma step_shape (i : nat) (s3 : Sim) :
  let time := inject_Z (Z.of_nat i) * (total / inject_Z (Z.of_nat steps)) in
  let r := stepAfterCollide M b tb startY total i s3 in
  (snd r = true /\ exists kf,
      path (fst r) = path s3 ++ [kf] /\ animDuration (fst r) = kf_time kf
      /\ kf_y kf = bucket_y tb
      /\ (kf_time (lastKeyframe (path s3)) <= time ->
          kf_time (lastKeyframe (path s3)) <= kf_time kf <= time))
  \/ (snd r = false /\ (i < steps)%nat /\ exists kf,
         path (fst r) = path s3 ++ [kf] /\ kf_time kf == time)
  \/ (snd r = false /\ ~ (i < steps)%nat /\ animDuration (fst r) = total
      /\ ((exists kf, path (fst r) = path s3 ++ [kf] /\ kf_time kf = total
                      /\ kf_y kf = bucket_y tb)
          \/ (path (fst r) = path s3
              /\ bucket_y tb <= kf_y (lastKeyframe (path s3))))).
Proof.
  intros time r. subst r. unfold stepAfterCollide.
  destruct (if Qltb (currentX s3 + currentVx s3 * 0.985 * (total / inject_Z (Z.of_nat steps) / 16.0)
                     - ballRadius (config b)) 0
            then (ballRadius (config b), currentVx s3 * 0.985 * -0.6)
            else if Qgtb (currentX s3 + currentVx s3 * 0.985 * (total / inject_Z (Z.of_nat steps) / 16.0)
                          + ballRadius (config b)) (canvas_width (canvas b))
                 then (canvas_width (canvas b) - ballRadius (config b), currentVx s3 * 0.985 * -0.6)
                 else (currentX s3 + currentVx s3 * 0.985 * (total / inject_Z (Z.of_nat steps) / 16.0),
                       currentVx s3 * 0.985)) as [x6 vx6].
  match goal with |- context [Qgeb ?v (bucket_y tb)] => set (y6 := v) end.
  fold time.
  destruct (Qgeb y6 (bucket_y tb)) eqn:Hland.
  - left. cbn [fst snd]. split; [reflexivity|].
    eexists. split; [reflexivity|]. cbn [kf_time kf_y]. split; [reflexivity|].
    split; [reflexivity|].
    intro Hprev. rewrite num_eq.
    set (prev := lastKeyframe (path s3)) in *.
    set (t := if Qeq_bool (y6 - kf_y prev) 0 then 1
              else Qmax 0 (Qmin 1 ((bucket_y tb - kf_y prev) / (y6 - kf_y prev)))).
    assert (Ht : 0 <= t <= 1).
    { subst t. destruct (Qeq_bool (y6 - kf_y prev) 0); [lra|]. split.
      - apply Q.le_max_l.
      - apply Q.max_lub; [lra|apply Q.le_min_l]. }
    assert (0 <= (time - kf_time prev) * t) by (apply Qmult_le_0_compat; lra).
    assert (0 <= (time - kf_time prev) * (1 - t)) by (apply Qmult_le_0_compat; lra).
    lra.
  - right. cbn [fst snd]. destruct (i <? steps)%nat eqn:Hi.
    + left. split; [reflexivity|]. split; [apply Nat.ltb_lt; exact Hi|].
      eexists. split; [reflexivity|]. cbn [kf_time]. apply num_eq.
    + right. split; [reflexivity|]. split; [apply Nat.ltb_ge in Hi; lia|].
      split; [reflexivity|].
      destruct (Qltb (kf_y (lastKeyframe (path s3))) (bucket_y tb)) eqn:Hy.
      * left. eexists. split; [reflexivity|]. split; reflexivity.
      * right. split; [reflexivity|]. apply Qltb_ge. exact Hy.
Qed.

Lemma simStep_shape (i : nat) (s : Sim) (k : nat) :
  let time := inject_Z (Z.of_nat i) * (total / inject_Z (Z.of_nat steps)) in
  let r := fst (simStep M rnd b tb startY total i s k) in
  (snd r = true /\ exists kf,
      path (fst r) = path s ++ [kf] /\ animDuration (fst r) = kf_time kf
      /\ kf_y kf = bucket_y tb
      /\ (kf_time (lastKeyframe (path s)) <= time ->
          kf_time (lastKeyframe (path s)) <= kf_time kf <= time))
  \/ (snd r = false /\ (i < steps)%nat /\ exists kf,
         path (fst r) = path s ++ [kf] /\ kf_time kf == time)
  \/ (snd r = false /\ ~ (i < steps)%nat /\ animDuration (fst r) = total
      /\ ((exists kf, path (fst r) = path s ++ [kf] /\ kf_time kf = total
                      /\ kf_y kf = bucket_y tb)
          \/ (path (fst r) = path s
              /\ bucket_y tb <= kf_y (lastKeyframe (path s))))).
Proof.
  intros time r. subst r. unfold simStep, bind. subst time.
  set (time := inject_Z (Z.of_nat i) * (total / inject_Z (Z.of_nat steps))) in *.
  pose proof (collide_keeps M rnd (config b) time (pegLocations b)
                (applyForces tb total i s) k) as [Hp _].
  destruct (forEachR (collidePeg M rnd (config b) time) (pegLocations b)
              (applyForces tb total i s) k) as [s3 k3].
  cbn [fst] in Hp.
  change (path (applyForces tb total i s)) with (path s) in Hp.
  cbn [ret fst]. rewrite <- Hp in *.
  apply (step_shape i s3).
Qed.

Lemma Forall_snoc (A : Type) (P : A -> Prop) (l : list A) (a : A) :
  Forall P l -> P a -> Forall P (l ++ [a]).
Proof. intros Hl Ha. apply Forall_app. split; [exact Hl|constructor; [exact Ha|constructor]]. Qed.

Lemma simLoop_shape (n : nat) :
  forall (i : nat) (s : Sim) (k : nat),
    (i + n = S steps)%nat -> (1 <= n)%nat -> (1 <= i)%nat ->
    pathInv startX startY total i s ->
    Forall (fun kf => 0 <= kf_time kf <= total) (path s) ->
    pathShape startX startY total tb (fst (simLoop M rnd b tb startY total n i s k)).
Proof.
  pose proof (timeStep_pos total Htotal) as Hts.
  assert (Etot : total == inject_Z (Z.of_nat steps) * (total / inject_Z (Z.of_nat steps))).
  { field. discriminate. }
  induction n as [|n IH]; intros i s k Hin Hn Hi (Hhd & Hinc & Hlast & Hlen) Hall; [lia|].
  cbn [simLoop]. unfold bind.
  assert (Hile : inject_Z (Z.of_nat i) * (total / inject_Z (Z.of_nat steps)) <= total).
  { rewrite Etot at 2. apply Qmult_le_compat_r; [|lra]. rewrite <- Zle_Qle. lia. }
  assert (Htime : kf_time (lastKeyframe (path s))
                  < inject_Z (Z.of_nat i) * (total / inject_Z (Z.of_nat steps))).
  { rewrite Hlast. apply Qmult_lt_compat_r; [exact Hts|].
    rewrite <- Zlt_Qlt. lia. }
  assert (Hlast0 : 0 <= kf_time (lastKeyframe (path s))).
  { rewrite Hlast. apply Qmult_le_0_compat; [|lra].
    change 0 with (inject_Z 0). rewrite <- Zle_Qle. lia. }
  pose proof (simStep_shape i s k) as Hc.
  destruct (simStep M rnd b tb startY total i s k) as [[s' brk] k'].
  cbn [fst snd] in *.
  assert (Hne : path s <> []) by (destruct Hhd as [rest ->]; discriminate).
  destruct Hc as [(Hb & kf & Hp & Hd & Hy & Ht) | [(Hb & Hlt & kf & Hp & Ht)
                 | (Hb & Hge & Hd & Hp)]]; subst brk.
  - (* landed *)
    cbn [ret fst]. unfold pathShape. rewrite Hp.
    assert (Ht' := Ht (Qlt_le_weak _ _ Htime)).
    rewrite lastKeyframe_snoc, length_app. cbn [length].
    split; [destruct Hhd as [rest ->]; eexists; reflexivity|].
    split; [lia|].
    split; [apply nondecreasing_snoc;
            [apply increasing_nondecreasing; exact Hinc|intros _; unfold notLater; lra]|].
    split; [apply Forall_snoc; [exact Hall|lra]|].
    split; [rewrite Hy; lra|]. split; [intros _; exact Hy|]. rewrite Hd. lra.
  - (* a recorded step *)
    destruct n as [|n]; [lia|].
    apply IH; [lia|lia|lia| |].
    + unfold pathInv. rewrite Hp. split; [|split; [|split]].
      * destruct Hhd as [rest ->]. eexists. reflexivity.
      * apply increasing_snoc; [exact Hinc|]. intros _. unfold earlier. rewrite Ht.
        exact Htime.
      * rewrite lastKeyframe_snoc, Ht. replace (S i - 1)%nat with i by lia. reflexivity.
      * rewrite length_app. cbn [length]. lia.
    + rewrite Hp. apply Forall_snoc; [exact Hall|]. rewrite Ht. lra.
  - (* the last step, not landed *)
    assert (Hi150 : i = steps) by lia. assert (Hn0 : n = 0%nat) by lia. subst n.
    cbn [simLoop ret fst]. unfold pathShape. rewrite Hd.
    destruct Hp as [(kf & Hp & Ht & Hy) | [Hp Hy]]; rewrite Hp.
    + rewrite lastKeyframe_snoc, length_app. cbn [length].
      split; [destruct Hhd as [rest ->]; eexists; reflexivity|].
      split; [lia|].
      split; [apply nondecreasing_snoc;
              [apply increasing_nondecreasing; exact Hinc|intros _; unfold notLater; rewrite Ht; lra]|].
      split; [apply Forall_snoc; [exact Hall|rewrite Ht; lra]|].
      split; [rewrite Hy; lra|]. split; [intros _; exact Hy|]. lra.
    + split; [exact Hhd|]. split; [unfold steps in *; lia|].
      split; [apply increasing_nondecreasing; exact Hinc|].
      split; [exact Hall|]. split; [exact Hy|]. split; [intro Hx; congruence|]. lra.
Qed.

Lemma attempt_shape (t : Z) (retries : nat) (v : bool) (d : Q) (k : nat) :
  pathShape startX startY total tb
    (fst (attempt M rnd b tb startX startY t total retries v d k)).
Proof.
  unfold attempt. unfold bind at 1.
  pose proof (initAttempt_path rnd b tb startX startY t retries v d k) as Hp0.
  destruct (initAttempt rnd b tb startX startY t retries v d k) as [s0 k0].
  cbn [fst] in Hp0. unfold bind.
  pose proof (simLoop_shape steps 1 s0 k0) as Hpost.
  destruct (simLoop M rnd b tb startY total steps 1 s0 k0) as [s1 k1].
  cbn [ret fst] in *.
  assert (H : pathShape startX startY total tb s1).
  { apply Hpost; [reflexivity|unfold steps; lia|lia| |].
    - unfold pathInv. rewrite Hp0. split; [|split; [|split]].
      + eexists. reflexivity.
      + unfold increasingTimes. constructor; constructor.
      + cbn. ring.
      + reflexivity.
    - rewrite Hp0. constructor; [cbn [kf_time]; lra|constructor]. }
  exact H.
Qed.

End Shape.

Section Returned.

Variable M : MathLib.
Variable rnd : nat -> Q.

(** A returned path is the path of an attempt that the validation
    accepted. *)
Lemma returned_attempt (b : Board) (tb : Bucket) (startX startY : Q) (t : Z) (dur0 : Q)
    (k : nat) (p : list Keyframe) (d : Q) (k' : nat) :
  lookup1 (bucketLocations b) t = Some tb ->
  generateAnimationPath M rnd b startX startY t dur0 k = (Returned p d, k') ->
  exists retries v d0 k0,
    path (fst (attempt M rnd b tb startX startY t (2500 + rnd k * 1000) retries v d0 k0)) = p
    /\ animDuration (fst (attempt M rnd b tb startX startY t (2500 + rnd k * 1000)
                            retries v d0 k0)) = d
    /\ isValidPath (fst (attempt M rnd b tb startX startY t (2500 + rnd k * 1000)
                           retries v d0 k0)) = true.
Proof.
  intros Hlook Hgen.
  rewrite (gen_unfold M rnd b tb startX startY t dur0 k Hlook) in Hgen. cbv zeta in Hgen.
  destruct (retryLoop_attempt M rnd b tb startX startY t (2500 + rnd k * 1000)
              (maxRetries - 1) 0%nat false dur0 (S k)) as (r' & v' & d' & k0 & Hs).
  exists r', v', d', k0. rewrite <- Hs.
  destruct (isValidPath _) eqn:Hv; [|discriminate].
  injection Hgen as Hp Hd _. auto.
Qed.

Lemma returned_shape (b : Board) (tb : Bucket) (startX startY : Q) (t : Z) (dur0 : Q)
    (k : nat) (p : list Keyframe) (d : Q) (k' : nat) :
  unitDraws rnd ->
  lookup1 (bucketLocations b) t = Some tb ->
  generateAnimationPath M rnd b startX startY t dur0 k = (Returned p d, k') ->
  exists s, pathShape startX startY (2500 + rnd k * 1000) tb s
            /\ path s = p /\ animDuration s = d.
Proof.
  intros Hrnd Hlook Hgen.
  destruct (returned_attempt b tb startX startY t dur0 k p d k' Hlook Hgen)
    as (r' & v' & d' & k0 & Hp & Hd & _).
  eexists. split; [|split; [exact Hp|exact Hd]].
  apply attempt_shape. destruct (Hrnd k). lra.
Qed.

Lemma validate_direction (b : Board) (tb : Bucket) (t : Z) (s : Sim) :
  validate b tb t s = true ->
  (3 <= length (path s))%nat ->
  canvas_width (canvas b) / inject_Z (Z.of_nat bucketCount) * 0.3
  < Qabs (bucket_x tb - kf_x (lastKeyframe (removelast (path s)))) ->
  0 <= (kf_x (lastKeyframe (path s)) - kf_x (lastKeyframe (removelast (path s))))
       * (bucket_x tb - kf_x (lastKeyframe (removelast (path s)))).
Proof.
  unfold validate. intros Hv Hlen Hfar.
  destruct (isEdgeBucket t && hitWall s && (hitCount s <? minHitsForEdge)%Z).
  - cbn [andb] in Hv. discriminate.
  - apply Nat.leb_le in Hlen. rewrite Hlen in Hv. cbn [andb] in Hv.
    set (fv := kf_x (lastKeyframe (path s)) - kf_x (lastKeyframe (removelast (path s)))) in *.
    set (nd := bucket_x tb - kf_x (lastKeyframe (removelast (path s)))) in *.
    apply Qgtb_gt in Hfar. rewrite Hfar in Hv. cbn [andb] in Hv.
    unfold Msign in Hv.
    destruct (Qltb 0 fv) eqn:E1; [apply Qltb_lt in E1|apply Qltb_ge in E1].
    + cbn in Hv. destruct (Qltb 0 nd) eqn:E2; [apply Qltb_lt in E2|apply Qltb_ge in E2].
      * apply Qmult_le_0_compat; lra.
      * destruct (Qltb nd 0); discriminate.
    + destruct (Qltb fv 0) eqn:E3; [apply Qltb_lt in E3|apply Qltb_ge in E3].
      * cbn in Hv. destruct (Qltb 0 nd) eqn:E2; [discriminate|apply Qltb_ge in E2].
        destruct (Qltb nd 0) eqn:E4; [apply Qltb_lt in E4|discriminate].
        assert (0 <= (- fv) * (- nd)) by (apply Qmult_le_0_compat; lra). lra.
      * assert (fv == 0) by lra. 
        assert (E : fv * nd == 0) by (rewrite H; ring). rewrite E. lra.
Qed.

End Returned.

(** ** C4, amended: the keyframe times of a returned trajectory *)

(** C4, amended.  For a target that has a bucket and draws in [0, 1),
    every trajectory returned by [generateAnimationPath] starts with the
    start point at time 0; its keyframe times never decrease, and increase
    strictly up to the keyframe before the last (the last keyframe, the
    landing point, is interpolated between the last recorded step and the
    current one and may share the time of that step); and
    [animationDuration] equals the time of the last keyframe unless the
    trajectory has exactly 150 keyframes (the shape in which the simulation
    can run out of steps without adding a landing keyframe). *)
Theorem C4_times_never_decrease (M : MathLib) (rnd : nat -> Q) (b : Board) (tb : Bucket)
    (startX startY : Q) (t : Z) (dur0 : Q) (k : nat)
    (p : list Keyframe) (d : Q) (k' : nat) :
  unitDraws rnd ->
  lookup1 (bucketLocations b) t = Some tb ->
  generateAnimationPath M rnd b startX startY t dur0 k = (Returned p d, k') ->
  (exists rest, p = {| kf_x := startX; kf_y := startY; kf_time := 0 |} :: rest)
  /\ nondecreasingTimes p
  /\ increasingTimes (removelast p)
  /\ (length p <> steps -> d = kf_time (lastKeyframe p)).
Proof.
  intros Hrnd Hlook Hgen.
  assert (Htot : 0 < 2500 + rnd k * 1000) by (destruct (Hrnd k); lra).
  destruct (returned_shape M rnd b tb startX startY t dur0 k p d k' Hrnd Hlook Hgen)
    as (s & Hshape & Hps & _).
  destruct (returned_attempt M rnd b tb startX startY t dur0 k p d k' Hlook Hgen)
    as (r' & v' & d' & k0 & Hp & Hd & _).
  pose proof (attempt_post M rnd b tb startX startY (2500 + rnd k * 1000) Htot
                t r' v' d' k0) as (H1 & H2 & H3).
  rewrite Hp in H1, H2, H3. rewrite Hd in H3.
  split; [exact H1|]. split; [|split; [exact H2|exact H3]].
  rewrite <- Hps. apply Hshape.
Qed.

Lemma C4_times_never_decrease_witness :
  exists (p : list Keyframe) (d : Q) (k : nat),
    generateAnimationPath mathUp drawsStraight board100 3 6.5 1 0 0%nat = (Returned p d, k)
    /\ (exists rest, p = {| kf_x := 3; kf_y := 6.5; kf_time := 0 |} :: rest)
    /\ nondecreasingTimes p
    /\ increasingTimes (removelast p)
    /\ d = kf_time (lastKeyframe p).
Proof.
  destruct (straight_returned mathUp sqrt_lower_mathUp) as (p & d & k & Hg & _ & _ & Hlen).
  exists p, d, k. split; [exact Hg|].
  destruct (C4_times_never_decrease mathUp drawsStraight board100 (bucketOf board100 1)
              3 6.5 1 0 0%nat p d k unitDraws_drawsStraight board100_bucket1 Hg)
    as (H1 & H2 & H3 & H4).
  split; [exact H1|]. split; [exact H2|]. split; [exact H3|exact (H4 Hlen)].
Defined.

(** ** C8, amended: the edge-bucket gate along the path *)

Section Gate.

Variable M : MathLib.
Variable rnd : nat -> Q.
Variable b : Board.
Variable tb : Bucket.
Variables startX startY total : Q.







End Gate.







(** X1.  Every trajectory that [generateAnimationPath] returns has at
    least 2 and at most 151 keyframes (draws in [0, 1)): the
    [testPath.length > 1] guard of [handleDropBall] never fails, and the
    playback driver is never handed a path of a single keyframe by the
    synthesizer. *)
Theorem returned_path_length (M : MathLib) (rnd : nat -> Q) (b : Board)
    (startX startY : Q) (t : Z) (dur0 : Q) (k : nat)
    (p : list Keyframe) (d : Q) (k' : nat) :
  unitDraws rnd ->
  generateAnimationPath M rnd b startX startY t dur0 k = (Returned p d, k') ->
  (2 <= length p <= S steps)%nat.
Proof.
  intros Hrnd Hgen.
  destruct (lookup1 (bucketLocations b) t) as [tb|] eqn:Hlook.
  - destruct (returned_shape M rnd b tb startX startY t dur0 k p d k' Hrnd Hlook Hgen)
      as (s & Hs & Hp & _).
    rewrite <- Hp. apply Hs.
  - unfold generateAnimationPath in Hgen. rewrite Hlook in Hgen.
    injection Hgen as <- _ _. cbn [length]. unfold steps. lia.
Qed.

Lemma returned_path_length_witness :
  exists (p : list Keyframe) (d : Q) (k : nat),
    generateAnimationPath mathUp drawsStraight board100 3 6.5 1 0 0%nat = (Returned p d, k)
    /\ (2 <= length p <= S steps)%nat.
Proof.
  destruct (straight_returned mathUp sqrt_lower_mathUp) as (p & d & k & Hg & _).
  exists p, d, k. split; [exact Hg|].
  exact (returned_path_length mathUp drawsStraight board100 3 6.5 1 0 0%nat p d k
           unitDraws_drawsStraight Hg).
Defined.

(** X2.  For a target that has a bucket, the last keyframe of every
    returned trajectory is at or below the bucket top, and exactly at the
    bucket top unless the trajectory has exactly 150 keyframes. *)
Theorem returned_path_reaches_bucket_top (M : MathLib) (rnd : nat -> Q) (b : Board)
    (tb : Bucket) (startX startY : Q) (t : Z) (dur0 : Q) (k : nat)
    (p : list Keyframe) (d : Q) (k' : nat) :
  unitDraws rnd ->
  lookup1 (bucketLocations b) t = Some tb ->
  generateAnimationPath M rnd b startX startY t dur0 k = (Returned p d, k') ->
  bucket_y tb <= kf_y (lastKeyframe p)
  /\ (length p <> steps -> kf_y (lastKeyframe p) = bucket_y tb).
Proof.
  intros Hrnd Hlook Hgen.
  destruct (returned_shape M rnd b tb startX startY t dur0 k p d k' Hrnd Hlook Hgen)
    as (s & Hs & Hp & _).
  rewrite <- Hp. split; apply Hs.
Qed.

Lemma returned_path_reaches_bucket_top_witness :
  exists (p : list Keyframe) (d : Q) (k : nat),
    generateAnimationPath mathUp drawsStraight board100 3 6.5 1 0 0%nat = (Returned p d, k)
    /\ bucket_y (bucketOf board100 1) <= kf_y (lastKeyframe p)
    /\ (length p <> steps -> kf_y (lastKeyframe p) = bucket_y (bucketOf board100 1)).
Proof.
  destruct (straight_returned mathUp sqrt_lower_mathUp) as (p & d & k & Hg & _).
  exists p, d, k. split; [exact Hg|].
  exact (returned_path_reaches_bucket_top mathUp drawsStraight board100
           (bucketOf board100 1) 3 6.5 1 0 0%nat p d k
           unitDraws_drawsStraight board100_bucket1 Hg).
Defined.

(** X3.  For a target that has a bucket and draws in [0, 1), the
    keyframe times of every returned trajectory never decrease, all lie
    between 0 and the fall time [2500 + r * 1000] drawn at the start of the
    call, which is at most 3500 ms; so does [animationDuration]. *)
Theorem returned_path_times (M : MathLib) (rnd : nat -> Q) (b : Board)
    (tb : Bucket) (startX startY : Q) (t : Z) (dur0 : Q) (k : nat)
    (p : list Keyframe) (d : Q) (k' : nat) :
  unitDraws rnd ->
  lookup1 (bucketLocations b) t = Some tb ->
  generateAnimationPath M rnd b startX startY t dur0 k = (Returned p d, k') ->
  nondecreasingTimes p
  /\ Forall (fun kf => 0 <= kf_time kf <= 2500 + rnd k * 1000) p
  /\ 0 <= d <= 2500 + rnd k * 1000
  /\ 2500 + rnd k * 1000 <= 3500.
Proof.
  intros Hrnd Hlook Hgen.
  destruct (returned_shape M rnd b tb startX startY t dur0 k p d k' Hrnd Hlook Hgen)
    as (s & Hs & Hp & Hd).
  rewrite <- Hp, <- Hd. split; [apply Hs|]. split; [apply Hs|]. split; [apply Hs|].
  destruct (Hrnd k). lra.
Qed.

Lemma returned_path_times_witness :
  exists (p : list Keyframe) (d : Q) (k : nat),
    generateAnimationPath mathUp drawsStraight board100 3 6.5 1 0 0%nat = (Returned p d, k)
    /\ nondecreasingTimes p
    /\ Forall (fun kf => 0 <= kf_time kf <= 2500 + drawsStraight 0 * 1000) p
    /\ 0 <= d <= 2500 + drawsStraight 0 * 1000
    /\ 2500 + drawsStraight 0 * 1000 <= 3500.
Proof.
  destruct (straight_returned mathUp sqrt_lower_mathUp) as (p & d & k & Hg & _).
  exists p, d, k. split; [exact Hg|].
  exact (returned_path_times mathUp drawsStraight board100
           (bucketOf board100 1) 3 6.5 1 0 0%nat p d k
           unitDraws_drawsStraight board100_bucket1 Hg).
Defined.

(** X4.  A returned trajectory of at least 3 keyframes never ends moving
    away from the target: when its second-to-last keyframe is more than 30%
    of a bucket width ([canvas.width / 5 * 0.3]) from the target centre,
    the last segment is vertical or moves toward that centre. *)
Theorem returned_path_final_direction (M : MathLib) (rnd : nat -> Q) (b : Board)
    (tb : Bucket) (startX startY : Q) (t : Z) (dur0 : Q) (k : nat)
    (p : list Keyframe) (d : Q) (k' : nat) :
  lookup1 (bucketLocations b) t = Some tb ->
  generateAnimationPath M rnd b startX startY t dur0 k = (Returned p d, k') ->
  (3 <= length p)%nat ->
  canvas_width (canvas b) / inject_Z (Z.of_nat bucketCount) * 0.3
  < Qabs (bucket_x tb - kf_x (lastKeyframe (removelast p))) ->
  0 <= (kf_x (lastKeyframe p) - kf_x (lastKeyframe (removelast p)))
       * (bucket_x tb - kf_x (lastKeyframe (removelast p))).
Proof.
  intros Hlook Hgen Hlen Hfar.
  destruct (returned_attempt M rnd b tb startX startY t dur0 k p d k' Hlook Hgen)
    as (r' & v' & d' & k0 & Hp & _ & Hv).
  revert Hp Hv. unfold attempt. unfold bind at 1 3.
  destruct (initAttempt rnd b tb startX startY t r' v' d' k0) as [s0 k1].
  unfold bind. destruct (simLoop M rnd b tb startY _ steps 1 s0 k1) as [s1 k2].
  cbn [ret fst withValid path isValidPath]. intros Hp Hv. subst p.
  exact (validate_direction b tb t s1 Hv Hlen Hfar).
Qed.

Lemma returned_path_final_direction_witness :
  exists (p : list Keyframe) (d : Q) (k : nat),
    generateAnimationPath mathUp drawsStraight board100 3 6.5 1 0 0%nat = (Returned p d, k)
    /\ 0 <= (kf_x (lastKeyframe p) - kf_x (lastKeyframe (removelast p)))
            * (bucket_x (bucketOf board100 1) - kf_x (lastKeyframe (removelast p))).
Proof.
  destruct (straight_returned_far mathUp sqrt_lower_mathUp) as (p & d & k & Hg & Hlen & Hfar).
  exists p, d, k. split; [exact Hg|].
  exact (returned_path_final_direction mathUp drawsStraight board100
           (bucketOf board100 1) 3 6.5 1 0 0%nat p d k board100_bucket1 Hg Hlen Hfar).
Defined.

(** ** The landing classifier *)

Lemma classify_in_span (x : Q) (l : list Bucket) :
  forall i a m k, landedBucketOf x l i = Some k -> classify x l i a m = Some k.
Proof.
  induction l as [|bk l IH]; intros i a m k H; [discriminate|].
  cbn [landedBucketOf classify] in *.
  destruct (Qgeb x (bucketLeft bk) && Qleb x (bucketRight bk)); [exact H|].
  destruct (match m with None => true | Some m0 => Qltb (Qabs (x - bucket_x bk)) m0 end);
    apply IH; exact H.
Qed.

Lemma classify_no_span (x : Q) (l : list Bucket) :
  forall i a m, landedBucketOf x l i = None -> classify x l i (Some a) m = Some a.
Proof.
  induction l as [|bk l IH]; intros i a m H; [reflexivity|].
  cbn [landedBucketOf classify] in *.
  destruct (Qgeb x (bucketLeft bk) && Qleb x (bucketRight bk)); [discriminate|].
  destruct (match m with None => true | Some m0 => Qltb (Qabs (x - bucket_x bk)) m0 end);
    apply IH; exact H.
Qed.

(** X5.  The first pass of the landing classifier ([updateBallAnimation])
    returns the bucket that the look-up of [handleDropBall] returns, the
    first one whose span holds [x]; when no span holds [x] it returns
    bucket 1, whichever bucket is nearest, and [null] only when there is no
    bucket at all. *)
Theorem classify_first_span_else_first_bucket (x : Q) (l : list Bucket) :
  classify x l 0 None None
  = match landedBucketOf x l 0 with
    | Some k => Some k
    | None => match l with [] => None | _ :: _ => Some 1%Z end
    end.
Proof.
  destruct (landedBucketOf x l 0) as [k|] eqn:H.
  - apply classify_in_span. exact H.
  - destruct l as [|bk l]; [reflexivity|].
    cbn [landedBucketOf classify] in *.
    destruct (Qgeb x (bucketLeft bk) && Qleb x (bucketRight bk)); [discriminate|].
    apply classify_no_span. exact H.
Qed.

(** ** The segment search *)

Lemma findSegment_in (e : Q) (l : list Keyframe) (sa sb : Keyframe) :
  exists a b, findSegment e l (Some sa, Some sb) = (Some a, Some b)
              /\ ((a = sa /\ b = sb) \/ (In a l /\ In b l)).
Proof.
  induction l as [|x l IH].
  - exists sa, sb. split; [reflexivity|left; split; reflexivity].
  - destruct l as [|y rest].
    + exists sa, sb. split; [reflexivity|left; split; reflexivity].
    + cbn [findSegment].
      destruct (Qgeb e (kf_time x) && Qltb e (kf_time y)).
      * exists x, y. split; [reflexivity|]. right. split; [left; reflexivity|right; left; reflexivity].
      * destruct rest as [|z rest'].
        -- destruct (Qgeb e (kf_time y)).
           ++ exists y, y. split; [reflexivity|]. right. split; right; left; reflexivity.
           ++ exists sa, sb. split; [reflexivity|left; split; reflexivity].
        -- destruct IH as (a & b & E & Hin). exists a, b. split; [exact E|].
           destruct Hin as [Hin|[Ha Hb]]; [left; exact Hin|right].
           split; right; assumption.
Qed.

Lemma findSegment_sorted (e : Q) (l1 : list Keyframe) (a b : Keyframe) (l2 : list Keyframe)
    (seg : option Keyframe * option Keyframe) :
  nondecreasingTimes (l1 ++ a :: b :: l2) ->
  kf_time a <= e -> e < kf_time b ->
  findSegment e (l1 ++ a :: b :: l2) seg = (Some a, Some b).
Proof.
  intros Hs Ha Hb. induction l1 as [|x l1 IH].
  - cbn [app findSegment].
    apply Qgeb_ge in Ha. apply Qltb_lt in Hb. rewrite Ha, Hb. reflexivity.
  - cbn [app] in *. inversion Hs as [|x' l' Hs' Hall]; subst.
    assert (Hy : exists y rest, l1 ++ a :: b :: l2 = y :: rest /\ rest <> []
                                /\ kf_time y <= kf_time a).
    { destruct l1 as [|y l1'].
      - exists a, (b :: l2). split; [reflexivity|]. split; [discriminate|lra].
      - exists y, (l1' ++ a :: b :: l2). split; [reflexivity|]. split.
        + destruct l1'; discriminate.
        + cbn [app] in Hs'. inversion Hs' as [|y' l'' _ Hall']; subst.
          rewrite Forall_forall in Hall'. apply Hall'. apply in_or_app. right. left.
          reflexivity. }
    destruct Hy as (y & rest & E & Hne & Hya).
    specialize (IH Hs'). rewrite E in *. cbn [findSegment].
    assert (Hf : Qltb e (kf_time y) = false) by (apply Qltb_ge; lra).
    rewrite Hf, andb_false_r.
    destruct rest as [|z rest']; [contradiction|]. exact IH.
Qed.

(** ** Which bucket of the laid-out board holds a landing point *)

Lemma in_span_iff (cv : Canvas) (i : nat) (x : Q) :
  let bk := {| bucket_x := num ((inject_Z (Z.of_nat i) + 0.5) * (canvas_width cv / 5));
               bucket_y := num (canvas_height cv * 0.84);
               bucket_width := num (canvas_width cv / 5);
               bucket_height := num (canvas_height cv * bucketDepth);
               bucket_number := Z.of_nat i + 1 |} in
  (Qgeb x (bucketLeft bk) && Qleb x (bucketRight bk) = true
   -> inject_Z (Z.of_nat i) * (canvas_width cv / 5) <= x
      /\ x <= (inject_Z (Z.of_nat i) + 1) * (canvas_width cv / 5))
  /\ (Qgeb x (bucketLeft bk) && Qleb x (bucketRight bk) = false
      -> x < inject_Z (Z.of_nat i) * (canvas_width cv / 5)
         \/ (inject_Z (Z.of_nat i) + 1) * (canvas_width cv / 5) < x).
Proof.
  intro bk.
  assert (El : bucketLeft bk == inject_Z (Z.of_nat i) * (canvas_width cv / 5)).
  { unfold bucketLeft, bk. cbn [bucket_x bucket_width]. rewrite !num_eq. field. }
  assert (Er : bucketRight bk == (inject_Z (Z.of_nat i) + 1) * (canvas_width cv / 5)).
  { unfold bucketRight, bk. cbn [bucket_x bucket_width]. rewrite !num_eq. field. }
  split; intro H.
  - apply andb_true_iff in H. destruct H as [H1 H2].
    apply Qgeb_ge in H1. apply Qleb_le in H2. rewrite <- El, <- Er. split; assumption.
  - apply andb_false_iff in H. destruct H as [H|H].
    + left. apply Qgeb_lt in H. rewrite <- El. exact H.
    + right. apply Qleb_gt in H. rewrite <- Er. exact H.
Qed.

Ltac span_test P N :=
  match type of P with
  | ?c = true -> _ => destruct c
  end;
  [ specialize (P eq_refl); first [ exfalso; lra | f_equal; lia ]
  | specialize (N eq_refl) ].

(** X6.  On the buckets laid out by [initBuckets] for a positive canvas
    width, a landing point within 40% of a bucket's width of its centre is
    attributed to that bucket by the look-up of [handleDropBall] and by the
    first pass of the landing classifier alike: on such a board the 40%
    override of [updateBallAnimation] never changes the outcome. *)
Theorem landing_near_centre_on_board (cv : Canvas) (t : Z) (tb : Bucket) (x : Q) :
  0 < canvas_width cv ->
  lookup1 (initBuckets cv) t = Some tb ->
  Qabs (x - bucket_x tb) < bucket_width tb * 0.4 ->
  landedBucketOf x (initBuckets cv) 0 = Some t
  /\ classify x (initBuckets cv) 0 None None = Some t.
Proof.
  intros HW Hlook Hnear.
  assert (Hl : landedBucketOf x (initBuckets cv) 0 = Some t);
    [|split; [exact Hl|apply classify_in_span; exact Hl]].
  assert (Hw : 0 < canvas_width cv / 5) by (apply Qlt_shift_div_l; lra).
  unfold lookup1 in Hlook. destruct (1 <=? t)%Z eqn:Ht; [|discriminate].
  apply Z.leb_le in Ht.
  assert (Et : t = (Z.of_nat (Z.to_nat (t - 1)) + 1)%Z) by lia.
  set (n := Z.to_nat (t - 1)) in *. clearbody n.
  destruct (bucket_span cv n tb Hlook) as (Hwd & Hleft & _).
  assert (Hn : (n < 5)%nat).
  { change 5%nat with (length (initBuckets cv)). apply nth_error_Some.
    rewrite Hlook. discriminate. }
  unfold bucketLeft in Hleft. rewrite Hwd in Hleft, Hnear.
  apply Qabs_Qlt_condition in Hnear.
  rewrite initBuckets_unfold. cbn [map landedBucketOf].
  pose proof (in_span_iff cv 0 x) as [P0 N0]. pose proof (in_span_iff cv 1 x) as [P1 N1].
  pose proof (in_span_iff cv 2 x) as [P2 N2]. pose proof (in_span_iff cv 3 x) as [P3 N3].
  pose proof (in_span_iff cv 4 x) as [P4 N4].
  cbv zeta in P0, N0, P1, N1, P2, N2, P3, N3, P4, N4.
  change (inject_Z (Z.of_nat 0)) with 0 in *. change (inject_Z (Z.of_nat 1)) with 1 in *.
  change (inject_Z (Z.of_nat 2)) with 2 in *. change (inject_Z (Z.of_nat 3)) with 3 in *.
  change (inject_Z (Z.of_nat 4)) with 4 in *.
  set (w := canvas_width cv / 5) in *.
  set (c := bucket_x tb) in *.
  assert (HN : inject_Z (Z.of_nat n) == 0 /\ n = 0%nat \/ inject_Z (Z.of_nat n) == 1 /\ n = 1%nat
               \/ inject_Z (Z.of_nat n) == 2 /\ n = 2%nat
               \/ inject_Z (Z.of_nat n) == 3 /\ n = 3%nat
               \/ inject_Z (Z.of_nat n) == 4 /\ n = 4%nat).
  { do 5 (destruct n as [|n]; [intuition reflexivity|]). lia. }
  set (a := inject_Z (Z.of_nat n)) in *.
  assert (Ec : c == a * w + w * 0.5) by (assert (E : w / 2 == w * 0.5) by field; lra).
  clear Hleft Hwd Hlook.
  clearbody w c.
  destruct HN as [[Ea En] | [[Ea En] | [[Ea En] | [[Ea En] | [Ea En]]]]];
    subst n; rewrite Ea in Ec; clear Ea; clearbody a;
    span_test P0 N0; span_test P1 N1; span_test P2 N2; span_test P3 N3; span_test P4 N4;
    exfalso; lra.
Qed.

Lemma landing_near_centre_on_board_witness :
  exists tb,
    lookup1 (initBuckets {| canvas_width := 322; canvas_height := 418 |}) 4 = Some tb
    /\ landedBucketOf 200 (initBuckets {| canvas_width := 322; canvas_height := 418 |}) 0
       = Some 4%Z
    /\ classify 200 (initBuckets {| canvas_width := 322; canvas_height := 418 |}) 0 None None
       = Some 4%Z.
Proof.
  exists (nth 3 (initBuckets {| canvas_width := 322; canvas_height := 418 |}) noBucket).
  split; [reflexivity|].
  apply (landing_near_centre_on_board {| canvas_width := 322; canvas_height := 418 |} 4
           (nth 3 (initBuckets {| canvas_width := 322; canvas_height := 418 |}) noBucket)
           200).
  - reflexivity.
  - reflexivity.
  - vm_compute. reflexivity.
Defined.

(** ** The playback driver between two keyframes *)

Lemma updateBallAnimation_flight (g : Game) (bl : Ball) (p : list Keyframe)
    (currentTime : Q) :
  ball g = Some bl -> animationPath g = Some p -> isGameActive g = true ->
  (2 <= length p)%nat ->
  currentTime - animationStartTime g < animationDuration g ->
  exists bl',
    updateBallAnimation currentTime g
    = Done (withBall g (Some bl') (updateBallTrail bl' (ballTrail g))).
Proof.
  intros Hb Hp Ha Hlen Ht. unfold updateBallAnimation. rewrite Hb, Hp, Ha. cbn [negb].
  apply Qgeb_lt in Ht. rewrite Ht.
  destruct p as [|p0 [|p1 p']]; cbn [length] in Hlen; try lia.
  cbn [nth_error].
  destruct (findSegment_in (currentTime - animationStartTime g) (p0 :: p1 :: p') p0 p1)
    as (a & b & E & _).
  rewrite E. eexists. reflexivity.
Qed.

(** X7.  Before the end of the animation, for a path of at least two
    keyframes, [updateBallAnimation] does not throw and puts the ball on
    the segment between two keyframes of the path (a point
    [a + (b - a) * t] with [0 <= t <= 1]); it then records that position
    in the trail and changes nothing else. *)
Theorem playback_between_keyframes (g : Game) (bl : Ball) (p : list Keyframe)
    (currentTime : Q) :
  ball g = Some bl -> animationPath g = Some p -> isGameActive g = true ->
  (2 <= length p)%nat ->
  currentTime - animationStartTime g < animationDuration g ->
  exists a b t,
    In a p /\ In b p /\ 0 <= t <= 1
    /\ updateBallAnimation currentTime g
       = Done (withBall g
                 (Some (moveBall bl (kf_x a + (kf_x b - kf_x a) * t)
                                    (kf_y a + (kf_y b - kf_y a) * t)))
                 (updateBallTrail (moveBall bl (kf_x a + (kf_x b - kf_x a) * t)
                                              (kf_y a + (kf_y b - kf_y a) * t))
                                  (ballTrail g))).
Proof.
  intros Hb Hp Ha Hlen Ht. unfold updateBallAnimation. rewrite Hb, Hp, Ha. cbn [negb].
  apply Qgeb_lt in Ht. rewrite Ht.
  destruct p as [|p0 [|p1 p']]; cbn [length] in Hlen; try lia.
  cbn [nth_error].
  destruct (findSegment_in (currentTime - animationStartTime g) (p0 :: p1 :: p') p0 p1)
    as (a & b & E & Hin).
  rewrite E.
  exists a, b. eexists. split; [|split; [|split; [|reflexivity]]].
  - destruct Hin as [[-> _]|[H _]]; [left; reflexivity|exact H].
  - destruct Hin as [[_ ->]|[_ H]]; [right; left; reflexivity|exact H].
  - split; [apply Q.le_max_l|]. apply Q.max_lub; [lra|apply Q.le_min_l].
Qed.

Lemma playback_between_keyframes_witness :
  exists a b t,
    In a twoPoints /\ In b twoPoints /\ 0 <= t <= 1
    /\ updateBallAnimation 1000 (inFlight twoPoints 2000 3)
       = Done (withBall (inFlight twoPoints 2000 3)
                 (Some (moveBall {| ball_x := 400; ball_y := 52; ball_radius := 13;
                                    ball_targetBucket := Some 3%Z |}
                          (kf_x a + (kf_x b - kf_x a) * t)
                          (kf_y a + (kf_y b - kf_y a) * t)))
                 (updateBallTrail
                    (moveBall {| ball_x := 400; ball_y := 52; ball_radius := 13;
                                 ball_targetBucket := Some 3%Z |}
                       (kf_x a + (kf_x b - kf_x a) * t)
                       (kf_y a + (kf_y b - kf_y a) * t))
                    (ballTrail (inFlight twoPoints 2000 3)))).
Proof.
  apply (playback_between_keyframes (inFlight twoPoints 2000 3)
           {| ball_x := 400; ball_y := 52; ball_radius := 13; ball_targetBucket := Some 3%Z |}
           twoPoints 1000).
  - reflexivity.
  - reflexivity.
  - reflexivity.
  - cbn [twoPoints length]. lia.
  - cbn [inFlight animationStartTime animationDuration]. lra.
Defined.

(** X8.  On a path whose times never decrease, at an elapsed time
    between the times of two consecutive keyframes [a] and [b] (and before
    [animationDuration]) the ball is at the linear interpolation of [a] and
    [b]. *)
Theorem playback_interpolates (g : Game) (bl : Ball) (l1 : list Keyframe)
    (a b : Keyframe) (l2 : list Keyframe) (currentTime : Q) :
  ball g = Some bl -> animationPath g = Some (l1 ++ a :: b :: l2) ->
  isGameActive g = true ->
  nondecreasingTimes (l1 ++ a :: b :: l2) ->
  kf_time a <= currentTime - animationStartTime g ->
  currentTime - animationStartTime g < kf_time b ->
  currentTime - animationStartTime g < animationDuration g ->
  exists g' bl',
    updateBallAnimation currentTime g = Done g' /\ ball g' = Some bl'
    /\ ball_x bl' == kf_x a + (kf_x b - kf_x a)
                              * ((currentTime - animationStartTime g - kf_time a)
                                 / (kf_time b - kf_time a))
    /\ ball_y bl' == kf_y a + (kf_y b - kf_y a)
                              * ((currentTime - animationStartTime g - kf_time a)
                                 / (kf_time b - kf_time a)).
Proof.
  intros Hb Hp Hact Hs Ha Hlt Hd. unfold updateBallAnimation. rewrite Hb, Hp, Hact.
  cbn [negb]. apply Qgeb_lt in Hd. rewrite Hd.
  rewrite (findSegment_sorted _ l1 a b l2 _ Hs Ha Hlt).
  assert (Hpos : 0 < kf_time b - kf_time a) by lra.
  assert (Hg : Qgtb (kf_time b - kf_time a) 0 = true) by (apply Qgtb_gt; exact Hpos).
  rewrite Hg.
  set (e := currentTime - animationStartTime g) in *.
  set (t0 := (e - kf_time a) / (kf_time b - kf_time a)).
  assert (H0 : 0 <= t0) by (apply Qle_shift_div_l; lra).
  assert (H1 : t0 <= 1) by (apply Qle_shift_div_r; lra).
  assert (Et : Qmax 0 (Qmin 1 t0) == t0).
  { rewrite (Q.min_r 1 t0 H1). apply Q.max_r. exact H0. }
  eexists. eexists. split; [reflexivity|]. split; [reflexivity|].
  cbn [moveBall ball_x ball_y]. rewrite Et. split; reflexivity.
Qed.

Lemma playback_interpolates_witness :
  exists g' bl',
    updateBallAnimation 1000 (inFlight twoPoints 2000 3) = Done g' /\ ball g' = Some bl'
    /\ ball_x bl' == 400 + (460 - 400) * ((1000 - 0 - 0) / (2000 - 0))
    /\ ball_y bl' == 52 + (873.6 - 52) * ((1000 - 0 - 0) / (2000 - 0)).
Proof.
  apply (playback_interpolates (inFlight twoPoints 2000 3)
           {| ball_x := 400; ball_y := 52; ball_radius := 13; ball_targetBucket := Some 3%Z |}
           [] {| kf_x := 400; kf_y := 52; kf_time := 0 |}
           {| kf_x := 460; kf_y := 873.6; kf_time := 2000 |} [] 1000).
  - reflexivity.
  - reflexivity.
  - reflexivity.
  - repeat constructor. unfold notLater. cbn [kf_time]. lra.
  - cbn [inFlight animationStartTime kf_time]. lra.
  - cbn [inFlight animationStartTime kf_time]. lra.
  - cbn [inFlight animationStartTime animationDuration]. lra.
Defined.

(** ** A drop from the click to the landing *)

Lemma lookup1_Some (A : Type) (l : list A) (k : Z) :
  (1 <= k <= Z.of_nat (length l))%Z -> exists a, lookup1 l k = Some a.
Proof.
  intro H. unfold lookup1. replace (1 <=? k)%Z with true by (symmetry; apply Z.leb_le; lia).
  destruct (nth_error l (Z.to_nat (k - 1))) as [a|] eqn:E; [exists a; reflexivity|].
  apply nth_error_None in E. lia.
Qed.

Section DropDone.

Variable M : MathLib.
Variable rnd : nat -> Q.
Hypothesis Hrnd : unitDraws rnd.

Lemma searchPath_found (b : Board) (t : Z) (n : nat) :
  forall dur k x p d k',
    searchPath M rnd b t n dur k = (Found x p d, k') ->
    (2 <= length p)%nat
    /\ landedBucketOf (kf_x (lastKeyframe p)) (bucketLocations b) 0 = Some t
    /\ exists dur0 k0 k1,
         generateAnimationPath M rnd b x (canvas_height (canvas b) * 0.05) t dur0 k0
         = (Returned p d, k1).
Proof.
  induction n as [|n IH]; intros dur k x p d k' H; [discriminate|].
  cbn [searchPath] in H. unfold bind at 1 in H.
  destruct (calculateInitialBallPosition rnd b k) as [x0 k0].
  unfold bind at 1 in H.
  destruct (generateAnimationPath M rnd b x0 (canvas_height (canvas b) * 0.05) t dur k0)
    as [[p0 d0|d0] k1] eqn:Hg; [|discriminate].
  destruct ((1 <? length p0)%nat
            && sameBucket (landedBucketOf (kf_x (lastKeyframe p0)) (bucketLocations b) 0)
                 (Some t)) eqn:Hc.
  - injection H as -> -> -> _. apply andb_true_iff in Hc. destruct Hc as [Hl Hs].
    apply Nat.ltb_lt in Hl. split; [lia|]. split; [apply sameBucket_eq; exact Hs|].
    exists dur, k0, k1. exact Hg.
  - exact (IH _ _ _ _ _ _ H).
Qed.

Lemma directPath_points (b : Board) (tb : Bucket) (x : Q) (n : nat) :
  forall i k,
    fst (directPath rnd b tb x n i k)
    = map (fun j => directPoint b tb x (i + j) (rnd (k + j)%nat)) (seq 0 n).
Proof.
  induction n as [|n IH]; intros i k; [reflexivity|].
  cbn [directPath]. unfold bind at 1, random at 1. unfold bind at 1.
  specialize (IH (S i) (S k)).
  destruct (directPath rnd b tb x n (S i) (S k)) as [rest k'].
  cbn [fst ret] in *. rewrite IH. cbn [seq map]. rewrite <- seq_shift, map_map.
  rewrite !Nat.add_0_r. f_equal.
  apply map_ext. intro j. rewrite !Nat.add_succ_r. reflexivity.
Qed.

Lemma directPath_51 (b : Board) (tb : Bucket) (x : Q) (k : nat) :
  exists rest,
    fst (directPath rnd b tb x 51 0 k) = directPoint b tb x 0 (rnd k) :: rest
    /\ (2 <= length (fst (directPath rnd b tb x 51 0 k)))%nat
    /\ lastKeyframe (fst (directPath rnd b tb x 51 0 k))
       = directPoint b tb x 50 (rnd (k + 50)%nat).
Proof.
  rewrite directPath_points.
  change (seq 0 51) with (0%nat :: seq 1 49 ++ [50%nat]).
  cbn [map]. rewrite map_app. cbn [map]. rewrite (Nat.add_0_r k).
  change (0 + 0)%nat with 0%nat. change (0 + 50)%nat with 50%nat.
  eexists. split; [reflexivity|]. split.
  - cbn [length]. rewrite length_app. cbn [length]. lia.
  - unfold lastKeyframe. rewrite app_comm_cons, last_last. reflexivity.
Qed.

Lemma directPoint_first (b : Board) (tb : Bucket) (x r : Q) :
  kf_x (directPoint b tb x 0 r) == x
  /\ kf_y (directPoint b tb x 0 r) == canvas_height (canvas b) * 0.05
  /\ kf_time (directPoint b tb x 0 r) == 0.
Proof.
  unfold directPoint. cbn [kf_x kf_y kf_time]. rewrite !num_eq.
  change (inject_Z (Z.of_nat 0)) with 0. split; [|split]; field.
Qed.

Lemma directPoint_last (b : Board) (tb : Bucket) (x r : Q) :
  kf_x (directPoint b tb x 50 r) == bucket_x tb + (r - 0.5) * 10
  /\ kf_y (directPoint b tb x 50 r) == bucket_y tb
  /\ kf_time (directPoint b tb x 50 r) == 2500.
Proof.
  unfold directPoint. cbn [kf_x kf_y kf_time]. rewrite !num_eq.
  change (inject_Z (Z.of_nat 50)) with 50. split; [|split]; field.
Qed.

Lemma landedBucketOf_lookup (x : Q) (l : list Bucket) (t : Z) :
  landedBucketOf x l 0 = Some t -> exists tb, lookup1 l t = Some tb.
Proof.
  intro H. apply landedBucketOf_range in H. apply lookup1_Some. lia.
Qed.

(** What a drop that [handleDropBall] starts consists of. *)
Lemma handleDropBall_done (now : Q) (g : Game) (t : Z) (g' : Game) :
  selectedBucket g = Some t -> isGameActive g = false ->
  handleDropBall M rnd now g = Done g' ->
  exists x p d tb,
    g' = startDrop (withDuration g true d) t now x p
    /\ lookup1 (bucketLocations (board g)) t = Some tb
    /\ (2 <= length p)%nat
    /\ (exists kf rest, p = kf :: rest /\ kf_x kf == x
                        /\ kf_y kf == canvas_height (canvas (board g)) * 0.05
                        /\ kf_time kf == 0)
    /\ 0 <= kf_time (lastKeyframe p) <= 3500
    /\ (landedBucketOf (kf_x (lastKeyframe p)) (bucketLocations (board g)) 0 = Some t
        \/ Qabs (kf_x (lastKeyframe p) - bucket_x tb) <= 5).
Proof.
  intros Hs Ha. unfold handleDropBall. rewrite Hs, Ha.
  destruct (searchPath M rnd (board g) t maxAttempts (animationDuration g) 0%nat)
    as [[x p d|d|d] n] eqn:Hsp.
  - intro E. apply (f_equal stateOf) in E. cbn [stateOf] in E. subst g'.
    destruct (searchPath_found _ _ _ _ _ _ _ _ _ Hsp) as (Hlen & Hland & dur0 & k0 & k1 & Hg).
    destruct (landedBucketOf_lookup _ _ _ Hland) as [tb Htb].
    destruct (returned_shape M rnd (board g) tb x _ t dur0 k0 p d k1 Hrnd Htb Hg)
      as (s & Hshape & Hp & _).
    destruct Hshape as (Hhd & _ & _ & Hall & _). rewrite Hp in *.
    exists x, p, d, tb. split; [reflexivity|]. split; [exact Htb|]. split; [exact Hlen|].
    split; [|split; [|left; exact Hland]].
    + destruct Hhd as [rest ->]. eexists. eexists. split; [reflexivity|].
      cbn [kf_x kf_y kf_time]. split; [|split]; reflexivity.
    + assert (Hin : In (lastKeyframe p) p).
      { unfold lastKeyframe. destruct (@exists_last _ p) as (l0 & a & E).
        - destruct p; [cbn in Hlen; lia|discriminate].
        - rewrite E, last_last. apply in_or_app. right. left. reflexivity. }
      rewrite Forall_forall in Hall. specialize (Hall _ Hin). destruct (Hrnd k0). lra.
  - destruct (lookup1 (bucketLocations (board g)) t) as [tb|] eqn:Htb; [|discriminate].
    unfold random. intro E. apply (f_equal stateOf) in E. cbn [stateOf] in E. subst g'.
    destruct (directPath_51 (board g) tb (bucket_x tb + (rnd n - 0.5) * 20) (S n))
      as (rest & Hhd & Hlen & Hlast).
    exists (bucket_x tb + (rnd n - 0.5) * 20),
           (fst (directPath rnd (board g) tb (bucket_x tb + (rnd n - 0.5) * 20) 51 0 (S n))),
           d, tb.
    split; [reflexivity|]. split; [reflexivity|]. split; [exact Hlen|].
    rewrite Hlast.
    destruct (directPoint_last (board g) tb (bucket_x tb + (rnd n - 0.5) * 20)
                (rnd (S n + 50)%nat)) as (Hx & _ & Ht).
    split; [|split].
    + rewrite Hhd. eexists. eexists. split; [reflexivity|]. apply directPoint_first.
    + rewrite Ht. lra.
    + right. rewrite Hx. destruct (Hrnd (S n + 50)%nat).
      apply Qabs_Qle_condition. lra.
  - discriminate.
Qed.

End DropDone.

Lemma gameLoop_stamped (timestamp : Q) (g : Game) :
  gameLoop timestamp g
  = if isGameActive g then updateBallAnimation timestamp (stamped timestamp g)
    else Done (stamped timestamp g).
Proof. reflexivity. Qed.

Lemma frames_idle (ts : list Q) :
  forall g, isGameActive g = false ->
    exists g', frames ts g = Done g' /\ gameStats g' = gameStats g
               /\ isGameActive g' = false /\ gameState g' = gameState g
               /\ landingHandled g' = landingHandled g.
Proof.
  induction ts as [|timestamp ts IH]; intros g Ha.
  - exists g. repeat split; try reflexivity. exact Ha.
  - cbn [frames]. rewrite gameLoop_stamped, Ha.
    destruct (IH (stamped timestamp g) Ha) as (g' & E & H1 & H2 & H3 & H4).
    exists g'. split; [exact E|]. repeat split; assumption.
Qed.

Section Flight.

Variable g0 : Game.
Variable p : list Keyframe.
Variable t : Z.
Hypothesis Hpath : animationPath g0 = Some p.
Hypothesis Hlen : (2 <= length p)%nat.
Hypothesis Htarget : targetBucket g0 = Some t.
Hypothesis Hland :
  landedBucketOf (kf_x (lastKeyframe p)) (bucketLocations (board g0)) 0 = Some t
  \/ exists tb, lookup1 (bucketLocations (board g0)) t = Some tb
                /\ Qabs (kf_x (lastKeyframe p) - bucket_x tb) < bucket_width tb * 0.4.

Lemma flight_frame (timestamp : Q) (g : Game) :
  inFlightOf g0 g ->
  timestamp - animationStartTime g0 < animationDuration g0 ->
  exists g1, gameLoop timestamp g = Done g1 /\ inFlightOf g0 g1.
Proof.
  intros (Ha & Hh & [bl Hb] & Hp & Ht & Hbd & Hst & Hs & Hd) Hearly.
  rewrite gameLoop_stamped, Ha.
  destruct (updateBallAnimation_flight (stamped timestamp g) bl p timestamp)
    as (bl' & E).
  - exact Hb.
  - cbn [stamped animationPath]. rewrite Hp. exact Hpath.
  - exact Ha.
  - exact Hlen.
  - cbn [stamped animationStartTime animationDuration]. rewrite Hs, Hd. exact Hearly.
  - rewrite E. eexists. split; [reflexivity|].
    unfold inFlightOf. cbn. repeat split; try assumption. eexists. reflexivity.
Qed.

Lemma landing_frame (timestamp : Q) (g : Game) :
  inFlightOf g0 g ->
  animationDuration g0 <= timestamp - animationStartTime g0 ->
  exists g1, gameLoop timestamp g = Done g1
             /\ gameStats g1 = countedSuccess (gameStats g0) t
             /\ isGameActive g1 = false /\ gameState g1 = completed
             /\ landingHandled g1 = true.
Proof.
  intros (Ha & Hh & [bl Hb] & Hp & Ht & Hbd & Hst & Hs & Hd) Hlate.
  rewrite gameLoop_stamped, Ha. unfold updateBallAnimation.
  cbn [stamped ball animationPath isGameActive animationStartTime animationDuration].
  rewrite Hb, Hp, Hpath, Ha, Hs, Hd. cbn [negb].
  apply Qgeb_ge in Hlate. rewrite Hlate.
  destruct p as [|p0 p'] eqn:Ep; [cbn in Hlen; lia|]. rewrite <- Ep in *.
  cbn [withBall landingHandled board targetBucket stamped]. rewrite Hh, Hbd, Ht, Htarget.
  set (x := kf_x (lastKeyframe p)) in *.
  assert (Hcount : forall bl' trail,
             let g2 := finishDrop (handleBallLanding (Some t) true
                                     (withBall (stamped timestamp g) bl' trail)) in
             gameStats g2 = countedSuccess (gameStats g0) t
             /\ isGameActive g2 = false /\ gameState g2 = completed
             /\ landingHandled g2 = true).
  { intros bl' trail. unfold handleBallLanding.
    cbn [withBall stamped landingHandled]. rewrite Hh. cbn. rewrite Hst.
    repeat split; reflexivity. }
  destruct Hland as [Hin|(tb & Htb & Hnear)].
  - rewrite (classify_in_span x _ 0 None None t Hin).
    cbn [sameBucket]. rewrite Z.eqb_refl. cbn [negb].
    eexists. split; [reflexivity|]. apply Hcount.
  - destruct (negb (sameBucket (classify x (bucketLocations (board g0)) 0 None None)
                      (Some t))) eqn:Hc.
    + cbn [bucketAt]. rewrite Htb.
      apply Qltb_lt in Hnear. rewrite Hnear. cbn [sameBucket]. rewrite Z.eqb_refl.
      eexists. split; [reflexivity|]. apply Hcount.
    + apply negb_false_iff in Hc. apply sameBucket_eq in Hc. rewrite Hc.
      eexists. split; [reflexivity|]. apply Hcount.
Qed.

Lemma frames_land (ts : list Q) :
  forall g, inFlightOf g0 g ->
    Exists (fun timestamp => animationDuration g0 <= timestamp - animationStartTime g0) ts ->
    exists g', frames ts g = Done g'
               /\ gameStats g' = countedSuccess (gameStats g0) t
               /\ isGameActive g' = false /\ gameState g' = completed
               /\ landingHandled g' = true.
Proof.
  induction ts as [|timestamp ts IH]; intros g Hg Hex; [inversion Hex|].
  cbn [frames].
  destruct (Qlt_le_dec (timestamp - animationStartTime g0) (animationDuration g0))
    as [Hearly|Hlate].
  - destruct (flight_frame timestamp g Hg Hearly) as (g1 & E & Hg1). rewrite E.
    apply IH; [exact Hg1|]. inversion Hex as [? ? H|? ? H]; subst; [lra|exact H].
  - destruct (landing_frame timestamp g Hg Hlate) as (g1 & E & H1 & H2 & H3 & H4).
    rewrite E. destruct (frames_idle ts g1 H2) as (g' & E' & H1' & H2' & H3' & H4').
    exists g'. split; [exact E'|]. repeat split; congruence.
Qed.

End Flight.

(** ** A drop on the 100 x 130 board, from the click to the landing *)

Lemma frames_reachable (g0 : Game) (ts : list Q) :
  forall g g', Reachable g0 g -> frames ts g = Done g' -> Reachable g0 g'.
Proof.
  induction ts as [|timestamp ts IH]; intros g g' Hr H; cbn [frames] in H.
  - injection H as <-. exact Hr.
  - destruct (gameLoop timestamp g) as [g1|g1] eqn:E; [|discriminate].
    apply (IH g1 g'); [|exact H]. apply (ReachStep _ g); [exact Hr|].
    replace g1 with (stateOf (gameLoop timestamp g)) by (rewrite E; reflexivity).
    apply StepFrame.
Qed.

Lemma reachable_selected1 : Reachable (initialGame board100) selected1.
Proof.
  apply (ReachStep _ (initialGame board100)); [apply ReachInit|].
  apply (StepSelect (initialGame board100) 1).
Qed.

(** More of the run of [run_drop]: the fall lasts more than 16 ms. *)
Lemma run_drop_long (M : MathLib) :
  match attemptZ M drawsDrop zone100 board100 (bucketOf board100 1)
          3 (canvas_height (canvas board100) * 0.05) 1
          (2500 + drawsDrop 2 * 1000) 0 false 0 3 with
  | Some (s, k) =>
      isValidPath s
      && (1 <? length (path s))%nat
      && sameBucket (landedBucketOf (kf_x (lastKeyframe (path s)))
                       (bucketLocations board100) 0) (Some 1%Z)
      && Qltb 16 (kf_time (lastKeyframe (path s)))
  | None => false
  end = true.
Proof. vm_compute. reflexivity. Qed.

(** The drop of [drop_straight], with what it installs. *)
Lemma drop_straight_flight (M : MathLib) (now : Q) :
  sqrt_lower M ->
  exists g' p,
    handleDropBall M drawsDrop now selected1 = Done g'
    /\ animationPath g' = Some p /\ (2 <= length p)%nat
    /\ 16 < animationDuration g'
    /\ animationStartTime g' = now
    /\ targetBucket g' = Some 1%Z
    /\ ballTrail g' = []
    /\ inFlightOf g' g'
    /\ landedBucketOf (kf_x (lastKeyframe p)) (bucketLocations (board g')) 0 = Some 1%Z
    /\ gameStats g' = {| totalDrops := 1; successfulDrops := 0; lastResult := None;
                         lastBucketLanded := None |}.
Proof.
  intro Hs. pose proof (run_drop_long M) as H.
  match type of H with
  | match ?t with _ => _ end = _ => destruct t as [[s k]|] eqn:E; [|discriminate]
  end.
  apply andb_true_iff in H. destruct H as [H Hlong].
  apply andb_true_iff in H. destruct H as [H Hsame].
  apply andb_true_iff in H. destruct H as [Hv Hlen].
  apply (attemptZ_sound M drawsDrop zone100 board100 Hs zone100_clear) in E.
  unfold handleDropBall.
  change (selectedBucket selected1) with (Some 1%Z).
  change (isGameActive selected1) with false.
  change (board selected1) with board100.
  change maxAttempts with (S 99). cbn [searchPath]. unfold bind at 1.
  rewrite start_drop. unfold bind at 1.
  rewrite (gen_unfold M drawsDrop board100 (bucketOf board100 1) 3 _ 1 _ 2
             board100_bucket1).
  rewrite (retry_first_valid M drawsDrop _ _ _ _ _ _ _ _ _ _ _ s k E Hv).
  cbn [fst snd]. rewrite Hv, Hlen, Hsame. cbn [andb ret].
  eexists. exists (path s). split; [reflexivity|].
  cbn [startDrop withDuration animationPath animationDuration animationStartTime
       targetBucket ballTrail board gameStats].
  split; [reflexivity|]. split; [apply Nat.ltb_lt in Hlen; lia|].
  split; [apply Qltb_lt; exact Hlong|]. split; [reflexivity|]. split; [reflexivity|].
  split; [reflexivity|]. split.
  - unfold inFlightOf.
    cbn [startDrop withDuration isGameActive landingHandled ball animationPath
         targetBucket board gameStats animationStartTime animationDuration].
    split; [reflexivity|]. split; [reflexivity|]. split; [eexists; reflexivity|].
    repeat split.
  - split; [|reflexivity]. change (board selected1) with board100.
    destruct (landedBucketOf _ _ _) as [n|]; [|discriminate].
    cbn [sameBucket] in Hsame. apply Z.eqb_eq in Hsame. subst n. reflexivity.
Qed.

(** The drop of [drop_straight], followed by the frames at 1000 ms and at
    3500 ms: it is recorded as a success. *)
Lemma straight_drop_lands :
  exists g' g'',
    handleDropBall mathUp drawsDrop 0 selected1 = Done g'
    /\ frames [1000; 3500] g' = Done g''
    /\ gameStats g' = {| totalDrops := 1; successfulDrops := 0; lastResult := None;
                         lastBucketLanded := None |}
    /\ isGameActive g' = true
    /\ gameStats g'' = {| totalDrops := 1; successfulDrops := 1;
                          lastResult := Some success; lastBucketLanded := Some 1%Z |}
    /\ landingHandled g'' = true
    /\ Reachable (initialGame board100) g' /\ Reachable (initialGame board100) g''.
Proof.
  destruct (drop_straight_flight mathUp 0 sqrt_lower_mathUp)
    as (g' & p & Hd & Hp & Hlen & _ & Hst & Ht & _ & Hfl & Hland & Hstats).
  assert (Hr' : Reachable (initialGame board100) g').
  { apply (ReachStep _ selected1); [exact reachable_selected1|].
    replace g' with (stateOf (handleDropBall mathUp drawsDrop 0 selected1))
      by (rewrite Hd; reflexivity).
    apply StepDrop. }
  destruct (handleDropBall_done mathUp drawsDrop unitDraws_drawsDrop 0 selected1 1 g'
              eq_refl eq_refl Hd) as (x & p0 & d & tb & Eg & _ & _ & _ & Hdur & _).
  assert (Hex : Exists (fun timestamp =>
                          animationDuration g' <= timestamp - animationStartTime g')
                  [1000; 3500]).
  { right. left. rewrite Hst, Eg. cbn [startDrop animationDuration]. lra. }
  destruct (frames_land g' p 1 Hp Hlen Ht (or_introl Hland) [1000; 3500] g' Hfl Hex)
    as (g'' & Hf & Hs'' & _ & _ & Hh).
  exists g', g''. split; [exact Hd|]. split; [exact Hf|]. split; [exact Hstats|].
  split; [apply Hfl|]. split; [rewrite Hs'', Hstats; reflexivity|]. split; [exact Hh|].
  split; [exact Hr'|]. exact (frames_reachable _ _ _ _ Hr' Hf).
Qed.

(** ** The trail during a flight *)

Lemma length_removelast_cons (A : Type) (a : A) (l : list A) :
  length (removelast (a :: l)) = length l.
Proof.
  revert a. induction l as [|c l IH]; intro a; [reflexivity|].
  change (removelast (a :: c :: l)) with (a :: removelast (c :: l)).
  cbn [length]. rewrite IH. reflexivity.
Qed.

Lemma updateBallTrail_grows (bl : Ball) (trail : list (Q * Q)) :
  (length trail <= ballTrailLength)%nat ->
  length (updateBallTrail bl trail) = Nat.min ballTrailLength (S (length trail)).
Proof.
  intro H. unfold updateBallTrail.
  destruct (ballTrailLength <? length ((ball_x bl, ball_y bl) :: trail))%nat eqn:E.
  - apply Nat.ltb_lt in E. cbn [length] in E. rewrite length_removelast_cons. lia.
  - apply Nat.ltb_ge in E. cbn [length] in *. lia.
Qed.

Section FlightTrail.

Variable g0 : Game.
Variable p : list Keyframe.
Hypothesis Hpath : animationPath g0 = Some p.
Hypothesis Hlen : (2 <= length p)%nat.

Lemma flight_frame_trail (timestamp : Q) (g : Game) :
  inFlightOf g0 g ->
  timestamp - animationStartTime g0 < animationDuration g0 ->
  exists g1 bl', gameLoop timestamp g = Done g1 /\ inFlightOf g0 g1
                 /\ ballTrail g1 = updateBallTrail bl' (ballTrail g).
Proof.
  intros (Ha & Hh & [bl Hb] & Hp & Ht & Hbd & Hst & Hs & Hd) Hearly.
  rewrite gameLoop_stamped, Ha.
  destruct (updateBallAnimation_flight (stamped timestamp g) bl p timestamp)
    as (bl' & E).
  - exact Hb.
  - cbn [stamped animationPath]. rewrite Hp. exact Hpath.
  - exact Ha.
  - exact Hlen.
  - cbn [stamped animationStartTime animationDuration]. rewrite Hs, Hd. exact Hearly.
  - rewrite E. eexists. exists bl'. split; [reflexivity|]. split; [|reflexivity].
    unfold inFlightOf. cbn. repeat split; try assumption. eexists. reflexivity.
Qed.

(** Frames before the end of the animation: each pushes the ball's position
    on the trail, which stops growing at [ballTrailLength]. *)
Lemma flight_frames_trail (ts : list Q) :
  forall g, inFlightOf g0 g ->
    Forall (fun timestamp => timestamp - animationStartTime g0 < animationDuration g0) ts ->
    (length (ballTrail g) <= ballTrailLength)%nat ->
    exists g', frames ts g = Done g' /\ inFlightOf g0 g'
               /\ length (ballTrail g')
                  = Nat.min ballTrailLength (length ts + length (ballTrail g)).
Proof.
  induction ts as [|timestamp ts IH]; intros g Hg Hall Hl.
  - exists g. split; [reflexivity|]. split; [exact Hg|]. cbn [length]. lia.
  - inversion Hall as [|? ? Hearly Hall']; subst. cbn [frames].
    destruct (flight_frame_trail timestamp g Hg Hearly) as (g1 & bl' & E & Hg1 & Etr).
    rewrite E.
    assert (Hl1 : length (ballTrail g1) = Nat.min ballTrailLength (S (length (ballTrail g)))).
    { rewrite Etr. apply updateBallTrail_grows. exact Hl. }
    destruct (IH g1 Hg1 Hall') as (g' & E' & Hg' & Hl').
    { rewrite Hl1. lia. }
    exists g'. split; [exact E'|]. split; [exact Hg'|].
    rewrite Hl', Hl1. cbn [length]. unfold ballTrailLength in *. lia.
Qed.

End FlightTrail.

(** Seven frames of the drop of [drop_straight], all before its end: the
    trail has reached its 5 positions. *)
Lemma straight_drop_trail :
  exists g' g'',
    handleDropBall mathUp drawsDrop 0 selected1 = Done g'
    /\ frames [1; 2; 3; 4; 5; 6; 7] g' = Done g''
    /\ length (ballTrail g'') = 5%nat
    /\ Reachable (initialGame board100) g''.
Proof.
  destruct (drop_straight_flight mathUp 0 sqrt_lower_mathUp)
    as (g' & p & Hd & Hp & Hlen & Hlong & Hst & _ & Htr & Hfl & _).
  assert (Hr' : Reachable (initialGame board100) g').
  { apply (ReachStep _ selected1); [exact reachable_selected1|].
    replace g' with (stateOf (handleDropBall mathUp drawsDrop 0 selected1))
      by (rewrite Hd; reflexivity).
    apply StepDrop. }
  destruct (flight_frames_trail g' p Hp Hlen [1; 2; 3; 4; 5; 6; 7] g' Hfl)
    as (g'' & Hf & _ & Hl).
  - rewrite Hst. repeat constructor; lra.
  - rewrite Htr. cbn. unfold ballTrailLength. lia.
  - exists g', g''. split; [exact Hd|]. split; [exact Hf|]. split.
    + rewrite Hl, Htr. reflexivity.
    + exact (frames_reachable _ _ _ _ Hr' Hf).
Qed.

(** C10 on a drop that lands: between the click and the landing frame
    [totalDrops] goes from 0 to 1 and [successfulDrops] from 0 to 1, and a
    second call of [handleBallLanding] changes nothing. *)
Lemma C10_stats_bounds_witness :
  exists g' g'',
    handleDropBall mathUp drawsDrop 0 selected1 = Done g'
    /\ frames [1000; 3500] g' = Done g''
    /\ totalDrops (gameStats g') = (totalDrops (gameStats selected1) + 1)%Z
    /\ successfulDrops (gameStats g') = successfulDrops (gameStats selected1)
    /\ totalDrops (gameStats g'') = 1%Z /\ successfulDrops (gameStats g'') = 1%Z
    /\ (0 <= successfulDrops (gameStats g'') <= totalDrops (gameStats g''))%Z
    /\ (forall n isT, handleBallLanding n isT g'' = g'').
Proof.
  destruct straight_drop_lands as (g' & g'' & Hd & Hf & _ & _ & Hs'' & Hh & _ & Hr'').
  exists g', g''. split; [exact Hd|]. split; [exact Hf|].
  destruct (C10_stats_bounds board100 selected1 reachable_selected1) as (_ & Hdrop & _).
  destruct (Hdrop mathUp drawsDrop 0 1%Z g' eq_refl eq_refl Hd) as [H1 H2].
  split; [exact H1|]. split; [exact H2|].
  destruct (C10_stats_bounds board100 g'' Hr'') as (Hb & _ & Hl).
  split; [rewrite Hs''; reflexivity|]. split; [rewrite Hs''; reflexivity|].
  split; [exact Hb|]. intros n isT. apply (Hl n isT). exact Hh.
Defined.

(** X9.  When [handleDropBall] starts a drop, the ball it creates sits on
    the first keyframe of the path it installs, at time 0; the path has at
    least two keyframes; [animationDuration] is the time of the last
    keyframe, from 0 to 3500 ms; the target is the selected bucket and
    the landing is still to be handled. *)
Theorem drop_starts_on_its_path (M : MathLib) (rnd : nat -> Q) (now : Q)
    (g : Game) (t : Z) (g' : Game) :
  unitDraws rnd ->
  selectedBucket g = Some t -> isGameActive g = false ->
  handleDropBall M rnd now g = Done g' ->
  exists bl kf rest,
    ball g' = Some bl /\ animationPath g' = Some (kf :: rest) /\ rest <> []
    /\ ball_x bl == kf_x kf /\ ball_y bl == kf_y kf /\ kf_time kf == 0
    /\ ball_radius bl = ballRadius (config (board g))
    /\ animationStartTime g' = now
    /\ animationDuration g' = kf_time (lastKeyframe (kf :: rest))
    /\ 0 <= animationDuration g' <= 3500
    /\ targetBucket g' = Some t /\ isGameActive g' = true /\ gameState g' = dropping
    /\ landingHandled g' = false.
Proof.
  intros Hrnd Hs Ha Hd.
  destruct (handleDropBall_done M rnd Hrnd now g t g' Hs Ha Hd)
    as (x & p & d & tb & -> & _ & Hlen & (kf & rest & -> & Hx & Hy & Ht) & Hdur & _).
  eexists. exists kf, rest. cbn [startDrop ball animationPath ball_x ball_y ball_radius
    animationStartTime animationDuration targetBucket isGameActive gameState landingHandled
    withDuration board].
  split; [reflexivity|]. split; [reflexivity|].
  split; [destruct rest; [cbn in Hlen; lia|discriminate]|].
  split; [symmetry; exact Hx|]. split; [symmetry; exact Hy|]. split; [exact Ht|].
  repeat split; try reflexivity; apply Hdur.
Qed.

Lemma drop_starts_on_its_path_witness :
  exists g' bl kf rest,
    handleDropBall mathUp drawsDrop 0 selected1 = Done g'
    /\ ball g' = Some bl /\ animationPath g' = Some (kf :: rest) /\ rest <> []
    /\ ball_x bl == kf_x kf /\ ball_y bl == kf_y kf /\ kf_time kf == 0
    /\ ball_radius bl = ballRadius (config (board selected1))
    /\ animationStartTime g' = 0
    /\ animationDuration g' = kf_time (lastKeyframe (kf :: rest))
    /\ 0 <= animationDuration g' <= 3500
    /\ targetBucket g' = Some 1%Z /\ isGameActive g' = true /\ gameState g' = dropping
    /\ landingHandled g' = false.
Proof.
  destruct (drop_straight mathUp 0 sqrt_lower_mathUp) as [g' Hd].
  destruct (drop_starts_on_its_path mathUp drawsDrop 0 selected1 1 g'
              unitDraws_drawsDrop eq_refl eq_refl Hd) as (bl & kf & rest & H).
  exists g', bl, kf, rest. split; [exact Hd|exact H].
Defined.



(** ** The trail *)

Lemma createBall_state (M : MathLib) (rnd : nat -> Q) (now : Q) (g : Game) :
  ballTrail (stateOf (createBall M rnd now g)) = []
  /\ totalDrops (gameStats (stateOf (createBall M rnd now g)))
     = (totalDrops (gameStats g) + 1)%Z
  /\ successfulDrops (gameStats (stateOf (createBall M rnd now g)))
     = successfulDrops (gameStats g).
Proof.
  unfold createBall.
  destruct (calculateInitialBallPosition rnd (board g) 0%nat) as [x k].
  destruct (bucketAt (bucketLocations (board g)) (selectedBucket g)) as [tb0|].
  - destruct (bucketAt (bucketLocations (board g)) (selectedBucket g)) as [tb1|].
    + destruct (selectedBucket g) as [t|].
      * destruct (random rnd k) as [r k1].
        destruct (fst (generateAnimationPath M rnd (board g) x _ t (animationDuration g) k1));
          cbn; repeat split; reflexivity.
      * cbn; repeat split; reflexivity.
    + cbn; repeat split; reflexivity.
  - destruct (bucketAt (bucketLocations (board g)) _) as [tb1|].
    + destruct (random rnd k) as [r k1].
      destruct (fst (generateAnimationPath M rnd (board g) x _ _ (animationDuration g) k1));
        cbn; repeat split; reflexivity.
    + cbn; repeat split; reflexivity.
Qed.

Lemma updateBallTrail_length (bl : Ball) (trail : list (Q * Q)) :
  (length trail <= ballTrailLength)%nat ->
  (length (updateBallTrail bl trail) <= ballTrailLength)%nat.
Proof.
  intro H. unfold updateBallTrail.
  destruct (ballTrailLength <? length ((ball_x bl, ball_y bl) :: trail))%nat eqn:E.
  - change ((ball_x bl, ball_y bl) :: trail) with ([(ball_x bl, ball_y bl)] ++ trail).
    destruct trail as [|q trail'].
    + cbn. unfold ballTrailLength. lia.
    + rewrite removelast_app by discriminate. rewrite length_app.
      cbn [length] in *.
      assert (Hr : length (removelast (q :: trail')) = length trail').
      { destruct (@exists_last _ (q :: trail')) as (l0 & z & El); [discriminate|].
        rewrite El, removelast_last.
        apply (f_equal (@length _)) in El. rewrite length_app in El. cbn [length] in El. lia. }
      rewrite Hr. lia.
  - apply Nat.ltb_ge in E. exact E.
Qed.

Lemma trail_updateBallAnimation (currentTime : Q) (g : Game) :
  (length (ballTrail g) <= ballTrailLength)%nat ->
  (length (ballTrail (stateOf (updateBallAnimation currentTime g))) <= ballTrailLength)%nat.
Proof.
  intro H. unfold updateBallAnimation.
  destruct (ball g) as [bl|]; [|exact H].
  destruct (animationPath g) as [p|]; [|exact H].
  destruct (negb (isGameActive g)); [exact H|].
  destruct (Qgeb _ _).
  - destruct p as [|a p']; [exact H|].
    cbn [withBall landingHandled].
    destruct (landingHandled g); [exact H|].
    destruct (negb _).
    + destruct (bucketAt _ _); [|exact H].
      cbn [stateOf]. unfold handleBallLanding. cbn [withBall landingHandled].
      destruct (landingHandled g); [exact H|].
      destruct (sameBucket _ _); exact H.
    + cbn [stateOf]. unfold handleBallLanding. cbn [withBall landingHandled].
      destruct (landingHandled g); exact H.
  - destruct (findSegment _ _ _) as [[s1|] [s2|]]; try exact H.
    cbn [stateOf withBall ballTrail]. apply updateBallTrail_length. exact H.
Qed.

Lemma trail_step (g g' : Game) :
  (length (ballTrail g) <= ballTrailLength)%nat -> Step g g' ->
  (length (ballTrail g') <= ballTrailLength)%nat.
Proof.
  intros H Hstep. destruct Hstep.
  - unfold handleBucketSelection. destruct (isGameActive g); exact H.
  - unfold handleDropBall. destruct (selectedBucket g) as [t|]; [|exact H].
    destruct (isGameActive g); [exact H|].
    destruct (searchPath M rnd (board g) t maxAttempts (animationDuration g) 0%nat)
      as [[x p d|d|d] n].
    + exact H.
    + destruct (lookup1 _ t) as [tbk|]; [|exact H].
      destruct (random rnd n) as [r0 n0]. exact H.
    + exact H.
  - destruct (createBall_state M rnd now g) as [E _]. rewrite E. cbn.
    unfold ballTrailLength. lia.
  - rewrite gameLoop_stamped. destruct (isGameActive g); [|exact H].
    apply trail_updateBallAnimation. exact H.
  - unfold cleanupTimer. destruct (ball g); [|exact H].
    destruct (gameState g); try exact H. cbn. unfold ballTrailLength. lia.
  - unfold handleReset. destruct (_ || _); [|exact H]. cbn. unfold ballTrailLength. lia.
  - rewrite resizeCanvas_state. exact H.
Qed.

(** X11.  In every state reached from the initial one, the trail holds at
    most [ballTrailLength] = 5 positions. *)
Theorem trail_never_exceeds_its_length (b : Board) (g : Game) :
  Reachable (initialGame b) g -> (length (ballTrail g) <= ballTrailLength)%nat.
Proof.
  intro Hr. induction Hr as [|g g' Hr IH Hs].
  - cbn. unfold ballTrailLength. lia.
  - exact (trail_step g g' IH Hs).
Qed.

Lemma trail_never_exceeds_its_length_witness :
  exists g' g'',
    handleDropBall mathUp drawsDrop 0 selected1 = Done g'
    /\ frames [1; 2; 3; 4; 5; 6; 7] g' = Done g''
    /\ length (ballTrail g'') = 5%nat
    /\ (length (ballTrail g'') <= ballTrailLength)%nat.
Proof.
  destruct straight_drop_trail as (g' & g'' & Hd & Hf & Hl & Hr).
  exists g', g''. split; [exact Hd|]. split; [exact Hf|]. split; [exact Hl|].
  exact (trail_never_exceeds_its_length board100 g'' Hr).
Defined.

(** ** The counters *)

Lemma counters_updateBallAnimation (currentTime : Q) (g : Game) :
  countersFrom g (stateOf (updateBallAnimation currentTime g)).
Proof.
  assert (Hrefl : countersFrom g g) by (unfold countersFrom; lia).
  assert (Hland : forall n isT bl tr,
             countersFrom g (finishDrop (handleBallLanding n isT (withBall g bl tr)))).
  { intros n isT bl tr. unfold handleBallLanding. cbn [withBall landingHandled].
    destruct (landingHandled g); [exact Hrefl|].
    destruct isT; unfold countersFrom; cbn; lia. }
  unfold updateBallAnimation.
  destruct (ball g) as [bl|]; [|exact Hrefl].
  destruct (animationPath g) as [p|]; [|exact Hrefl].
  destruct (negb (isGameActive g)); [exact Hrefl|].
  destruct (Qgeb _ _).
  - destruct p as [|a p']; [exact Hrefl|].
    cbn [withBall landingHandled].
    destruct (landingHandled g); [exact Hrefl|].
    destruct (negb _).
    + destruct (bucketAt _ _); [|exact Hrefl]. apply Hland.
    + apply Hland.
  - destruct (findSegment _ _ _) as [[s1|] [s2|]]; exact Hrefl.
Qed.

Lemma counters_step (g g' : Game) : Step g g' -> countersFrom g g'.
Proof.
  assert (Hrefl : countersFrom g g) by (unfold countersFrom; lia).
  intros Hstep. destruct Hstep.
  - unfold handleBucketSelection. destruct (isGameActive g); exact Hrefl.
  - unfold handleDropBall. destruct (selectedBucket g) as [t|]; [|exact Hrefl].
    destruct (isGameActive g); [exact Hrefl|].
    destruct (searchPath M rnd (board g) t maxAttempts (animationDuration g) 0%nat)
      as [[x p d|d|d] n].
    + unfold countersFrom. cbn. lia.
    + destruct (lookup1 _ t) as [tbk|]; [|exact Hrefl].
      destruct (random rnd n) as [r0 n0]. unfold countersFrom. cbn. lia.
    + exact Hrefl.
  - destruct (createBall_state M rnd now g) as (_ & E1 & E2). unfold countersFrom.
    rewrite E1, E2. lia.
  - rewrite gameLoop_stamped. destruct (isGameActive g) eqn:Ha; [|exact Hrefl].
    pose proof (counters_updateBallAnimation timestamp (stamped timestamp g)) as H.
    exact H.
  - unfold cleanupTimer. destruct (ball g); [|exact Hrefl].
    destruct (gameState g); exact Hrefl.
  - unfold handleReset. destruct (_ || _); exact Hrefl.
  - rewrite resizeCanvas_state. exact Hrefl.
Qed.

(** X12.  No event lowers a counter: [totalDrops] and [successfulDrops]
    never decrease along the events of a session, a handler that throws
    included; and Reset keeps the statistics as they are. *)
Theorem counters_never_decrease (g0 g : Game) :
  Reachable g0 g ->
  (totalDrops (gameStats g0) <= totalDrops (gameStats g))%Z
  /\ (successfulDrops (gameStats g0) <= successfulDrops (gameStats g))%Z
  /\ gameStats (handleReset g) = gameStats g.
Proof.
  intro Hr. split; [|split].
  - induction Hr as [|g g' Hr IH Hs]; [lia|].
    pose proof (counters_step g g' Hs) as H. unfold countersFrom in H. lia.
  - induction Hr as [|g g' Hr IH Hs]; [lia|].
    pose proof (counters_step g g' Hs) as H. unfold countersFrom in H. lia.
  - unfold handleReset. destruct (_ || _); reflexivity.
Qed.

Lemma counters_never_decrease_witness :
  exists g' g'',
    handleDropBall mathUp drawsDrop 0 selected1 = Done g'
    /\ frames [1000; 3500] g' = Done g''
    /\ totalDrops (gameStats g'') = 1%Z /\ successfulDrops (gameStats g'') = 1%Z
    /\ (totalDrops (gameStats (initialGame board100)) <= totalDrops (gameStats g''))%Z
    /\ (successfulDrops (gameStats (initialGame board100))
        <= successfulDrops (gameStats g''))%Z
    /\ gameStats (handleReset g'') = gameStats g''.
Proof.
  destruct straight_drop_lands as (g' & g'' & Hd & Hf & _ & _ & Hs'' & _ & _ & Hr'').
  exists g', g''. split; [exact Hd|]. split; [exact Hf|].
  split; [rewrite Hs''; reflexivity|]. split; [rewrite Hs''; reflexivity|].
  exact (counters_never_decrease (initialGame board100) g'' Hr'').
Defined.

(** ** The success rate *)

(** X13.  In every state reached from the initial one, the success rate
    computed for the panels is between 0 and 100, is 0 before the first
    drop, and is 100 exactly when at least one drop was made and every drop
    was a success. *)
Theorem successRate_is_a_percentage (b : Board) (g : Game) :
  Reachable (initialGame b) g ->
  0 <= successRate (gameStats g) <= 100
  /\ (totalDrops (gameStats g) = 0%Z -> successRate (gameStats g) = 0)
  /\ (successRate (gameStats g) == 100 <->
      (0 < totalDrops (gameStats g))%Z
      /\ successfulDrops (gameStats g) = totalDrops (gameStats g)).
Proof.
  intro Hr.
  destruct (statsInv_reachable (initialGame b) g (statsInv_initial b) Hr) as [[H0 H1] _].
  unfold successRate.
  destruct (0 <? totalDrops (gameStats g))%Z eqn:E.
  - apply Z.ltb_lt in E.
    set (s := successfulDrops (gameStats g)) in *. set (n := totalDrops (gameStats g)) in *.
    assert (Hn : 0 < inject_Z n) by (change 0 with (inject_Z 0); rewrite <- Zlt_Qlt; exact E).
    assert (Hs0 : 0 <= inject_Z s) by (change 0 with (inject_Z 0); rewrite <- Zle_Qle; exact H0).
    assert (Hsn : inject_Z s <= inject_Z n) by (rewrite <- Zle_Qle; exact H1).
    assert (Hq0 : 0 <= inject_Z s / inject_Z n) by (apply Qle_shift_div_l; lra).
    assert (Hq1 : inject_Z s / inject_Z n <= 1) by (apply Qle_shift_div_r; lra).
    split; [lra|]. split; [intro Hz; lia|]. split.
    + intro H100. split; [exact E|].
      assert (Hq : inject_Z s / inject_Z n == 1) by lra.
      assert (Hs : inject_Z s == inject_Z n).
      { rewrite <- (Qmult_div_r (inject_Z s) (inject_Z n)) by lra. rewrite Hq. ring. }
      unfold Qeq in Hs. cbn in Hs. lia.
    + intros [_ Heq]. rewrite Heq. field. lra.
  - split; [lra|]. split; [reflexivity|]. split.
    + intro H. exfalso. lra.
    + intros [Hpos _]. apply Z.ltb_ge in E. lia.
Qed.

Lemma successRate_is_a_percentage_witness :
  exists g' g'',
    handleDropBall mathUp drawsDrop 0 selected1 = Done g'
    /\ frames [1000; 3500] g' = Done g''
    /\ successRate (gameStats g'') == 100
    /\ 0 <= successRate (gameStats (handleReset g')) <= 100
    /\ ~ successRate (gameStats (handleReset g')) == 100.
Proof.
  destruct straight_drop_lands as (g' & g'' & Hd & Hf & Hs' & Ha & Hs'' & _ & Hr' & Hr'').
  exists g', g''. split; [exact Hd|]. split; [exact Hf|].
  destruct (successRate_is_a_percentage board100 g'' Hr'') as (_ & _ & H100).
  split; [apply H100; rewrite Hs''; cbn; split; [lia|reflexivity]|].
  assert (Hr : Reachable (initialGame board100) (handleReset g')).
  { apply (ReachStep _ g'); [exact Hr'|apply StepReset]. }
  destruct (successRate_is_a_percentage board100 (handleReset g') Hr) as (Hb & _ & Hn).
  split; [exact Hb|]. intro H. apply Hn in H. destruct H as [_ H].
  unfold handleReset in H. rewrite Ha in H. cbn [orb resetBall gameStats] in H.
  rewrite Hs' in H. discriminate.
Defined.

(** ** The buttons and the handlers *)

(** X14.  The buttons agree with the handlers: in a state where
    [updateControls] disables Drop, [handleDropBall] changes nothing, and
    where it enables Drop, [handleDropBall] marks the game active (also
    when it throws); where it disables Reset, [handleReset] changes
    nothing, and where it enables Reset, [handleReset] is [resetBall]. *)
Theorem buttons_agree_with_handlers (M : MathLib) (rnd : nat -> Q) (now : Q) (g : Game) :
  (dropDisabled g = true -> handleDropBall M rnd now g = Done g)
  /\ (dropDisabled g = false ->
      isGameActive (stateOf (handleDropBall M rnd now g)) = true
      /\ stateOf (handleDropBall M rnd now g) <> g)
  /\ (resetDisabled g = true -> handleReset g = g)
  /\ (resetDisabled g = false -> handleReset g = resetBall g).
Proof.
  unfold dropDisabled, resetDisabled, handleDropBall, handleReset.
  split; [|split; [|split]].
  - destruct (selectedBucket g) as [t|]; [|reflexivity].
    destruct (isGameActive g); [reflexivity|discriminate].
  - destruct (selectedBucket g) as [t|]; [|destruct (isGameActive g); discriminate].
    destruct (isGameActive g) eqn:Ha; [discriminate|]. intros _.
    assert (H : isGameActive
                  (stateOf
                     (let '(r, n) := searchPath M rnd (board g) t maxAttempts
                                       (animationDuration g) 0%nat in
                      match r with
                      | Found verifiedStartX verifiedPath d =>
                          Done (startDrop (withDuration g true d) t now verifiedStartX
                                  verifiedPath)
                      | NotFound d =>
                          match lookup1 (bucketLocations (board g)) t with
                          | Some targetBucket =>
                              let '(r0, n0) := random rnd n in
                              Done (startDrop (withDuration g true d) t now
                                      (bucket_x targetBucket + (r0 - 0.5) * 20)
                                      (fst (directPath rnd (board g) targetBucket
                                              (bucket_x targetBucket + (r0 - 0.5) * 20)
                                              51 0 n0)))
                          | None => Thrown (withDuration g true d)
                          end
                      | SearchThrew d => Thrown (withDuration g true d)
                      end)) = true).
    { destruct (searchPath M rnd (board g) t maxAttempts (animationDuration g) 0%nat)
        as [[x p d|d|d] n]; [reflexivity| |reflexivity].
      destruct (lookup1 _ t); [|reflexivity]. destruct (random rnd n). reflexivity. }
    split; [exact H|]. intro E. rewrite E in H. congruence.
  - destruct (isGameActive g); [discriminate|]. destruct (ball g); [discriminate|reflexivity].
  - destruct (isGameActive g); [reflexivity|]. destruct (ball g); [reflexivity|discriminate].
Qed.

Lemma buttons_agree_with_handlers_witness :
  handleDropBall mathUp draws8 0 (initialGame board800) = Done (initialGame board800)
  /\ handleReset (initialGame board800) = initialGame board800
  /\ isGameActive (stateOf (handleDropBall mathUp draws8 0 selected6)) = true.
Proof.
  destruct (buttons_agree_with_handlers mathUp draws8 0 (initialGame board800))
    as (H1 & _ & H3 & _).
  destruct (buttons_agree_with_handlers mathUp draws8 0 selected6) as (_ & H2 & _).
  split; [exact (H1 eq_refl)|]. split; [exact (H3 eq_refl)|exact (proj1 (H2 eq_refl))].
Defined.

(** ** Where a drop starts *)

(** X15.  With draws in [0, 1) and a ball radius between 0 and a twelfth
    of the canvas width, [calculateInitialBallPosition] returns a start
    abscissa between [3 * ballRadius] and [canvas.width - 3 * ballRadius],
    and makes 2 or 4 draws. *)
Theorem start_position_inside_margins (rnd : nat -> Q) (b : Board) (k : nat) :
  unitDraws rnd ->
  0 <= ballRadius (config b) ->
  12 * ballRadius (config b) <= canvas_width (canvas b) ->
  ballRadius (config b) * 3 <= fst (calculateInitialBallPosition rnd b k)
  /\ fst (calculateInitialBallPosition rnd b k)
     <= canvas_width (canvas b) - ballRadius (config b) * 3
  /\ (snd (calculateInitialBallPosition rnd b k) = (k + 2)%nat
      \/ snd (calculateInitialBallPosition rnd b k) = (k + 4)%nat).
Proof.
  intros Hrnd H0 H12. unfold calculateInitialBallPosition, bind, random, ret.
  set (bR := ballRadius (config b)) in *. set (W := canvas_width (canvas b)) in *.
  destruct (Hrnd k) as [Ha0 Ha1].
  destruct (Hrnd (S (S (S k)))) as [Hb0 Hb1].
  assert (P1 : 0 <= rnd k * (W - bR * 3 - bR * 3)) by (apply Qmult_le_0_compat; lra).
  assert (P2 : 0 <= (1 - rnd k) * (W - bR * 3 - bR * 3)) by (apply Qmult_le_0_compat; lra).
  assert (P3 : 0 <= rnd (S (S (S k))) * (W * 0.25)) by (apply Qmult_le_0_compat; lra).
  assert (P4 : 0 <= (1 - rnd (S (S (S k)))) * (W * 0.25)) by (apply Qmult_le_0_compat; lra).
  assert (P5 : 0 <= rnd (S (S (S k))) * (W - bR * 3 - W * 0.75))
    by (apply Qmult_le_0_compat; lra).
  assert (P6 : 0 <= (1 - rnd (S (S (S k)))) * (W - bR * 3 - W * 0.75))
    by (apply Qmult_le_0_compat; lra).
  destruct (Qltb (rnd (S k)) 0.3).
  - destruct (Qltb (rnd (S (S k))) 0.5); cbn [fst snd]; rewrite num_eq;
      (split; [lra|split; [lra|right; lia]]).
  - cbn [fst snd]. rewrite num_eq. split; [lra|split; [lra|left; lia]].
Qed.

Lemma start_position_inside_margins_witness :
  ballRadius (config board800) * 3 <= fst (calculateInitialBallPosition draws8 board800 0%nat)
  /\ fst (calculateInitialBallPosition draws8 board800 0%nat)
     <= canvas_width (canvas board800) - ballRadius (config board800) * 3
  /\ (snd (calculateInitialBallPosition draws8 board800 0%nat) = (0 + 2)%nat
      \/ snd (calculateInitialBallPosition draws8 board800 0%nat) = (0 + 4)%nat).
Proof.
  apply (start_position_inside_margins draws8 board800 0%nat unitDraws_draws8).
  - vm_compute. discriminate.
  - vm_compute. discriminate.
Defined.

(** ** The pegs *)

Lemma inject_Z_sub (a b : Z) : inject_Z (a - b) = inject_Z a - inject_Z b.
Proof. unfold Z.sub, Qminus. rewrite inject_Z_plus, inject_Z_opp. reflexivity. Qed.

Lemma pegsInRow_bounds (row : nat) :
  (row < pegRows)%nat -> (1 <= pegsInRow row <= 11)%nat.
Proof.
  unfold pegRows. intro H.
  do 9 (destruct row as [|row]; [vm_compute; split; lia|]). lia.
Qed.

Lemma initPegs_In (cv : Canvas) (cfg : Config) (p : Peg) :
  In p (snd (initPegs cv cfg)) <->
  exists row i, (row < pegRows)%nat /\ (i < pegsInRow row)%nat
    /\ p = {| peg_x := num (canvas_width cv / 2
                            - (inject_Z (Z.of_nat (pegsInRow row)) - 1)
                              * (canvas_width cv / (maxRowPegs + 1)) / 2
                            + inject_Z (Z.of_nat i) * (canvas_width cv / (maxRowPegs + 1)));
              peg_y := num (canvas_height cv * 0.08
                            + inject_Z (Z.of_nat row)
                              * (canvas_width cv / (maxRowPegs + 1) * 0.866));
              peg_radius := pegRadius cfg; peg_row := row; peg_col := i |}.
Proof.
  unfold initPegs. cbn [snd]. rewrite in_flat_map. split.
  - intros (row & Hrow & Hin). apply in_map_iff in Hin. destruct Hin as (i & <- & Hi).
    apply in_seq in Hrow. apply in_seq in Hi. exists row, i.
    split; [lia|]. split; [lia|reflexivity].
  - intros (row & i & Hrow & Hi & ->). exists row. split; [apply in_seq; lia|].
    apply in_map_iff. exists i. split; [reflexivity|apply in_seq; lia].
Qed.

(** X16.  [initPegs] lays out 55 pegs and sets the peg spacing to a
    twelfth of the canvas width.  For a positive canvas width, every peg
    has the configured radius, lies more than half a spacing inside the
    left and right canvas borders, and between [0.08 * height] and eight
    rows below; every peg is above the bucket tops when the canvas is at
    least as high as wide; within a row the pegs go from left to right as
    their column grows, and the rows go down as their number grows. *)
Theorem initPegs_layout (cv : Canvas) (cfg : Config) :
  length (snd (initPegs cv cfg)) = 55%nat
  /\ pegSpacing (fst (initPegs cv cfg)) = canvas_width cv / 12
  /\ (0 < canvas_width cv ->
      forall p, In p (snd (initPegs cv cfg)) ->
        canvas_width cv / 24 < peg_x p < canvas_width cv - canvas_width cv / 24
        /\ canvas_height cv * 0.08 <= peg_y p
           <= canvas_height cv * 0.08 + 8 * (canvas_width cv / 12 * 0.866)
        /\ peg_radius p = pegRadius cfg
        /\ (canvas_width cv <= canvas_height cv ->
            forall bk, In bk (initBuckets cv) -> peg_y p < bucket_y bk)
        /\ (forall q, In q (snd (initPegs cv cfg)) ->
              (peg_row p = peg_row q -> (peg_col p < peg_col q)%nat -> peg_x p < peg_x q)
              /\ ((peg_row p < peg_row q)%nat -> peg_y p < peg_y q))).
Proof.
  split; [reflexivity|]. split; [reflexivity|].
  intros HW p Hp. apply initPegs_In in Hp. destruct Hp as (row & i & Hrow & Hi & ->).
  pose proof (pegsInRow_bounds row Hrow) as Hn.
  cbn [peg_x peg_y peg_radius peg_row peg_col]. rewrite !num_eq.
  change (maxRowPegs + 1) with 12.
  set (s := canvas_width cv / 12).
  assert (EW : canvas_width cv == 12 * s) by (unfold s; field).
  assert (E24 : canvas_width cv / 24 == s * 0.5) by (unfold s; field).
  assert (Hs : 0 < s) by (unfold s; apply Qlt_shift_div_l; lra).
  set (N := inject_Z (Z.of_nat (pegsInRow row))).
  set (I := inject_Z (Z.of_nat i)).
  set (R := inject_Z (Z.of_nat row)).
  assert (HN : 1 <= N <= 11).
  { unfold N. change 1 with (inject_Z 1). change 11 with (inject_Z 11).
    rewrite <- !Zle_Qle. lia. }
  assert (HI : 0 <= I <= N - 1).
  { unfold I, N. split.
    - change 0 with (inject_Z 0). rewrite <- Zle_Qle. lia.
    - change 1 with (inject_Z 1). rewrite <- inject_Z_sub, <- Zle_Qle. lia. }
  assert (HR : 0 <= R <= 8).
  { unfold R, pegRows in *. change 0 with (inject_Z 0). change 8 with (inject_Z 8).
    rewrite <- !Zle_Qle. lia. }
  assert (P1 : 0 <= I * s) by (apply Qmult_le_0_compat; lra).
  assert (P2 : 0 <= (N - 1 - I) * s) by (apply Qmult_le_0_compat; lra).
  assert (P3 : 0 <= (11 - N) * s) by (apply Qmult_le_0_compat; lra).
  assert (P4 : 0 <= R * (s * 0.866))
    by (apply Qmult_le_0_compat; [lra|apply Qmult_le_0_compat; lra]).
  assert (P5 : 0 <= (8 - R) * (s * 0.866))
    by (apply Qmult_le_0_compat; [lra|apply Qmult_le_0_compat; lra]).
  split; [|split; [|split; [|split]]].
  - rewrite E24, EW. split.
    + assert (E : 12 * s / 2 - (N - 1) * s / 2 + I * s
                  == s + ((11 - N) * s) * 0.5 + I * s) by field.
      rewrite E. set (a := (11 - N) * s) in *. set (c := I * s) in *.
      clearbody a c. clear E EW E24 HI HN P2. clearbody s. lra.
    + assert (E : 12 * s / 2 - (N - 1) * s / 2 + I * s
                  == 12 * s - s - ((11 - N) * s) * 0.5 - (N - 1 - I) * s) by field.
      rewrite E. set (a := (11 - N) * s) in *. set (c := (N - 1 - I) * s) in *.
      clearbody a c. clear E EW E24 HI HN P1. clearbody s. lra.
  - set (a := R * (s * 0.866)) in *.
    assert (E : (8 - R) * (s * 0.866) == 8 * (s * 0.866) - a) by (unfold a; ring).
    rewrite E in P5. clearbody a. clear E EW E24. clearbody s. split; lra.
  - reflexivity.
  - intros HWH bk Hbk. unfold initBuckets in Hbk. apply in_map_iff in Hbk.
    destruct Hbk as (j & <- & _). cbn [bucket_y]. rewrite !num_eq.
    set (a := R * (s * 0.866)) in *.
    assert (E : (8 - R) * (s * 0.866) == 8 * (s * 0.866) - a) by (unfold a; ring).
    rewrite E in P5. clearbody a. clear E E24. clearbody s. lra.
  - intros q Hq. apply initPegs_In in Hq. destruct Hq as (row' & i' & Hrow' & Hi' & ->).
    cbn [peg_x peg_y peg_row peg_col]. rewrite !num_eq.
    change (maxRowPegs + 1) with 12. fold s. split.
    + intros <- Hlt. fold N I.
      set (I' := inject_Z (Z.of_nat i')).
      assert (HI' : I + 1 <= I').
      { unfold I, I'. change 1 with (inject_Z 1). rewrite <- inject_Z_plus, <- Zle_Qle. lia. }
      assert (P6 : 0 <= (I' - I - 1) * s) by (apply Qmult_le_0_compat; lra).
      assert (E6 : (I' - I - 1) * s == I' * s - I * s - s) by ring.
      rewrite E6 in P6. set (c := I * s) in *. set (c' := I' * s) in *.
      set (m := canvas_width cv / 2 - (N - 1) * s / 2).
      clearbody c c' m. clear - P6 Hs. clearbody s. lra.
    + intro Hlt. fold R.
      set (R' := inject_Z (Z.of_nat row')).
      assert (HR' : R + 1 <= R').
      { unfold R, R'. change 1 with (inject_Z 1). rewrite <- inject_Z_plus, <- Zle_Qle. lia. }
      assert (P6 : 0 <= (R' - R - 1) * (s * 0.866))
        by (apply Qmult_le_0_compat; [lra|apply Qmult_le_0_compat; lra]).
      assert (E6 : (R' - R - 1) * (s * 0.866) == R' * (s * 0.866) - R * (s * 0.866) - s * 0.866)
        by ring.
      rewrite E6 in P6. set (c := R * (s * 0.866)) in *. set (c' := R' * (s * 0.866)) in *.
      set (m := canvas_height cv * 0.08).
      clearbody c c' m. clear - P6 Hs. clearbody s. lra.
Qed.

Lemma initPegs_layout_witness :
  let cv := {| canvas_width := 730; canvas_height := 949 |} in
  let pegs := snd (initPegs cv initialConfig) in
  let noPeg := {| peg_x := 0; peg_y := 0; peg_radius := 0; peg_row := 0; peg_col := 0 |} in
  let p := nth 44 pegs noPeg in
  let q := nth 54 pegs noPeg in
  peg_row p = 8%nat /\ peg_col p = 0%nat /\ peg_row q = 8%nat /\ peg_col q = 10%nat
  /\ canvas_width cv / 24 < peg_x p < canvas_width cv - canvas_width cv / 24
  /\ canvas_height cv * 0.08 <= peg_y p
     <= canvas_height cv * 0.08 + 8 * (canvas_width cv / 12 * 0.866)
  /\ peg_radius p = pegRadius initialConfig
  /\ (forall bk, In bk (initBuckets cv) -> peg_y p < bucket_y bk)
  /\ peg_x p < peg_x q.
Proof.
  intros cv pegs noPeg p q.
  destruct (initPegs_layout cv initialConfig) as (Hlen & _ & H).
  assert (Hp : In p pegs) by (apply nth_In; unfold pegs; rewrite Hlen; lia).
  assert (Hq : In q pegs) by (apply nth_In; unfold pegs; rewrite Hlen; lia).
  destruct (H eq_refl p Hp) as (H1 & H2 & H3 & H4 & H5).
  split; [reflexivity|]. split; [reflexivity|]. split; [reflexivity|].
  split; [reflexivity|]. split; [exact H1|]. split; [exact H2|]. split; [exact H3|].
  split; [apply H4; vm_compute; discriminate|].
  apply (H5 q Hq); [reflexivity|vm_compute; lia].
Defined.

(** ** Particles *)

Lemma createParticles_fresh (M : MathLib) (rnd : nat -> Q) (PI x y : Q) (count : nat)
    (speedFactor : Q) :
  forall particles k,
    exists fresh,
      fst (createParticles M rnd PI x y count speedFactor particles k)
      = particles ++ fresh
      /\ length fresh = count
      /\ Forall (fun p => p_life p = particleLifetime /\ p_alpha p = 1
                          /\ p_x p = x /\ p_y p = y) fresh
      /\ snd (createParticles M rnd PI x y count speedFactor particles k)
         = (k + 4 * count)%nat.
Proof.
  induction count as [|count IH]; intros particles k.
  - exists []. cbn. rewrite app_nil_r. repeat split; [constructor|lia].
  - cbn [createParticles]. unfold bind, random.
    match goal with
    | |- context [createParticles _ _ _ _ _ _ _ (particles ++ [?p]) ?k1] =>
        destruct (IH (particles ++ [p]) k1) as (fresh & E1 & E2 & E3 & E4);
        exists (p :: fresh)
    end.
    rewrite E1, E4, <- app_assoc. cbn [app length].
    split; [reflexivity|]. split; [lia|]. split; [|lia].
    constructor; [cbn; repeat split; reflexivity|exact E3].
Qed.

Lemma updateParticles_ages (L : Z) (ps : list Particle) :
  (1 < L)%Z -> Forall (fun p => p_life p = L) ps ->
  length (updateParticles ps) = length ps
  /\ Forall (fun p => p_life p = (L - 1)%Z) (updateParticles ps).
Proof.
  intros HL H. unfold updateParticles. induction H as [|p ps Hp Hps IH].
  - split; [reflexivity|constructor].
  - cbn [map filter]. cbn [agedParticle p_life]. rewrite Hp.
    replace (0 <? L - 1)%Z with true by (symmetry; apply Z.ltb_lt; lia).
    destruct IH as [IH1 IH2]. cbn [length]. split; [lia|].
    constructor; [cbn; lia|exact IH2].
Qed.

Lemma updateParticles_expires (ps : list Particle) :
  Forall (fun p => (p_life p <= 1)%Z) ps -> updateParticles ps = [].
Proof.
  intro H. unfold updateParticles. induction H as [|p ps Hp Hps IH]; [reflexivity|].
  cbn [map filter]. cbn [agedParticle p_life].
  replace (0 <? p_life p - 1)%Z with false by (symmetry; apply Z.ltb_ge; lia).
  exact IH.
Qed.

Lemma particles_survive (j : nat) :
  forall (L : Z) (ps : list Particle),
    (Z.of_nat j < L)%Z -> Forall (fun p => p_life p = L) ps ->
    length (Nat.iter j updateParticles ps) = length ps
    /\ Forall (fun p => p_life p = (L - Z.of_nat j)%Z) (Nat.iter j updateParticles ps).
Proof.
  induction j as [|j IH]; intros L ps HL H.
  - cbn [Nat.iter]. split; [reflexivity|].
    eapply Forall_impl; [|exact H]. intros p Hp. cbn in *. lia.
  - change (Nat.iter (S j) updateParticles ps)
      with (updateParticles (Nat.iter j updateParticles ps)).
    destruct (IH L ps) as [IH1 IH2]; [lia|exact H|].
    destruct (updateParticles_ages (L - Z.of_nat j) (Nat.iter j updateParticles ps))
      as [H1 H2]; [lia|exact IH2|].
    split; [congruence|]. eapply Forall_impl; [|exact H2]. intros p Hp. cbn beta in *. lia.
Qed.

(** X17.  [createParticles] adds [count] particles and makes four draws
    for each; a fresh batch is still complete after each of the first 29
    calls of [updateParticles], and the 30th removes all of it. *)
Theorem particles_live_thirty_frames (M : MathLib) (rnd : nat -> Q) (PI x y : Q)
    (count : nat) (speedFactor : Q) (k : nat) :
  let fresh := fst (createParticles M rnd PI x y count speedFactor [] k) in
  length fresh = count
  /\ snd (createParticles M rnd PI x y count speedFactor [] k) = (k + 4 * count)%nat
  /\ (forall j, (j < 30)%nat -> length (Nat.iter j updateParticles fresh) = count)
  /\ Nat.iter 30 updateParticles fresh = [].
Proof.
  intro fresh. subst fresh.
  destruct (createParticles_fresh M rnd PI x y count speedFactor [] k)
    as (fresh & E1 & E2 & E3 & E4).
  rewrite E1, E4. cbn [app].
  assert (Hlife : Forall (fun p => p_life p = particleLifetime) fresh).
  { eapply Forall_impl; [|exact E3]. intros p Hp. apply Hp. }
  split; [exact E2|]. split; [reflexivity|]. split.
  - intros j Hj. destruct (particles_survive j particleLifetime fresh) as [H _].
    + unfold particleLifetime. lia.
    + exact Hlife.
    + lia.
  - change (Nat.iter 30 updateParticles fresh)
      with (updateParticles (Nat.iter 29 updateParticles fresh)).
    destruct (particles_survive 29 particleLifetime fresh) as [_ H].
    + unfold particleLifetime. lia.
    + exact Hlife.
    + apply updateParticles_expires. eapply Forall_impl; [|exact H].
      intros p Hp. cbn beta in Hp. rewrite Hp. unfold particleLifetime. lia.
Qed.

(** ** The arc used when no verified path was found *)

Lemma directPath_draws (rnd : nat -> Q) (b : Board) (tb : Bucket) (x : Q) (n : nat) :
  forall i k, snd (directPath rnd b tb x n i k) = (k + n)%nat.
Proof.
  induction n as [|n IH]; intros i k; [cbn; lia|].
  cbn [directPath]. unfold bind at 1, random at 1. unfold bind at 1.
  specialize (IH (S i) (S k)).
  destruct (directPath rnd b tb x n (S i) (S k)) as [rest k']. cbn [snd ret] in *. lia.
Qed.

(** X18.  The arc that [handleDropBall] builds when no verified path was
    found has 51 keyframes, keyframe [i] at the time [(i / 50) * 2500], and
    makes one draw for each; every one of its keyframes is within 10 px of
    the target centre horizontally: each point is the straight-line blend
    of the start, at most 10 px off the centre, and of an end point drawn
    afresh for that point, at most 5 px off. *)
Theorem direct_arc_stays_over_the_target (rnd : nat -> Q) (b : Board) (tb : Bucket)
    (r0 : Q) (k : nat) :
  unitDraws rnd -> 0 <= r0 -> r0 < 1 ->
  length (fst (directPath rnd b tb (bucket_x tb + (r0 - 0.5) * 20) 51 0 k)) = 51%nat
  /\ snd (directPath rnd b tb (bucket_x tb + (r0 - 0.5) * 20) 51 0 k) = (k + 51)%nat
  /\ forall i kf,
       nth_error (fst (directPath rnd b tb (bucket_x tb + (r0 - 0.5) * 20) 51 0 k)) i
       = Some kf ->
       kf_time kf == inject_Z (Z.of_nat i) / 50 * 2500
       /\ Qabs (kf_x kf - bucket_x tb) <= 10.
Proof.
  intros Hrnd H0 H1. rewrite directPath_points, directPath_draws.
  split; [rewrite length_map, length_seq; reflexivity|]. split; [reflexivity|].
  intros i kf Hnth.
  assert (Hi : (i < 51)%nat).
  { assert (Hn : nth_error
                   (map (fun j => directPoint b tb (bucket_x tb + (r0 - 0.5) * 20)
                                    (0 + j) (rnd (k + j)%nat)) (seq 0 51)) i <> None)
      by congruence.
    apply nth_error_Some in Hn. rewrite length_map, length_seq in Hn. exact Hn. }
  rewrite nth_error_map, nth_error_seq in Hnth.
  replace (i <? 51)%nat with true in Hnth by (symmetry; apply Nat.ltb_lt; exact Hi).
  cbn [option_map] in Hnth. injection Hnth as <-.
  unfold directPoint. cbn [kf_time kf_x]. rewrite !num_eq.
  change (0 + (0 + i))%nat with i.
  set (I := inject_Z (Z.of_nat i)).
  assert (HI : 0 <= I <= 50).
  { unfold I. change 0 with (inject_Z 0). change 50 with (inject_Z 50).
    rewrite <- !Zle_Qle. lia. }
  destruct (Hrnd (k + i)%nat) as [Hr0 Hr1].
  set (r := rnd (k + i)%nat) in *.
  split; [reflexivity|].
  set (t := I / 50).
  assert (Ht : 0 <= t <= 1).
  { unfold t. split; [apply Qle_shift_div_l; lra|apply Qle_shift_div_r; lra]. }
  assert (E : (1 - t) * (1 - t) * (bucket_x tb + (r0 - 0.5) * 20)
              + 2 * (1 - t) * t
                * ((bucket_x tb + (r0 - 0.5) * 20 + (bucket_x tb + (r - 0.5) * 10)) / 2)
              + t * t * (bucket_x tb + (r - 0.5) * 10) - bucket_x tb
              == (1 - t) * ((r0 - 0.5) * 20) + t * ((r - 0.5) * 10)) by field.
  rewrite E. clear E. clearbody t r. clear HI. clearbody I.
  apply Qabs_Qle_condition.
  assert (A1 : 0 <= (1 - t) * (10 - (r0 - 0.5) * 20)) by (apply Qmult_le_0_compat; lra).
  assert (A2 : 0 <= (1 - t) * (10 + (r0 - 0.5) * 20)) by (apply Qmult_le_0_compat; lra).
  assert (A3 : 0 <= t * (5 - (r - 0.5) * 10)) by (apply Qmult_le_0_compat; lra).
  assert (A4 : 0 <= t * (5 + (r - 0.5) * 10)) by (apply Qmult_le_0_compat; lra).
  split; nra.
Qed.

Lemma direct_arc_stays_over_the_target_witness :
  length (fst (directPath draws8 board800 (bucketOf board800 3)
                 (bucket_x (bucketOf board800 3) + (0.9 - 0.5) * 20) 51 0 0%nat)) = 51%nat
  /\ snd (directPath draws8 board800 (bucketOf board800 3)
            (bucket_x (bucketOf board800 3) + (0.9 - 0.5) * 20) 51 0 0%nat) = (0 + 51)%nat
  /\ forall i kf,
       nth_error (fst (directPath draws8 board800 (bucketOf board800 3)
                         (bucket_x (bucketOf board800 3) + (0.9 - 0.5) * 20) 51 0 0%nat)) i
       = Some kf ->
       kf_time kf == inject_Z (Z.of_nat i) / 50 * 2500
       /\ Qabs (kf_x kf - bucket_x (bucketOf board800 3)) <= 10.
Proof.
  apply (direct_arc_stays_over_the_target draws8 board800 (bucketOf board800 3) 0.9 0%nat
           unitDraws_draws8).
  - lra.
  - lra.
Defined.

(** ** A click on Drop that throws, and a drop that is reset *)







(** ** Past the last keyframe, before the end of the animation *)

Lemma findSegment_past (e : Q) (l : list Keyframe) (z : Keyframe)
    (seg : option Keyframe * option Keyframe) :
  l <> [] -> nondecreasingTimes (l ++ [z]) -> kf_time z <= e ->
  findSegment e (l ++ [z]) seg = (Some z, Some z).
Proof.
  intros Hne Hs Hz. induction l as [|x l IH]; [contradiction|].
  destruct l as [|y l'].
  - cbn [app findSegment].
    assert (Hf : Qltb e (kf_time z) = false) by (apply Qltb_ge; exact Hz).
    rewrite Hf, andb_false_r. apply Qgeb_ge in Hz. rewrite Hz. reflexivity.
  - cbn [app] in *. inversion Hs as [|x' l0 Hs' Hall]; subst.
    assert (Hy : kf_time y <= kf_time z).
    { inversion Hs' as [|y' l1 _ Hall']; subst.
      rewrite Forall_forall in Hall'. apply Hall'. apply in_or_app. right. left.
      reflexivity. }
    cbn [findSegment].
    assert (Hf : Qltb e (kf_time y) = false) by (apply Qltb_ge; lra).
    rewrite Hf, andb_false_r.
    specialize (IH ltac:(discriminate) Hs'). cbn [app] in IH.
    destruct (l' ++ [z]) as [|w rest] eqn:E; [destruct l'; discriminate|].
    exact IH.
Qed.

(** X21.  On a path whose times never decrease, at an elapsed time at or
    past the time of the last keyframe but still before
    [animationDuration] (the case of a trajectory of 150 keyframes
    installed with the full fall time as its duration), the ball stays on
    the last keyframe; no landing is handled and the game stays active. *)
Theorem playback_holds_the_last_keyframe (g : Game) (bl : Ball) (l : list Keyframe)
    (z : Keyframe) (currentTime : Q) :
  ball g = Some bl -> animationPath g = Some (l ++ [z]) -> l <> [] ->
  isGameActive g = true ->
  nondecreasingTimes (l ++ [z]) ->
  kf_time z <= currentTime - animationStartTime g ->
  currentTime - animationStartTime g < animationDuration g ->
  exists g' bl',
    updateBallAnimation currentTime g = Done g' /\ ball g' = Some bl'
    /\ ball_x bl' == kf_x z /\ ball_y bl' == kf_y z
    /\ isGameActive g' = true /\ landingHandled g' = landingHandled g
    /\ gameStats g' = gameStats g.
Proof.
  intros Hb Hp Hne Hact Hs Hz Hd. unfold updateBallAnimation. rewrite Hb, Hp, Hact.
  cbn [negb]. apply Qgeb_lt in Hd. rewrite Hd.
  rewrite (findSegment_past _ l z _ Hne Hs Hz).
  assert (Hg : Qgtb (kf_time z - kf_time z) 0 = false) by (apply Qgtb_le; lra).
  rewrite Hg. apply Qgeb_ge in Hz. rewrite Hz.
  eexists. eexists. split; [reflexivity|]. split; [reflexivity|].
  cbn [moveBall ball_x ball_y withBall isGameActive landingHandled gameStats].
  split; [ring|]. split; [ring|]. split; [exact Hact|]. split; reflexivity.
Qed.

Lemma playback_holds_the_last_keyframe_witness :
  exists g' bl',
    updateBallAnimation 2100 (inFlight twoPoints 2500 3) = Done g' /\ ball g' = Some bl'
    /\ ball_x bl' == 460 /\ ball_y bl' == 873.6
    /\ isGameActive g' = true
    /\ landingHandled g' = landingHandled (inFlight twoPoints 2500 3)
    /\ gameStats g' = gameStats (inFlight twoPoints 2500 3).
Proof.
  apply (playback_holds_the_last_keyframe (inFlight twoPoints 2500 3)
           {| ball_x := 400; ball_y := 52; ball_radius := 13; ball_targetBucket := Some 3%Z |}
           [ {| kf_x := 400; kf_y := 52; kf_time := 0 |} ]
           {| kf_x := 460; kf_y := 873.6; kf_time := 2000 |} 2100).
  - reflexivity.
  - reflexivity.
  - discriminate.
  - reflexivity.
  - repeat constructor. unfold notLater. cbn [kf_time]. lra.
  - cbn [inFlight animationStartTime kf_time]. lra.
  - cbn [inFlight animationStartTime animationDuration]. lra.
Defined.
